(** * neobench: the workload script parser, the expression evaluator,
      the unit-of-work builder and the signal handler

    A shallow embedding of [pkg/workload/parser.go] and of the signal
    handler [SetupSignalHandler], with the properties the specification
    states about them.

    Conventions.
    - [int64] values are integers of [Z] kept in range by [wrap64];
      [float64] values are IEEE-754 binary64 numbers ([spec_float] with
      precision 53 and maximal exponent 1024, rounding to nearest even).
    - A Go [map[string]interface{}] is a reference: maps live in a heap and
      the structs hold their addresses.
    - The Go libraries the code calls ([text/scanner], [math/rand]) are
      interfaces ([ScannerLib], [RandLib]); a small instance of each is
      given so that the definitions can be run.
    - Loops that the source does not bound take a [fuel] argument and
      return [None] when it runs out. *)

From Stdlib Require Import ZArith Lia Bool Ascii String List.
From Stdlib Require Import DecimalString DecimalN.
From Stdlib Require Import SpecFloat.
From stdpp Require Import base option list strings gmap fin_maps.

Local Open Scope string_scope.
Local Open Scope list_scope.
Local Open Scope Z_scope.

(** ** Machine integers and floats *)

Definition minInt64 : Z := - 2 ^ 63.
Definition maxInt64 : Z := 2 ^ 63 - 1.

(** Two's complement wrap-around of an [int64] result. *)
Definition wrap64 (z : Z) : Z := (z + 2 ^ 63) mod 2 ^ 64 - 2 ^ 63.

Definition inInt64 (z : Z) : Prop := minInt64 <= z <= maxInt64.

Definition float64 : Type := spec_float.

(** [float64(i)] for an [int64] [i]. *)
Definition f64_of_int (i : Z) : float64 := binary_normalize 53 1024 i 0 false.
Definition f64_mul (x y : float64) : float64 := SFmul 53 1024 x y.
Definition f64_add (x y : float64) : float64 := SFadd 53 1024 x y.
Definition f64_sub (x y : float64) : float64 := SFsub 53 1024 x y.
(** Go's [==] on [float64]: a NaN differs from everything, zeros are equal. *)
Definition f64_eqb (x y : float64) : bool := SFeqb x y.
(** A value of Go's [float64]: the mantissa is canonical and the exponent
    is in range. The floats an [int64] converts to and the results of the
    operations are such values. *)
Definition f64_valid (x : float64) : bool := valid_binary 53 1024 x.

(** *** Rounding, by values

    What the proofs about the rounding of [float64] sums and products
    are stated with. *)

(** The exponent of the floats with [e] digits before the unit [2^0]. *)
Definition fexp64 : Z -> Z := SpecFloat.fexp 53 1024.

(** [mrs] is [M] shifted right by [k] places: the mantissa is the
    quotient, the two flags are off when nothing was lost, and the round
    flag is on only if at least half a unit was lost. *)
Definition shr_spec (M k : Z) (mrs : shr_record) : Prop :=
  0 <= k /\ shr_m mrs = M / 2 ^ k /\
  (M mod 2 ^ k = 0 -> shr_r mrs = false /\ shr_s mrs = false) /\
  (shr_r mrs = true -> 2 ^ k <= 2 * (M mod 2 ^ k)).

(** The float with sign [sx], mantissa [m2] of at most 54 digits and
    exponent [E], as [binary_round_aux] builds it. *)
Definition packed (sx : bool) (m2 E : Z) : spec_float :=
  if m2 =? 0 then S754_zero sx
  else if m2 =? 2 ^ 53 then
    (if E + 1 <=? 971 then S754_finite sx 4503599627370496 (E + 1) else S754_infinity sx)
  else if E <=? 971 then S754_finite sx (Z.to_pos m2) E else S754_infinity sx.


(** [res] is the number [V > 0], given in units, rounded to nearest even,
    with the sign [sx]: [dV] is the number of digits of [V] (counted from
    the unit [2^0]), [m1] the mantissa of [V] cut at the exponent
    [fexp64 dV] and [m2] the rounded one. *)
Definition Rounds (sx : bool) (V : Z) (res : spec_float) : Prop :=
  exists dV m1 m2 : Z,
    -2199 <= dV /\
    2 ^ (dV - 1 + 2200) <= V < 2 ^ (dV + 2200) /\
    m1 * 2 ^ (fexp64 dV + 2200) <= V < (m1 + 1) * 2 ^ (fexp64 dV + 2200) /\
    (m2 = m1 \/ (m2 = m1 + 1 /\ (2 * m1 + 1) * 2 ^ (fexp64 dV + 2200) <= 2 * V)) /\
    (2 * V < (2 * m1 + 1) * 2 ^ (fexp64 dV + 2200) -> m2 = m1) /\
    res = packed sx m2 (fexp64 dV).

(** ** Strings: decimal rendering, [strconv.Atoi], [%q] *)

Definition dquote : ascii := ascii_of_nat 34.
Definition newline : ascii := ascii_of_nat 10.

Definition codeOf (ch : ascii) : Z := Z.of_N (N_of_ascii ch).

(** [%d] of a non-negative integer. *)
Definition formatNat (n : N) : string := NilZero.string_of_uint (N.to_uint n).

(** [%d] of an [int64]. *)
Definition formatInt (z : Z) : string :=
  if z <? 0 then String "-" (formatNat (Z.to_N (- z))) else formatNat (Z.to_N z).

(** [strconv.Quote] restricted to ASCII input. *)
Definition hexDigit (n : Z) : ascii :=
  if n <? 10 then ascii_of_N (Z.to_N (48 + n)) else ascii_of_N (Z.to_N (87 + n)).

Definition quoteChar (ch : ascii) : string :=
  let n := codeOf ch in
  if n =? 34 then "\" +:+ String dquote EmptyString
  else if n =? 92 then "\\"
  else if n =? 7 then "\a"
  else if n =? 8 then "\b"
  else if n =? 12 then "\f"
  else if n =? 10 then "\n"
  else if n =? 13 then "\r"
  else if n =? 9 then "\t"
  else if n =? 11 then "\v"
  else if (n <? 32) || (n =? 127) then
    "\x" +:+ String (hexDigit (n / 16)) (String (hexDigit (n mod 16)) EmptyString)
  else String ch EmptyString.

Fixpoint quoteBody (s : string) : string :=
  match s with
  | EmptyString => EmptyString
  | String ch r => quoteChar ch +:+ quoteBody r
  end.

Definition quote (s : string) : string :=
  String dquote (quoteBody s) +:+ String dquote EmptyString.

(** [strconv.Atoi] on a 64-bit platform: an optional sign, then decimal
    digits only; the value must fit an [int64]. The result is the integer
    or the text of the [*NumError]. *)
Definition atoiError (s reason : string) : string :=
  "strconv.Atoi: parsing " +:+ quote s +:+ ": " +:+ reason.

Definition Atoi (s : string) : Z + string :=
  let '(neg, digits) :=
    match s with
    | String "-" r => (true, r)
    | String "+" r => (false, r)
    | _ => (false, s)
    end in
  match NilZero.uint_of_string digits with
  | None => inr (atoiError s "invalid syntax")
  | Some d =>
      let n := Z.of_N (N.of_uint d) in
      let v := if neg : bool then - n else n in
      if (minInt64 <=? v) && (v <=? maxInt64) then inl v
      else inr (atoiError s "value out of range")
  end.

(** ** [text/scanner] *)

Module scanner.

(** The token classes of [text/scanner]; every other token is the rune
    itself. *)
Definition EOF : Z := -1.
Definition Ident : Z := -2.
Definition Int : Z := -3.
Definition Float : Z := -4.
Definition Char : Z := -5.
Definition StringTok : Z := -6.
Definition RawString : Z := -7.
Definition Comment : Z := -8.

(** [GoWhitespace]: tab, newline, carriage return and space. *)
Definition GoWhitespace : Z :=
  Z.lor (Z.lor (Z.shiftl 1 9) (Z.shiftl 1 10)) (Z.lor (Z.shiftl 1 13) (Z.shiftl 1 32)).

(** [scanner.TokenString]. Runes outside ASCII are not modelled and are
    rendered like the runes Go cannot print. *)
Definition TokenString (tok : Z) : string :=
  if tok =? EOF then "EOF"
  else if tok =? Ident then "Ident"
  else if tok =? Int then "Int"
  else if tok =? Float then "Float"
  else if tok =? Char then "Char"
  else if tok =? StringTok then "String"
  else if tok =? RawString then "RawString"
  else if tok =? Comment then "Comment"
  else if (0 <=? tok) && (tok <? 128) then quote (String (ascii_of_N (Z.to_N tok)) EmptyString)
  else quote ("\u" +:+ formatInt tok).

(** What the parser uses of a [scanner.Scanner] reading a source text:
    [Init], [Scan] together with [TokenText] (under a [Whitespace] mask),
    and the line and column of [Pos]. *)
Class ScannerLib := {
  source : Type;
  Init : string -> source;
  Scan : Z -> source -> Z * string * source;
  Pos : source -> N * N;
}.

(** The part of a [scanner.Scanner] the parser sets itself. *)
Record Scanner `{ScannerLib} := mkScanner {
  src : source;
  Filename : string;
  Whitespace : Z;
}.

(** [Position.String] of [s.Pos()]; the positions of [Pos] are valid. *)
Definition PosString `{ScannerLib} (s : Scanner) : string :=
  let '(l, c) := Pos (src s) in
  (if String.eqb (Filename s) EmptyString then "<input>" else Filename s)
    +:+ ":" +:+ formatNat l +:+ ":" +:+ formatNat c.

(** What the proofs of termination need of a scanner: the text is
    finite, every token but [EOF] uses some of it. *)
Definition FiniteText `{ScannerLib} : Prop :=
  exists remaining : source -> nat,
    forall ws s tok txt s', Scan ws s = (tok, txt, s') ->
      (remaining s' <= remaining s)%nat /\
      (tok <> EOF -> (remaining s' < remaining s)%nat).

End scanner.

(** *** A scanner for the plain part of the token language

  [SimpleScanner] follows [Scanner.Scan] in the default [GoTokens] mode
  on ASCII texts made of identifiers, decimal digit runs, white space and
  single-rune tokens. Quoted strings, character literals, comments and
  the other number forms of [text/scanner] are not modelled: their
  opening runes are returned as single-rune tokens. Bytes from 128 on
  are outside this fragment: [text/scanner] decodes UTF-8 and takes
  Unicode letters and digits into identifiers, while every such byte is
  a token of its own here. A property that depends on where a word or a
  token ends asks for ASCII at that place ([endsWord], [plainText]). *)
Module simple.

Record source := mkSource {
  rest : string;
  line : N;
  column : N;
}.

Definition isLetter (ch : ascii) : bool :=
  let n := codeOf ch in
  ((65 <=? n) && (n <=? 90)) || ((97 <=? n) && (n <=? 122)).

Definition isDecimal (ch : ascii) : bool :=
  let n := codeOf ch in (48 <=? n) && (n <=? 57).

(** [isIdentRune ch i]: a letter or an underscore, or a digit when not
    first. *)
Definition isIdentRune (ch : ascii) (first : bool) : bool :=
  (codeOf ch =? 95) || isLetter ch || (negb first && isDecimal ch).

(** [s.Whitespace&(1<<uint(ch)) != 0] on a 64-bit mask. *)
Definition isWhitespace (ws : Z) (ch : ascii) : bool :=
  (codeOf ch <? 64) && Z.testbit ws (codeOf ch).

Definition advance (s : source) (ch : ascii) (r : string) : source :=
  if codeOf ch =? 10 then mkSource r (line s + 1) 1
  else mkSource r (line s) (column s + 1).

Fixpoint skipWhitespace (ws : Z) (txt : string) (l c : N) : source :=
  match txt with
  | EmptyString => mkSource txt l c
  | String ch r =>
      if isWhitespace ws ch
      then (if codeOf ch =? 10 then skipWhitespace ws r (l + 1) 1
            else skipWhitespace ws r l (c + 1))
      else mkSource txt l c
  end.

(** The longest prefix of runes satisfying [p], and the rest. *)
Fixpoint span (p : ascii -> bool) (txt : string) : string * string :=
  match txt with
  | EmptyString => (EmptyString, EmptyString)
  | String ch r =>
      if p ch then let '(a, b) := span p r in (String ch a, b)
      else (EmptyString, txt)
  end.

Definition Init (script : string) : source := mkSource script 1 1.

Definition Scan (ws : Z) (s : source) : Z * string * source :=
  let s1 := skipWhitespace ws (rest s) (line s) (column s) in
  match rest s1 with
  | EmptyString => (scanner.EOF, EmptyString, s1)
  | String ch r =>
      if isIdentRune ch true then
        let '(txt, r') := span (fun x => isIdentRune x false) r in
        (scanner.Ident, String ch txt,
         mkSource r' (line s1) (column s1 + 1 + N.of_nat (String.length txt)))
      else if isDecimal ch then
        let '(txt, r') := span isDecimal r in
        (scanner.Int, String ch txt,
         mkSource r' (line s1) (column s1 + 1 + N.of_nat (String.length txt)))
      else (codeOf ch, String ch EmptyString, advance s1 ch r)
  end.

Definition Pos (s : source) : N * N := (line s, column s).

End simple.

#[export] Instance SimpleScanner : scanner.ScannerLib := {|
  scanner.source := simple.source;
  scanner.Init := simple.Init;
  scanner.Scan := simple.Scan;
  scanner.Pos := simple.Pos;
|}.

(** ** [math/rand] *)

Module rand.

(** What the code uses of [math/rand]: a generator state made from a seed
    ([rand.New(rand.NewSource(seed))]), [Int63], [Int63n] on a positive
    bound and [Float64]. *)
Class RandLib := {
  Source : Type;
  NewSource : Z -> Source;
  Int63 : Source -> Z * Source;
  Int63n : Z -> Source -> Z * Source;
  Float64 : Source -> float64 * Source;
}.


End rand.

(** A stand-in generator (a linear congruential one) to run the
    definitions with. *)
Module lcg.

Definition next (s : Z) : Z := (s * 6364136223846793005 + 1442695040888963407) mod 2 ^ 64.
Definition Int63 (s : Z) : Z * Z := (next s / 2, next s).
Definition Int63n (n : Z) (s : Z) : Z * Z := ((next s / 2) mod n, next s).
Definition Float64 (s : Z) : float64 * Z :=
  (SFdiv 53 1024 (f64_of_int (next s / 2048)) (f64_of_int (2 ^ 53)), next s).

End lcg.

#[export] Instance LcgRand : rand.RandLib := {|
  rand.Source := Z;
  rand.NewSource := fun seed => seed mod 2 ^ 64;
  rand.Int63 := lcg.Int63;
  rand.Int63n := lcg.Int63n;
  rand.Float64 := lcg.Float64;
|}.

(** ** Expressions and values *)

(** [Expression]: a kind and the payload that goes with it, as the parser
    builds them. [nullExpr] is the zero value [Expression{}]. *)
#[local] Unset Elimination Schemes.
Inductive Expression : Type :=
| nullExpr
| intExpr (Payload : Z)
| callExpr (name : string) (args : list Expression)
| varExpr (Payload : string).
#[local] Set Elimination Schemes.

(** Induction on expressions, with the arguments of a call. *)
Fixpoint Expression_ind (P : Expression -> Prop)
  (Hnull : P nullExpr)
  (Hint : forall v, P (intExpr v))
  (Hcall : forall name args, Forall P args -> P (callExpr name args))
  (Hvar : forall v, P (varExpr v))
  (e : Expression) : P e :=
  match e with
  | nullExpr => Hnull
  | intExpr v => Hint v
  | callExpr name args =>
      Hcall name args
        ((fix all (l : list Expression) : Forall P l :=
            match l with
            | [] => List.Forall_nil P
            | a :: t =>
                @List.Forall_cons _ P a t (Expression_ind P Hnull Hint Hcall Hvar a) (all t)
            end) args)
  | varExpr v => Hvar v
  end.

(** The values held in an [interface{}] by the evaluator. *)
Inductive Value : Type :=
| VInt (i : Z)
| VFloat (f : float64).

(** [strings.Join]. *)
Fixpoint Join (elems : list string) (sep : string) : string :=
  match elems with
  | [] => EmptyString
  | [x] => x
  | x :: r => x +:+ sep +:+ Join r sep
  end.

(** [Expression.String] and [CallExpr.String]. *)
Fixpoint Expression_String (e : Expression) : string :=
  match e with
  | intExpr v => formatInt v
  | callExpr name args =>
      name +:+ "(" +:+ Join (map Expression_String args) ", " +:+ ")"
  | varExpr v => ":" +:+ v
  | nullExpr => "err(<nil>)"
  end.

Definition CallExpr_String (name : string) (args : list Expression) : string :=
  Expression_String (callExpr name args).

Record Number := mkNumber {
  isFloat : bool;
  val : float64;
  iVal : Z;
}.

(** The type switch of [argAsNumber]: an [int64] sets both fields, a
    [float64] sets [val] only. *)
Definition asNumber (value : Value) : Number :=
  match value with
  | VInt i64 => mkNumber false (f64_of_int i64) i64
  | VFloat f => mkNumber true f 0
  end.

(** ** The machine: a heap of maps and the two generators *)

(** The result of a call: a value, an [error], or a panic. *)
Inductive result (A : Type) : Type :=
| Ok (a : A)
| Err (e : string)
| Panic (msg : string).
Arguments Ok {A} a.
Arguments Err {A} e.
Arguments Panic {A} msg.

Section Machine.
Context `{RL : rand.RandLib}.

(** [heap]: the maps made so far, by address. [clientRand]: the state of
    the [*rand.Rand] of the client workload, which [CommandContext.Rand]
    points to. [globalRand]: the state of the process-wide generator behind
    the package-level functions of [math/rand]. *)
Record Machine := mkMachine {
  heap : list (gmap string Value);
  clientRand : rand.Source;
  globalRand : rand.Source;
}.

Definition deref (m : Machine) (a : nat) : gmap string Value :=
  default ∅ (heap m !! a).

(** [make(map[string]interface{})] filled with [content]. *)
Definition alloc (content : gmap string Value) (m : Machine) : nat * Machine :=
  (List.length (heap m), mkMachine (heap m ++ [content]) (clientRand m) (globalRand m)).

(** [a[k] = v] on the map at address [a]. *)
Definition store (a : nat) (k : string) (v : Value) (m : Machine) : Machine :=
  mkMachine (<[a := <[k := v]> (deref m a)]> (heap m)) (clientRand m) (globalRand m).

Record CommandContext := mkCommandContext {
  Vars : nat;
}.

Definition M (A : Type) : Type := Machine -> result A * Machine.

Definition ret {A} (a : A) : M A := fun m => (Ok a, m).
Definition fail_with {A} (e : string) : M A := fun m => (Err e, m).
Definition panic {A} (msg : string) : M A := fun m => (Panic msg, m).

Definition bind {A B} (c : M A) (k : A -> M B) : M B :=
  fun m =>
    match c m with
    | (Ok a, m') => k a m'
    | (Err e, m') => (Err e, m')
    | (Panic p, m') => (Panic p, m')
    end.

(** [if err != nil { return nil, fmt.Errorf(... err) }]. *)
Definition wrapErr {A} (f : string -> string) (c : M A) : M A :=
  fun m =>
    match c m with
    | (Err e, m') => (Err (f e), m')
    | r => r
    end.

(** [ctx.Rand.Int63n(n)]: panics unless [0 < n]. *)
Definition Rand_Int63n (n : Z) : M Z :=
  fun m =>
    if n <=? 0 then (Panic "invalid argument to Int63n", m)
    else let '(v, s) := rand.Int63n n (clientRand m) in
         (Ok v, mkMachine (heap m) s (globalRand m)).

(** The package-level [rand.Float64()]. *)
Definition global_Float64 : M float64 :=
  fun m =>
    let '(u, g) := rand.Float64 (globalRand m) in
    (Ok u, mkMachine (heap m) (clientRand m) g).

(** *** Evaluation *)

Section EvalArg.
Variable eval : Expression -> CommandContext -> M Value.

(** [f.args[i].Eval], when there is an argument [i]. *)
Fixpoint evalArg (l : list Expression) (i : nat) : option (CommandContext -> M Value) :=
  match l, i with
  | [], _ => None
  | a :: _, O => Some (eval a)
  | _ :: t, S j => evalArg t j
  end.

End EvalArg.

Section CallExpr.
(** [argEval i]: [f.args[i].Eval], when there is such an argument. *)
Variable argEval : nat -> option (CommandContext -> M Value).
Variable name : string.
Variable args : list Expression.

Definition argAsNumber (i : nat) (ctx : CommandContext) : M Number :=
  if (List.length args <=? i)%nat then
    fail_with ("expected at least " +:+ formatNat (N.of_nat (i + 1)) +:+
               " arguments, got " +:+ formatNat (N.of_nat (List.length args)))
  else
    match argEval i with
    | None => panic "index out of range"
    | Some ev => bind (ev ctx) (fun value => ret (asNumber value))
    end.

Definition inCall (e : string) : string :=
  "in " +:+ CallExpr_String name args +:+ ": " +:+ e.

(** [CallExpr.Eval]. Float products and sums are rounded one by one (no
    fused multiply-add). *)
Definition CallExpr_Eval (ctx : CommandContext) : M Value :=
  if String.eqb name "random" then
    bind (wrapErr inCall (argAsNumber 0 ctx)) (fun a =>
    bind (wrapErr inCall (argAsNumber 1 ctx)) (fun b =>
      if f64_eqb (val a) (val b) then
        (if isFloat a then ret (VFloat (val a)) else ret (VInt (iVal a)))
      else if isFloat a || isFloat b then
        let min := val a in
        let max := val b in
        bind global_Float64 (fun u =>
          ret (VFloat (f64_add min (f64_mul u (f64_sub max min)))))
      else
        let min := iVal a in
        let max := iVal b in
        bind (Rand_Int63n (wrap64 (max - min))) (fun r =>
          ret (VInt (wrap64 (min + r))))))
  else if String.eqb name "*" then
    bind (wrapErr inCall (argAsNumber 0 ctx)) (fun a =>
    bind (wrapErr inCall (argAsNumber 1 ctx)) (fun b =>
      if isFloat a || isFloat b then ret (VFloat (f64_mul (val a) (val b)))
      else ret (VInt (wrap64 (iVal a * iVal b)))))
  else
    fail_with ("unknown function: " +:+ CallExpr_String name args).

End CallExpr.

(** [Expression.Eval]. *)
Fixpoint Expression_Eval (e : Expression) (ctx : CommandContext) : M Value :=
  match e with
  | intExpr v => ret (VInt v)
  | varExpr v =>
      fun m =>
        match deref m (Vars ctx) !! v with
        | Some value => (Ok value, m)
        | None => (Err ("this variable is not defined: " +:+ v), m)
        end
  | callExpr name args =>
      CallExpr_Eval (evalArg Expression_Eval args) name args ctx
  | nullExpr => fail_with ("unknown expression: " +:+ Expression_String e)
  end.

(** *** Commands and units of work *)

Record Statement := mkStatement {
  Query : string;
  Params : nat;
}.

Record UnitOfWork := mkUnitOfWork {
  Readonly : bool;
  Statements : list Statement;
}.

(** The implementations of the interface [Command]; [nilCommand] is the
    [nil] that [metaCommand] returns after a failure. *)
Inductive Command : Type :=
| QueryCommand (query : string)
| SetCommand (VarName : string) (expression : Expression)
| nilCommand.

(** The loop [for k, v := range ctx.Vars { params[k] = v }]. *)
Definition copyVars (vars : gmap string Value) : gmap string Value :=
  map_fold (fun k v params => <[k := v]> params) ∅ vars.

(** [Execute]: the unit of work is passed in and out. *)
Definition Execute (cmd : Command) (ctx : CommandContext) (uow : UnitOfWork)
  : Machine -> result unit * UnitOfWork * Machine :=
  fun m =>
    match cmd with
    | QueryCommand query =>
        let '(params, m') := alloc (copyVars (deref m (Vars ctx))) m in
        (Ok tt,
         mkUnitOfWork (Readonly uow) (Statements uow ++ [mkStatement query params]),
         m')
    | SetCommand VarName expression =>
        match Expression_Eval expression ctx m with
        | (Ok value, m') => (Ok tt, uow, store (Vars ctx) VarName value m')
        | (Err e, m') => (Err e, uow, m')
        | (Panic p, m') => (Panic p, uow, m')
        end
    | nilCommand => (Panic "nil pointer dereference", uow, m)
    end.

(** The loop [for _, cmd := range s.Commands] of [ClientWorkload.Next]. *)
Fixpoint runCommands (cmds : list Command) (ctx : CommandContext) (uow : UnitOfWork)
  : Machine -> result unit * UnitOfWork * Machine :=
  fun m =>
    match cmds with
    | [] => (Ok tt, uow, m)
    | cmd :: rest =>
        match Execute cmd ctx uow m with
        | (Ok _, uow', m') => runCommands rest ctx uow' m'
        | r => r
        end
    end.

(** [Workload] and [ClientWorkload]; their [Rand] fields are pointers, the
    generator states they point to are passed next to the records. *)
Record Workload := mkWorkload {
  wReadonly : bool;
  wScale : Z;
  wCommands : list Command;
}.

Record ClientWorkload := mkClientWorkload {
  cReadonly : bool;
  cScale : Z;
  cCommands : list Command;
}.

(** [Workload.NewClient], on the state of [s.Rand]: the client, the state
    of the client's generator, the state of [s.Rand] afterwards. *)
Definition NewClient (s : Workload) (r : rand.Source)
  : ClientWorkload * rand.Source * rand.Source :=
  let '(seed, r') := rand.Int63 r in
  (mkClientWorkload (wReadonly s) (wScale s) (wCommands s), rand.NewSource seed, r').

(** The context that [Next] starts from: [Vars] holds [scale]. *)
Definition newContext (s : ClientWorkload) (m : Machine) : CommandContext * Machine :=
  let '(vars, m') := alloc {[ "scale" := VInt (cScale s) ]} m in
  (mkCommandContext vars, m').

(** [ClientWorkload.Next]. *)
Definition ClientWorkload_Next (s : ClientWorkload) : Machine -> result unit * UnitOfWork * Machine :=
  fun m =>
    let '(ctx, m1) := newContext s m in
    runCommands (cCommands s) ctx (mkUnitOfWork (cReadonly s) []) m1.

End Machine.

(** A machine to run the definitions on: one empty map at address [0],
    the stand-in generators. *)
Definition machine0 : @Machine LcgRand := @mkMachine LcgRand [∅] 1337 1.
Definition context0 : CommandContext := mkCommandContext 0.



(** ** The parser *)

Definition rune (ch : ascii) : Z := codeOf ch.

Section Parser.
Context `{SL : scanner.ScannerLib}.

(** [context]: the scanner, the token looked ahead ([0] when there is
    none) and its text, and the two failure fields. *)
Record context := mkContext {
  s : scanner.Scanner;
  peek : Z;
  peekText : string;
  done : bool;
  err : option string;
}.

Definition withSource (sc : scanner.Scanner) (src' : scanner.source) : scanner.Scanner :=
  scanner.mkScanner _ src' (scanner.Filename sc) (scanner.Whitespace sc).

Definition withWhitespace (sc : scanner.Scanner) (ws : Z) : scanner.Scanner :=
  scanner.mkScanner _ (scanner.src sc) (scanner.Filename sc) ws.

(** [t.s.Scan()] followed by [t.s.TokenText()]. *)
Definition scan (t : context) : Z * string * scanner.Scanner :=
  let '(tok, txt, src') := scanner.Scan (scanner.Whitespace (s t)) (scanner.src (s t)) in
  (tok, txt, withSource (s t) src').

Definition context_Peek (t : context) : Z * context :=
  if peek t =? 0 then
    let '(tok, txt, sc) := scan t in
    (tok, mkContext sc tok txt (done t) (err t))
  else (peek t, t).

Definition context_Next (t : context) : Z * string * context :=
  if negb (peek t =? 0) then
    let next := peek t in
    let nextStr := peekText t in
    (next, nextStr,
     mkContext (s t) 0 (peekText t) (if next =? scanner.EOF then true else done t) (err t))
  else
    let '(next, txt, sc) := scan t in
    (next, txt,
     mkContext sc (peek t) (peekText t) (if next =? scanner.EOF then true else done t) (err t)).

Definition context_fail (e : string) (t : context) : context :=
  match err t with
  | Some _ => mkContext (s t) (peek t) (peekText t) true (err t)
  | None =>
      mkContext (s t) (peek t) (peekText t) true
        (Some (e +:+ " (at " +:+ scanner.PosString (s t) +:+ ")"))
  end.

Definition expect (c : context) (expected : Z) : context :=
  let '(tok, _, c) := context_Next c in
  if negb (tok =? expected) then
    context_fail ("expected '" +:+ scanner.TokenString expected +:+ "', got '" +:+
                  scanner.TokenString tok +:+ "'") c
  else c.

Definition ident (c : context) : string * context :=
  let '(tok, content, c) := context_Next c in
  if negb (tok =? scanner.Ident) then
    (content,
     context_fail ("expected identifier, got '" +:+ scanner.TokenString tok +:+ "'") c)
  else (content, c).

Section Bodies.
(** [expr] one level down, or [None] when the fuel is used up. *)
Variable expr_rec : context -> option (Expression * context).

(** The loop [for tok != ')'] of [factor]: the arguments when the loop
    ends, or [None] when it returns [Expression{}] from inside. *)
Fixpoint factorArgs (fuel : nat) (args : list Expression) (tok : Z) (c : context)
  : option (option (list Expression) * context) :=
  if tok =? rune ")" then Some (Some args, c)
  else
    match fuel with
    | O => None
    | S fuel =>
        let c := if (0 <? List.length args)%nat then expect c (rune ",") else c in
        '(e, c) ← expr_rec c;
        let args := args ++ [e] in
        if done c then Some (None, c)
        else
          let '(tok, c) := context_Peek c in
          factorArgs fuel args tok c
    end.

Definition factor (fuel : nat) (c : context) : option (Expression * context) :=
  let '(tok, content, c) := context_Next c in
  if tok =? scanner.Ident then
    let funcName := content in
    let c := expect c (rune "(") in
    let '(tok, c) := context_Peek c in
    '(args, c) ← factorArgs fuel [] tok c;
    match args with
    | None => Some (nullExpr, c)
    | Some args =>
        let '(_, _, c) := context_Next c in
        Some (callExpr funcName args, c)
    end
  else if tok =? scanner.Int then
    match Atoi content with
    | inr e => Some (nullExpr, context_fail e c)
    | inl intVal => Some (intExpr intVal, c)
    end
  else if tok =? rune "-" then
    let '(tok, content, c) := context_Next c in
    if tok =? scanner.Int then
      match Atoi content with
      | inr e => Some (nullExpr, context_fail e c)
      | inl intVal => Some (intExpr (wrap64 (-1 * intVal)), c)
      end
    else
      Some (nullExpr,
            context_fail ("unexpected token, expected integer after minus sign: " +:+
                          scanner.TokenString tok) c)
  else if tok =? rune ":" then
    let '(varName, c) := ident c in
    Some (varExpr varName, c)
  else
    Some (nullExpr,
          context_fail ("unexpected token, expected Expression: " +:+
                        scanner.TokenString tok) c).

Definition term (fuel : nat) (c : context) : option (Expression * context) :=
  '(lhs, c) ← factor fuel c;
  Some (lhs, c).

Definition exprBody (fuel : nat) (c : context) : option (Expression * context) :=
  '(lhs, c) ← term fuel c;
  let '(tok, c) := context_Peek c in
  if tok =? rune "*" then
    let '(_, _, c) := context_Next c in
    '(rhs, c) ← term fuel c;
    Some (callExpr "*" [lhs; rhs], c)
  else Some (lhs, c).

End Bodies.

(** [expr]; the fuel bounds the nesting of calls and the number of
    arguments of a call. *)
Fixpoint expr (fuel : nat) (c : context) : option (Expression * context) :=
  match fuel with
  | O => None
  | S fuel => exprBody (expr fuel) fuel c
  end.

Definition metaCommand (fuel : nat) (c : context) : option (Command * context) :=
  let c := expect c (rune "\") in
  let '(cmd, c) := ident c in
  if String.eqb cmd "set" then
    let '(varName, c) := ident c in
    '(setExpr, c) ← expr fuel c;
    Some (SetCommand varName setExpr, c)
  else
    Some (nilCommand, context_fail ("unexpected meta command: '" +:+ cmd +:+ "'") c).

(** The loop of [command]: [b] is the text written to the builder. *)
Fixpoint commandLoop (fuel : nat) (b : string) (c : context) : option (string * context) :=
  match fuel with
  | O => None
  | S fuel =>
      let '(tok, content, c) := context_Next c in
      if tok =? rune ";" then Some (b, c)
      else commandLoop fuel (b +:+ content) c
  end.

(** [c.s.Whitespace = ws]. *)
Definition setWhitespace (ws : Z) (c : context) : context :=
  mkContext (withWhitespace (s c) ws) (peek c) (peekText c) (done c) (err c).

Definition command (fuel : nat) (c : context) : option (Command * context) :=
  let originalWhitespace := scanner.Whitespace (s c) in
  let c := setWhitespace 0 c in
  '(b, c) ← commandLoop fuel EmptyString c;
  Some (QueryCommand b, setWhitespace originalWhitespace c).

(** The loop [for !c.done] of [Parse]. *)
Fixpoint parseLoop (fuel : nat) (c : context) (commands : list Command)
  : option (list Command * context) :=
  match fuel with
  | O => None
  | S fuel =>
      if done c then Some (commands, c)
      else
        let '(tok, c) := context_Peek c in
        if tok =? scanner.EOF then Some (commands, c)
        else if tok =? rune "\" then
          '(cmd, c) ← metaCommand fuel c;
          parseLoop fuel c (commands ++ [cmd])
        else if tok =? rune newline then
          let '(_, _, c) := context_Next c in
          parseLoop fuel c commands
        else
          '(cmd, c) ← command fuel c;
          parseLoop fuel c (commands ++ [cmd])
  end.

Definition initialContext (filename script : string) : context :=
  mkContext
    (scanner.mkScanner _ (scanner.Init script) filename
       (Z.lxor scanner.GoWhitespace (Z.shiftl 1 (rune newline))))
    0 EmptyString false None.

(** [Parse]: the workload and the seed its generator is made from, or the
    error; [None] when the fuel runs out. *)
Definition Parse (fuel : nat) (filename script : string) (scale seed : Z)
  : option (Workload * Z + string) :=
  '(commands, c) ← parseLoop fuel (initialContext filename script) [];
  match err c with
  | Some e => Some (inr e)
  | None => Some (inl (mkWorkload false scale commands, seed))
  end.

(** *** Where the queries end *)

(** The call number [k] of [Next] from [c], counting from 0, is the first
    that returns [;]. *)
Fixpoint semicolonAt (k : nat) (c : context) : bool :=
  let '(tok, _, c') := context_Next c in
  match k with
  | O => tok =? rune ";"
  | S k => negb (tok =? rune ";") && semicolonAt k c'
  end.

(** [QueriesClosed c]: following the loop of [Parse] from [c], every query
    the loop comes to is followed by a [;]. The loop stops at a failure
    and at the end of the text; it goes through a meta-command and through
    a newline; at any other token it reads a query, in raw mode. *)
Inductive QueriesClosed : context -> Prop :=
| QC_done c :
    done c = true -> QueriesClosed c
| QC_eof c c1 :
    done c = false -> context_Peek c = (scanner.EOF, c1) -> QueriesClosed c
| QC_meta c c1 :
    done c = false -> context_Peek c = (rune "\", c1) ->
    (forall fuel cmd c2, metaCommand fuel c1 = Some (cmd, c2) -> QueriesClosed c2) ->
    QueriesClosed c
| QC_newline c c1 tok txt c2 :
    done c = false -> context_Peek c = (rune newline, c1) ->
    context_Next c1 = (tok, txt, c2) -> QueriesClosed c2 ->
    QueriesClosed c
| QC_query c tok c1 k :
    done c = false -> context_Peek c = (tok, c1) ->
    tok <> scanner.EOF -> tok <> rune "\" -> tok <> rune newline ->
    semicolonAt k (setWhitespace 0 c1) = true ->
    (forall fuel cmd c2, command fuel c1 = Some (cmd, c2) -> QueriesClosed c2) ->
    QueriesClosed c.

(** What is left to read from [c]: the text the scanner has not used, by
    a measure [remaining] of it, and the token looked ahead. *)
Definition pendingSize (remaining : scanner.source -> nat) (c : context) : nat :=
  (remaining (scanner.src (s c)) +
   (if ((peek c =? 0) || (peek c =? scanner.EOF))%Z then 0 else 1))%nat.

(** [g] returns what [f] returns, and maybe more often. *)
Definition extends {A} (f g : context -> option A) : Prop :=
  forall c r, f c = Some r -> g c = Some r.

(** From [c] to [c']: nothing is given back to the text and a failure
    stays; [strictly]: some of the text is used unless the parser is
    done. *)
Definition advanced (remaining : scanner.source -> nat) (c c' : context) : Prop :=
  (pendingSize remaining c' <= pendingSize remaining c)%nat /\
  (done c = true -> done c' = true).

Definition strictly (remaining : scanner.source -> nat) (c c' : context) : Prop :=
  advanced remaining c c' /\
  (done c' = false -> (pendingSize remaining c' < pendingSize remaining c)%nat).

End Parser.

(** ** The expressions the parser accepts *)

(** The grammar that [expr], [term] and [factor] implement:
    [expr := factor ['*' factor]] and
    [factor := INT | '-' INT | ':' IDENT | IDENT '(' [expr (',' expr)*] ')'],
    on the trees the parser builds. An integer literal fits an [int]; the
    name of a call is the text of an identifier, so it is not [*]. *)
Inductive isFactor : Expression -> Prop :=
| F_int v : - maxInt64 <= v <= maxInt64 -> isFactor (intExpr v)
| F_var name : isFactor (varExpr name)
| F_call name args : name <> "*" -> Forall isExpr args -> isFactor (callExpr name args)
with isExpr : Expression -> Prop :=
| E_factor e : isFactor e -> isExpr e
| E_product a b : isFactor a -> isFactor b -> isExpr (callExpr "*" [a; b]).

Section ArgTokens.
Variable tokensOf : Expression -> list (Z * string).

(** The arguments of a call, with a comma before each but the first. *)
Fixpoint argTokens (first : bool) (args : list Expression) : list (Z * string) :=
  match args with
  | [] => []
  | a :: rest =>
      (if first then [] else [(rune ",", ",")]) ++ tokensOf a ++ argTokens false rest
  end.

End ArgTokens.

(** The tokens, with their texts, that an expression is written with. *)
Fixpoint tokens (e : Expression) : list (Z * string) :=
  match e with
  | nullExpr => []
  | intExpr v =>
      if v <? 0 then [(rune "-", "-"); (scanner.Int, formatNat (Z.to_N (- v)))]
      else [(scanner.Int, formatNat (Z.to_N v))]
  | varExpr name => [(rune ":", ":"); (scanner.Ident, name)]
  | callExpr name args =>
      if String.eqb name "*" then
        match args with
        | [a; b] => tokens a ++ [(rune "*", "*")] ++ tokens b
        | _ => []
        end
      else
        (scanner.Ident, name) :: (rune "(", "(") :: argTokens tokens true args
          ++ [(rune ")", ")")]
  end.

(** The tokens a factor can start with. *)
Definition startsFactor (tok : Z) : Prop :=
  tok = scanner.Int \/ tok = rune "-" \/ tok = rune ":" \/ tok = scanner.Ident.

(** Fuel that is enough for [expr] on an expression: the depth of the
    calls and the number of arguments. *)
Fixpoint need (e : Expression) : nat :=
  match e with
  | callExpr _ args => S (Nat.max (List.length args) (list_max (map need args)))
  | _ => 1
  end.

Section Reading.
Context `{SL : scanner.ScannerLib}.

(** [reads ws src toks src']: scanning from [src] gives the tokens [toks]
    one after the other and leaves [src']. *)
Inductive reads (ws : Z) : scanner.source -> list (Z * string) -> scanner.source -> Prop :=
| reads_nil src0 : reads ws src0 [] src0
| reads_cons src0 tok txt src1 toks src2 :
    scanner.Scan ws src0 = (tok, txt, src1) ->
    reads ws src1 toks src2 ->
    reads ws src0 ((tok, txt) :: toks) src2.

(** The tokens ahead of the parser in [c] are [toks], up to [src']: the
    token looked ahead, if any, comes first. *)
Definition pending (c : context) (toks : list (Z * string)) (src' : scanner.source) : Prop :=
  if peek c =? 0 then reads (scanner.Whitespace (s c)) (scanner.src (s c)) toks src'
  else
    match toks with
    | [] => False
    | (tok, txt) :: rest =>
        tok = peek c /\ txt = peekText c /\
        reads (scanner.Whitespace (s c)) (scanner.src (s c)) rest src'
    end.

(** [c'] is [c] further on in the text: same file name, same white space,
    no new failure. *)
Definition sameParser (c c' : context) : Prop :=
  scanner.Filename (s c') = scanner.Filename (s c) /\
  scanner.Whitespace (s c') = scanner.Whitespace (s c) /\
  done c' = done c /\ err c' = err c.

(** [expr] with fuel [n] accepts [e]: from any context with the tokens
    of [e] ahead, then a token [f] that is not [*], it returns [e], has
    recorded no failure, and is left before [f]. *)
Definition exprAccepts (n : nat) (e : Expression) : Prop :=
  forall c f fx rest src',
    done c = false -> f <> rune "*" -> f <> 0 ->
    pending c (tokens e ++ (f, fx) :: rest) src' ->
    exists c', expr n c = Some (e, c') /\
               pending c' ((f, fx) :: rest) src' /\ sameParser c c'.

(** The same for [factor], which needs no token after the factor. *)
Definition factorAccepts (n : nat) (e : Expression) : Prop :=
  forall c rest src',
    done c = false ->
    pending c (tokens e ++ rest) src' ->
    exists c', factor (expr n) n c = Some (e, c') /\ peek c' = 0 /\
               pending c' rest src' /\ sameParser c c'.

End Reading.


(** ** What is observed of a run *)

Section Observations.
Context `{RL : rand.RandLib}.

(** The statements of a unit of work with their params read from the
    heap. *)
Definition statementsOf (m : Machine) (uow : UnitOfWork)
  : list (string * gmap string Value) :=
  map (fun st => (Query st, deref m (Params st))) (Statements uow).

(** What the caller of [Next] sees: the error or panic, the unit of work
    with the contents of its params, and the state the client's generator
    is left in. *)
Definition observe (r : result unit * UnitOfWork * Machine)
  : result unit * bool * list (string * gmap string Value) * rand.Source :=
  let '(res, uow, m) := r in
  (res, Readonly uow, statementsOf m uow, clientRand m).

(** The map of the context and the params of the statements are maps of
    the heap, and no statement shares its map with the context. *)
Definition separated (ctx : CommandContext) (uow : UnitOfWork) (m : Machine) : Prop :=
  (Vars ctx < List.length (heap m))%nat /\
  Forall (fun st => (Params st < List.length (heap m))%nat /\ Params st <> Vars ctx)
    (Statements uow).

Definition isInt (v : Value) : Prop := exists i, v = VInt i.

Definition intsOnly (vars : gmap string Value) : Prop :=
  forall k v, vars !! k = Some v -> isInt v.

(** Two computations started on machines that agree on the variables
    [vars] and on the client's generator give the same result, leave the
    same client's generator, and touch neither the heaps nor the
    process-wide generators; [P] holds of the value. *)
Definition agree {A} (P : A -> Prop) (vars : gmap string Value)
    (ctx1 ctx2 : CommandContext) (c1 c2 : M A) : Prop :=
  forall m1 m2,
    deref m1 (Vars ctx1) = vars -> deref m2 (Vars ctx2) = vars ->
    clientRand m1 = clientRand m2 ->
    exists r st,
      c1 m1 = (r, mkMachine (heap m1) st (globalRand m1)) /\
      c2 m2 = (r, mkMachine (heap m2) st (globalRand m2)) /\
      forall a, r = Ok a -> P a.

(** Two runs of the same commands are [related] when they see the same
    integer variables, the same client's generator and the same unit of
    work so far, each in its own heap. *)
Definition related (ctx1 ctx2 : CommandContext) (uow1 uow2 : UnitOfWork)
    (m1 m2 : Machine) : Prop :=
  separated ctx1 uow1 m1 /\ separated ctx2 uow2 m2 /\
  deref m1 (Vars ctx1) = deref m2 (Vars ctx2) /\
  intsOnly (deref m1 (Vars ctx1)) /\
  clientRand m1 = clientRand m2 /\
  Readonly uow1 = Readonly uow2 /\
  statementsOf m1 uow1 = statementsOf m2 uow2.

(** A computation that leaves the heap as it is. *)
Definition keepsHeap {A} (c : M A) : Prop :=
  forall m r m', c m = (r, m') -> heap m' = heap m.

End Observations.

(** ** Further notions about expressions and commands *)

(** The texts of the query commands, in the order of the commands. *)
Definition queriesOf (cmds : list Command) : list string :=
  flat_map (fun cmd => match cmd with QueryCommand q => [q] | _ => [] end) cmds.

(** No call of [random] in the expression. *)
Fixpoint noRandom (e : Expression) : bool :=
  match e with
  | callExpr name args => negb (String.eqb name "random") && forallb noRandom args
  | _ => true
  end.

(** Every integer literal of the expression is an [int64]. *)
Fixpoint literalsInRange (e : Expression) : bool :=
  match e with
  | intExpr v => (minInt64 <=? v) && (v <=? maxInt64)
  | callExpr _ args => forallb literalsInRange args
  | _ => true
  end.

Definition commandInRange (cmd : Command) : bool :=
  match cmd with
  | SetCommand _ e => literalsInRange e
  | _ => true
  end.

(** The value is an integer that fits an [int64]. *)
Definition int64Value (v : Value) : Prop := exists i, v = VInt i /\ inInt64 i.

Definition int64Vars (vars : gmap string Value) : Prop :=
  forall k v, vars !! k = Some v -> int64Value v.

(** What [Parse] builds when it succeeds: no [Expression{}] inside an
    expression, every literal an [int64]; no [nil] command. *)
Fixpoint wellFormed (e : Expression) : bool :=
  match e with
  | nullExpr => false
  | intExpr v => (minInt64 <=? v) && (v <=? maxInt64)
  | callExpr _ args => forallb wellFormed args
  | varExpr _ => true
  end.

Definition parsedCommand (cmd : Command) : bool :=
  match cmd with
  | QueryCommand _ => true
  | SetCommand _ e => wellFormed e
  | nilCommand => false
  end.

Section Computations.
Context `{RL : rand.RandLib}.

(** A computation that panics, if it does, with the message [msg]. *)
Definition panicsOnly {A} (msg : string) (c : M A) : Prop :=
  forall m p m', c m = (Panic p, m') -> p = msg.

(** A computation that leaves the machine as it is, does not panic, and
    whose result depends on the maps of the heap only, not on the
    generators. *)
Definition readsOnly {A} (c : M A) : Prop :=
  forall m,
    snd (c m) = m /\ (forall p, fst (c m) <> Panic p) /\
    forall m2, heap m2 = heap m -> fst (c m2) = fst (c m).

End Computations.

Section ParserNotions.
Context `{SL : scanner.ScannerLib}.

(** From [c] to [c'] the parser has kept the file name and the white
    space mode of its scanner and the failure it had recorded, if any,
    and it is done when it was. *)
Definition kept (c c' : context) : Prop :=
  scanner.Filename (s c') = scanner.Filename (s c) /\
  scanner.Whitespace (s c') = scanner.Whitespace (s c) /\
  (forall e, err c = Some e -> err c' = Some e) /\
  (done c = true -> done c' = true).

(** A parser that is done has recorded a failure: it has not just come
    to the end of the text. *)
Definition failedWhenDone (c : context) : Prop := done c = true -> err c <> None.

(** The tokens of the line [\set name e], with its newline. *)
Definition setLine (line : string * Expression) : list (Z * string) :=
  [(rune "\", "\"); (scanner.Ident, "set"); (scanner.Ident, fst line)]
    ++ tokens (snd line) ++ [(rune newline, String newline EmptyString)].

End ParserNotions.

(** A rune of the plain part of a query: ASCII, not the [;] that ends
    the query, and none of the runes that open a string, a character
    literal, a raw string or a comment for [text/scanner]. *)
Definition plainRune (ch : ascii) : bool :=
  (codeOf ch <? 128) &&
  negb ((codeOf ch =? rune ";") || (codeOf ch =? rune dquote) || (codeOf ch =? rune "'") ||
        (codeOf ch =? rune "`") || (codeOf ch =? rune "/")).

Fixpoint plainText (txt : string) : bool :=
  match txt with
  | EmptyString => true
  | String ch r => plainRune ch && plainText r
  end.

(** A text of spaces, tabs, carriage returns and newlines. *)
Definition blankRune (ch : ascii) : bool :=
  (codeOf ch =? 32) || (codeOf ch =? 9) || (codeOf ch =? 13) || (codeOf ch =? 10).

Fixpoint blankText (txt : string) : bool :=
  match txt with
  | EmptyString => true
  | String ch r => blankRune ch && blankText r
  end.

(** ** The signal handler *)

Module signals.

Inductive Signal : Type := SIGINT | SIGTERM.

(** Where the handler goroutine is: not yet at its [select]; blocked in
    the [select] ([onStop] tells whether the variable [stopCh] held the
    channel when the [select] was entered, a [nil] channel never being
    ready); returned. *)
Inductive Handler : Type :=
| Spawned
| Selecting (onStop : bool)
| Returned.

(** [stopChVar]: the variable [stopCh] holds the channel ([true]) or [nil].
    [closed]: the channel made by [make(chan struct{})] is closed.
    [sigCh]: the buffer of the signal channel, of capacity 2.
    [signalCount]: the local counter of the goroutine.
    [exited]: the code passed to [os.Exit], once called. *)
Record State := mkState {
  stopChVar : bool;
  closed : bool;
  sigCh : list Signal;
  handler : Handler;
  signalCount : nat;
  exited : option Z;
}.

(** The state [SetupSignalHandler] returns in. *)
Definition SetupSignalHandler : State :=
  mkState true false [] Spawned 0 None.

Definition stopFunc (st : State) : State :=
  if stopChVar st then
    mkState false true (sigCh st) (handler st) (signalCount st) (exited st)
  else st.

(** What can happen next: the runtime delivers a signal registered with
    [signal.Notify] (dropped when the buffer is full); some goroutine
    calls the returned [stopFunc]; the handler goroutine reaches its
    [select]; the [select] runs its [<-sigCh] case; the [select] runs its
    [<-stopCh] case. *)
Inductive Event : Type :=
| Deliver (sig : Signal)
| CallStop
| EnterSelect
| ReceiveSignal
| ReceiveStop.

Definition step (st : State) (ev : Event) : State :=
  match exited st with
  | Some _ => st
  | None =>
      match ev with
      | Deliver sig =>
          if (List.length (sigCh st) <? 2)%nat then
            mkState (stopChVar st) (closed st) (sigCh st ++ [sig]) (handler st)
              (signalCount st) (exited st)
          else st
      | CallStop => stopFunc st
      | EnterSelect =>
          match handler st with
          | Spawned =>
              mkState (stopChVar st) (closed st) (sigCh st) (Selecting (stopChVar st))
                0 (exited st)
          | _ => st
          end
      | ReceiveSignal =>
          match handler st, sigCh st with
          | Selecting _, _ :: queue =>
              let count := S (signalCount st) in
              let st1 :=
                mkState (stopChVar st) (closed st) queue Returned count (exited st) in
              match count with
              | 1%nat => stopFunc st1
              | 2%nat =>
                  mkState (stopChVar st1) (closed st1) (sigCh st1) (handler st1)
                    (signalCount st1) (Some 1)
              | _ => st1
              end
          | _, _ => st
          end
      | ReceiveStop =>
          match handler st with
          | Selecting true =>
              if closed st then
                mkState (stopChVar st) (closed st) (sigCh st) Returned
                  (signalCount st) (exited st)
              else st
          | _ => st
          end
      end
  end.

Definition run (evs : list Event) (st : State) : State := fold_left step evs st.

(** While the handler has not returned its counter is zero, and nothing
    has called [os.Exit]. *)
Definition invariant (st : State) : Prop :=
  exited st = None /\ (handler st <> Returned -> signalCount st = 0%nat).

(** Once the variable [stopCh] is [nil], and once the handler has
    returned, the channel is closed. *)
Definition shutdownSeen (st : State) : Prop :=
  (stopChVar st = false -> closed st = true) /\
  (handler st = Returned -> closed st = true).

(** The events that are not the delivery of a signal, and those of them
    that can come before the handler reaches its [select]. *)
Definition noSignal (ev : Event) : bool :=
  match ev with
  | Deliver _ => false
  | _ => true
  end.

Definition beforeSelect (ev : Event) : bool :=
  match ev with
  | Deliver _ | EnterSelect => false
  | _ => true
  end.

End signals.

(** ** The workload flags of [main] *)

(** [strings.Split(s, sep)] for a separator of one byte. *)
Fixpoint Split (s : string) (sep : ascii) : list string :=
  match s with
  | EmptyString => [EmptyString]
  | String ch r =>
      if Ascii.eqb ch sep then EmptyString :: Split r sep
      else
        match Split r sep with
        | x :: t => String ch x :: t
        | [] => [String ch EmptyString]
        end
  end.

(** [uint(weight)] of an [int], on a 64-bit platform. *)
Definition uint (z : Z) : Z := z mod 2 ^ 64.

(** The body of the loop of [main] over the values of the flag
    [--workload], up to the call of [createScript]: the path and the
    weight passed to it, or the message of [log.Fatalf]. *)
Definition workloadFlag (path : string) : (string * Z) + string :=
  let parts := Split path "@" in
  if (1 <? List.length parts)%nat then
    match Atoi (nth 1 parts EmptyString) with
    | inr _ =>
        inr ("Failed to parse weight; value after @ symbol for workload weight must be an integer: "
             +:+ path)
    | inl weight => inl (nth 0 parts EmptyString, uint weight)
    end
  else inl (path, uint 1).

(** The call that [initWorkload] makes. *)
Inductive InitCall : Type :=
| InitTPCBLike (scale : Z) (dbName : string).

(** [initWorkload]: the call it returns the result of, or [None] when
    it returns [nil] without a call. *)
Fixpoint initWorkload (paths : list string) (dbName : string) (scale : Z) : option InitCall :=
  match paths with
  | [] => None
  | path :: rest =>
      if String.eqb path "builtin:tpcb-like" then Some (InitTPCBLike scale dbName)
      else if String.eqb path "builtin:match-only" then Some (InitTPCBLike scale dbName)
      else initWorkload rest dbName scale
  end.

(** No [@] in the text. *)
Fixpoint noAt (txt : string) : bool :=
  match txt with
  | EmptyString => true
  | String ch r => negb (Ascii.eqb ch "@") && noAt r
  end.

(** * Properties *)

(** ** Integers and floats *)

Lemma wrap64_id z : inInt64 z -> wrap64 z = z.
Proof.
  unfold inInt64, minInt64, maxInt64, wrap64. intros Hz.
  rewrite Z.mod_small by lia. lia.
Qed.

Lemma wrap64_range z : inInt64 (wrap64 z).
Proof.
  unfold inInt64, minInt64, maxInt64, wrap64.
  pose proof (Z.mod_pos_bound (z + 2 ^ 63) (2 ^ 64) ltac:(lia)). lia.
Qed.

Lemma shr_1_nonneg mrs : 0 <= shr_m mrs -> 0 <= shr_m (shr_1 mrs).
Proof.
  destruct mrs as [m r st]. simpl.
  destruct m as [| p | p]; try destruct p; simpl; lia.
Qed.

Lemma iter_pos_shr_1_nonneg p mrs :
  0 <= shr_m mrs -> 0 <= shr_m (SpecFloat.iter_pos shr_1 p mrs).
Proof.
  revert mrs. induction p as [p IH | p IH |]; intros mrs H; simpl.
  - apply IH, IH, shr_1_nonneg, H.
  - apply IH, IH, H.
  - apply shr_1_nonneg, H.
Qed.

Lemma shr_fexp_nonneg prec emax m e l :
  0 <= m -> 0 <= shr_m (fst (shr_fexp prec emax m e l)).
Proof.
  intros Hm. unfold shr_fexp, shr.
  assert (Hrec : shr_m (shr_record_of_loc m l) = m)
    by (destruct l as [| []]; reflexivity).
  destruct (fexp prec emax (Zdigits2 m + e) - e) as [| p | p]; simpl; try lia.
  apply iter_pos_shr_1_nonneg. lia.
Qed.

Lemma round_nearest_even_nonneg m l : 0 <= m -> 0 <= round_nearest_even m l.
Proof.
  intros Hm. destruct l as [| []]; simpl; try lia.
  destruct (Z.even m); lia.
Qed.

Lemma binary_round_aux_not_nan prec emax sx mx ex lx :
  0 <= mx -> binary_round_aux prec emax sx mx ex lx <> S754_nan.
Proof.
  intros Hm. unfold binary_round_aux.
  pose proof (shr_fexp_nonneg prec emax mx ex lx Hm) as H1.
  destruct (shr_fexp prec emax mx ex lx) as [mrs' e']. simpl in H1.
  pose proof (shr_fexp_nonneg prec emax
                (round_nearest_even (shr_m mrs') (loc_of_shr_record mrs')) e' loc_Exact
                (round_nearest_even_nonneg _ _ H1)) as H2.
  destruct (shr_fexp prec emax _ e' loc_Exact) as [mrs'' e'']. simpl in H2.
  destruct (shr_m mrs'') as [| p | p]; try discriminate; try lia.
  destruct (e'' <=? emax - prec); discriminate.
Qed.

(** The conversion of an integer is a number. *)
Lemma f64_of_int_not_nan z : f64_of_int z <> S754_nan.
Proof.
  unfold f64_of_int, binary_normalize, binary_round.
  destruct z as [| p | p]; try discriminate.
  - destruct (shl_align p 0 _) as [mz ez]. apply binary_round_aux_not_nan. lia.
  - destruct (shl_align p 0 _) as [mz ez]. apply binary_round_aux_not_nan. lia.
Qed.

Lemma f64_eqb_refl x : x <> S754_nan -> f64_eqb x x = true.
Proof.
  intros Hx. unfold f64_eqb, SFeqb, SFcompare.
  destruct x as [sx | sx | | sx m e]; try congruence.
  - destruct sx; reflexivity.
  - destruct sx; rewrite Z.compare_refl, Pos.compare_cont_refl; reflexivity.
Qed.

Lemma f64_eqb_of_int z : f64_eqb (f64_of_int z) (f64_of_int z) = true.
Proof. apply f64_eqb_refl, f64_of_int_not_nan. Qed.

(** ** The evaluator *)


Section Evaluator.
Context `{RL : rand.RandLib}.

Lemma evalArg_lookup (ev : Expression -> CommandContext -> M Value) args i :
  evalArg ev args i = ev <$> args !! i.
Proof.
  revert i. induction args as [| a args IH]; intros [| i]; simpl; auto.
Qed.

Lemma argAsNumber_Ok args i a ctx (m m' : Machine) v :
  args !! i = Some a ->
  Expression_Eval a ctx m = (Ok v, m') ->
  argAsNumber (evalArg Expression_Eval args) args i ctx m = (Ok (asNumber v), m').
Proof.
  intros Hi Hev. unfold argAsNumber.
  apply lookup_lt_Some in Hi as Hlen.
  destruct (Nat.leb_spec (List.length args) i) as [Hle | _]; [lia |].
  rewrite evalArg_lookup, Hi. simpl. unfold bind. rewrite Hev. reflexivity.
Qed.


(** What [random] computes once its two arguments are numbers. *)
Lemma Eval_random a0 a1 ctx (m m1 m2 : Machine) v0 v1 :
  Expression_Eval a0 ctx m = (Ok v0, m1) ->
  Expression_Eval a1 ctx m1 = (Ok v1, m2) ->
  Expression_Eval (callExpr "random" [a0; a1]) ctx m =
    let a := asNumber v0 in
    let b := asNumber v1 in
    if f64_eqb (val a) (val b) then
      (if isFloat a then (Ok (VFloat (val a)), m2) else (Ok (VInt (iVal a)), m2))
    else if isFloat a || isFloat b then
      bind global_Float64 (fun u =>
        ret (VFloat (f64_add (val a) (f64_mul u (f64_sub (val b) (val a)))))) m2
    else
      bind (Rand_Int63n (wrap64 (iVal b - iVal a))) (fun r =>
        ret (VInt (wrap64 (iVal a + r)))) m2.
Proof.
  intros H0 H1.
  change (Expression_Eval (callExpr "random" [a0; a1]) ctx)
    with (CallExpr_Eval (evalArg Expression_Eval [a0; a1]) "random" [a0; a1] ctx).
  unfold CallExpr_Eval. rewrite String.eqb_refl.
  unfold bind at 1. unfold wrapErr at 1.
  rewrite (argAsNumber_Ok [a0; a1] 0 a0 ctx m m1 v0 eq_refl H0).
  unfold bind at 1. unfold wrapErr at 1.
  rewrite (argAsNumber_Ok [a0; a1] 1 a1 ctx m1 m2 v1 eq_refl H1).
  cbv zeta.
  destruct (f64_eqb _ _); [destruct (isFloat _); reflexivity |].
  destruct (isFloat _ || isFloat _); reflexivity.
Qed.


(** [random] on two integers whose difference fits an [int64]. *)
Lemma Eval_random_ints a0 a1 ctx (m m1 m2 : Machine) lo hi :
  Expression_Eval a0 ctx m = (Ok (VInt lo), m1) ->
  Expression_Eval a1 ctx m1 = (Ok (VInt hi), m2) ->
  Expression_Eval (callExpr "random" [a0; a1]) ctx m =
    if f64_eqb (f64_of_int lo) (f64_of_int hi) then (Ok (VInt lo), m2)
    else
      bind (Rand_Int63n (wrap64 (hi - lo))) (fun r => ret (VInt (wrap64 (lo + r)))) m2.
Proof.
  intros H0 H1. rewrite (Eval_random _ _ _ _ _ _ _ _ H0 H1). reflexivity.
Qed.

End Evaluator.

(** *** C2: the built-in functions *)




(** *** C7: the range of [random] *)

(** *** Rounding in [float64]

    The rounding of [SpecFloat], to nearest with ties to even, is monotone
    at the [float64] values, and a number below the middle of two
    neighbours is rounded to the lower one. *)

Lemma fexp64_eq e : fexp64 e = Z.max (e - 53) (-1074).
Proof. reflexivity. Qed.

Lemma digits2_pos_spec m :
  2 ^ (Zpos (digits2_pos m) - 1) <= Zpos m < 2 ^ Zpos (digits2_pos m).
Proof.
  induction m as [p IH | p IH |]; cbn [digits2_pos].
  - rewrite Pos2Z.inj_succ.
    replace (Z.succ (Zpos (digits2_pos p)) - 1) with (Z.succ (Zpos (digits2_pos p) - 1)) by lia.
    rewrite 2!Z.pow_succ_r by lia. lia.
  - rewrite Pos2Z.inj_succ.
    replace (Z.succ (Zpos (digits2_pos p)) - 1) with (Z.succ (Zpos (digits2_pos p) - 1)) by lia.
    rewrite 2!Z.pow_succ_r by lia. lia.
  - simpl. lia.
Qed.

Lemma pow2_lt_mono a b : 0 <= a -> 2 ^ a < 2 ^ b -> a < b.
Proof.
  intros Ha H. destruct (Z.lt_ge_cases a b) as [|Hge]; [assumption|].
  destruct (Z.lt_ge_cases b 0) as [Hb | Hb].
  - rewrite (Z.pow_neg_r 2 b) in H by lia.
    pose proof (Z.pow_nonneg 2 a ltac:(lia)). lia.
  - pose proof (Z.pow_le_mono_r 2 b a ltac:(lia) Hge). lia.
Qed.

Lemma digits2_pos_unique m d :
  2 ^ (d - 1) <= Zpos m < 2 ^ d -> 1 <= d -> Zpos (digits2_pos m) = d.
Proof.
  intros [L U] Hd. pose proof (digits2_pos_spec m) as [L1 U1].
  assert (A : 2 ^ (d - 1) < 2 ^ Zpos (digits2_pos m)) by lia.
  assert (B : 2 ^ (Zpos (digits2_pos m) - 1) < 2 ^ d) by lia.
  apply pow2_lt_mono in A; [| lia]. apply pow2_lt_mono in B; lia.
Qed.

Lemma digits_le N a : Zpos N < 2 ^ a -> Zpos (digits2_pos N) <= a.
Proof.
  intros H. pose proof (digits2_pos_spec N) as [L _].
  assert (2 ^ (Zpos (digits2_pos N) - 1) < 2 ^ a) by lia.
  apply pow2_lt_mono in H0; lia.
Qed.

Lemma iter_xO m d : Zpos (Pos.iter xO m d) = Zpos m * 2 ^ Zpos d.
Proof.
  induction d as [| d IH] using Pos.peano_ind.
  - simpl. lia.
  - rewrite Pos.iter_succ, Pos2Z.inj_succ, Z.pow_succ_r by lia.
    rewrite Pos2Z.inj_xO, IH. lia.
Qed.

Lemma digits_shift m d :
  Zpos (digits2_pos (Pos.iter xO m d)) = Zpos (digits2_pos m) + Zpos d.
Proof.
  induction d as [| d IH] using Pos.peano_ind.
  - simpl. lia.
  - rewrite Pos.iter_succ. cbn [digits2_pos]. rewrite !Pos2Z.inj_succ, IH. lia.
Qed.

(** **** Shifting right *)

Lemma mod_pow2_succ M k :
  0 <= k -> M mod 2 ^ (k + 1) = 0 -> M mod 2 ^ k = 0 /\ exists q, M / 2 ^ k = 2 * q.
Proof.
  intros Hk H.
  assert (Hpow : 0 < 2 ^ k) by (apply Z.pow_pos_nonneg; lia).
  rewrite Z.pow_add_r, Z.pow_1_r in H by lia.
  apply Z.mod_divide in H; [| lia]. destruct H as [c Hc].
  split.
  - replace M with ((c * 2) * 2 ^ k) by lia. apply Z.mod_mul. lia.
  - exists c. replace M with ((2 * c) * 2 ^ k) by lia. apply Z.div_mul. lia.
Qed.

Lemma mod_pow2_odd M k q :
  0 <= k -> M / 2 ^ k = 2 * q + 1 -> 2 ^ (k + 1) <= 2 * (M mod 2 ^ (k + 1)).
Proof.
  intros Hk Hq.
  assert (Hpow : 0 < 2 ^ k) by (apply Z.pow_pos_nonneg; lia).
  pose proof (Z.div_mod M (2 ^ k) ltac:(lia)) as E.
  pose proof (Z.mod_pos_bound M (2 ^ k) Hpow) as B.
  rewrite Hq in E. rewrite Z.pow_add_r, Z.pow_1_r by lia.
  assert (Hm : M mod (2 ^ k * 2) = 2 ^ k + M mod 2 ^ k).
  { symmetry. apply Z.mod_unique with q; lia. }
  rewrite Hm. lia.
Qed.

Lemma shr_1_spec M k mrs : 0 <= M -> shr_spec M k mrs -> shr_spec M (k + 1) (shr_1 mrs).
Proof.
  intros HM (Hk & Hm & Hex & Hr).
  assert (Hpow : 0 < 2 ^ k) by (apply Z.pow_pos_nonneg; lia).
  assert (Hdiv : M / 2 ^ (k + 1) = (M / 2 ^ k) / 2).
  { rewrite Z.pow_add_r, Z.pow_1_r by lia. rewrite Z.div_div by lia. reflexivity. }
  assert (Hnn : 0 <= M / 2 ^ k) by (apply Z.div_pos; lia).
  destruct mrs as [m r s]. simpl in Hm, Hex, Hr. subst m.
  split; [lia |]. rewrite Hdiv.
  assert (Hmod : M mod 2 ^ (k + 1) = 0 ->
                 r = false /\ s = false /\ exists q, M / 2 ^ k = 2 * q).
  { intros H. destruct (mod_pow2_succ M k Hk H) as [H1 H2].
    destruct (Hex H1). auto. }
  pose proof (mod_pow2_odd M k) as Hodd.
  unfold shr_1. destruct (M / 2 ^ k) as [| p | p] eqn:E; [| | lia].
  - simpl. split; [reflexivity |]. split; [| discriminate].
    intros H. destruct (Hmod H) as (-> & -> & _). auto.
  - destruct p as [p | p |]; simpl shr_m; simpl shr_r; simpl shr_s.
    + split; [rewrite Pos2Z.inj_xI; apply Z.div_unique with 1; lia |].
      split; [intros H; destruct (Hmod H) as (_ & _ & q & Hq); lia |].
      intros _. apply (Hodd (Zpos p)); lia.
    + split; [rewrite Pos2Z.inj_xO; apply Z.div_unique with 0; lia |].
      split; [| discriminate].
      intros H. destruct (Hmod H) as (-> & -> & _). auto.
    + split; [reflexivity |].
      split; [intros H; destruct (Hmod H) as (_ & _ & q & Hq); lia |].
      intros _. apply (Hodd 0); lia.
Qed.

Lemma iter_shr_spec M p : 0 <= M -> forall k mrs,
  shr_spec M k mrs -> shr_spec M (k + Zpos p) (SpecFloat.iter_pos shr_1 p mrs).
Proof.
  intros HM. induction p as [p IH | p IH |]; intros k mrs H; cbn [SpecFloat.iter_pos].
  - replace (k + Zpos p~1) with (k + 1 + Zpos p + Zpos p) by lia.
    apply IH, IH, shr_1_spec; assumption.
  - replace (k + Zpos p~0) with (k + Zpos p + Zpos p) by lia.
    apply IH, IH; assumption.
  - apply shr_1_spec; assumption.
Qed.

(** [shr_fexp] on an exact mantissa that is not negative. *)
Lemma shr_fexp_spec M e :
  0 <= M ->
  exists mrs,
    shr_fexp 53 1024 M e loc_Exact = (mrs, e + Z.max 0 (fexp64 (Zdigits2 M + e) - e)) /\
    shr_spec M (Z.max 0 (fexp64 (Zdigits2 M + e) - e)) mrs.
Proof.
  intros HM. unfold shr_fexp, shr. cbn [shr_record_of_loc].
  assert (H0 : shr_spec M 0 {| shr_m := M; shr_r := false; shr_s := false |}).
  { split; [lia |]. simpl. rewrite Z.div_1_r. split; [reflexivity |].
    split; [auto | discriminate]. }
  change (SpecFloat.fexp 53 1024) with fexp64.
  destruct (fexp64 (Zdigits2 M + e) - e) as [| p | p] eqn:E.
  - eexists. split; [f_equal; lia | exact H0].
  - eexists. split; [f_equal; lia |].
    replace (Z.max 0 (Zpos p)) with (0 + Zpos p) by lia.
    apply iter_shr_spec; assumption.
  - eexists. split; [f_equal; lia | exact H0].
Qed.

Lemma round_nearest_even_spec M k mrs :
  shr_spec M k mrs ->
  M / 2 ^ k <= round_nearest_even (shr_m mrs) (loc_of_shr_record mrs) <= M / 2 ^ k + 1 /\
  (2 * (M mod 2 ^ k) < 2 ^ k ->
   round_nearest_even (shr_m mrs) (loc_of_shr_record mrs) = M / 2 ^ k).
Proof.
  intros (Hk & Hm & Hex & Hr). destruct mrs as [m r s]. simpl in *. subst m.
  split.
  - destruct r, s; simpl; try lia. destruct (Z.even (M / 2 ^ k)); lia.
  - intros H. destruct r; [specialize (Hr eq_refl); lia |]. destruct s; reflexivity.
Qed.

(** **** The result of a rounding *)

Lemma binary_round_aux_packed sx (mz : positive) e1 :
  let E := fexp64 (Zpos (digits2_pos mz) + e1) in
  e1 <= E ->
  exists m2,
    Zpos mz / 2 ^ (E - e1) <= m2 <= Zpos mz / 2 ^ (E - e1) + 1 /\
    (2 * (Zpos mz mod 2 ^ (E - e1)) < 2 ^ (E - e1) -> m2 = Zpos mz / 2 ^ (E - e1)) /\
    binary_round_aux 53 1024 sx (Zpos mz) e1 loc_Exact = packed sx m2 E.
Proof.
  intros E HE. unfold binary_round_aux.
  destruct (shr_fexp_spec (Zpos mz) e1 ltac:(lia)) as (mrs & E1 & S1).
  cbn [Zdigits2] in E1, S1. fold E in E1, S1.
  replace (Z.max 0 (E - e1)) with (E - e1) in E1, S1 by lia.
  replace (e1 + (E - e1)) with E in E1 by lia. rewrite E1.
  destruct (round_nearest_even_spec _ _ _ S1) as [Hr Hhalf].
  set (m2 := round_nearest_even (shr_m mrs) (loc_of_shr_record mrs)) in *.
  exists m2. split; [exact Hr |]. split; [exact Hhalf |].
  assert (Hpk : 0 < 2 ^ (E - e1)) by (apply Z.pow_pos_nonneg; lia).
  assert (Hm1 : 0 <= Zpos mz / 2 ^ (E - e1)) by (apply Z.div_pos; lia).
  assert (Hm153 : Zpos mz / 2 ^ (E - e1) < 2 ^ 53).
  { apply Z.div_lt_upper_bound; [exact Hpk |].
    pose proof (digits2_pos_spec mz) as [_ U].
    eapply Z.lt_le_trans; [exact U |].
    rewrite <- Z.pow_add_r by lia. apply Z.pow_le_mono_r; [lia |].
    unfold E. rewrite fexp64_eq. lia. }
  assert (HEmin : -1074 <= E) by (unfold E; rewrite fexp64_eq; lia).
  destruct (shr_fexp_spec m2 E ltac:(lia)) as (mrs2 & E2 & S2).
  rewrite E2. destruct S2 as (_ & -> & _).
  unfold packed. change (1024 - 53) with 971.
  destruct (Z.eqb_spec m2 0) as [-> | Hm20].
  { rewrite Z.div_0_l by (apply Z.pow_nonzero; lia). reflexivity. }
  destruct m2 as [| q | q]; try lia. cbn [Zdigits2].
  destruct (Z.eqb_spec (Zpos q) (2 ^ 53)) as [Hq | Hq].
  - assert (Hd : Zpos (digits2_pos q) = 54).
    { apply digits2_pos_unique; [| lia]. rewrite Hq. split; [reflexivity |].
      apply Z.pow_lt_mono_r; lia. }
    rewrite Hd, fexp64_eq. replace (Z.max 0 (Z.max (54 + E - 53) (-1074) - E)) with 1 by lia.
    rewrite Hq. reflexivity.
  - assert (Hd : Zpos (digits2_pos q) <= 53) by (apply digits_le; lia).
    rewrite fexp64_eq.
    replace (Z.max 0 (Z.max (Zpos (digits2_pos q) + E - 53) (-1074) - E)) with 0 by lia.
    rewrite Z.pow_0_r, Z.div_1_r, Z.add_0_r. reflexivity.
Qed.

(** **** Rounding, as a relation on values *)

Lemma binary_round_aux_Rounds sx mz e1 :
  e1 <= fexp64 (Zpos (digits2_pos mz) + e1) -> -2200 <= e1 ->
  Rounds sx (Zpos mz * 2 ^ (e1 + 2200)) (binary_round_aux 53 1024 sx (Zpos mz) e1 loc_Exact).
Proof.
  intros HE He1.
  destruct (binary_round_aux_packed sx mz e1 HE) as (m2 & Hm & Hhalf & ->).
  set (E := fexp64 (Zpos (digits2_pos mz) + e1)) in *.
  set (k := E - e1) in *. set (P := 2 ^ (e1 + 2200)).
  assert (HP : 0 < P) by (apply Z.pow_pos_nonneg; lia).
  assert (Hk : 0 < 2 ^ k) by (apply Z.pow_pos_nonneg; lia).
  assert (HQ : 2 ^ (E + 2200) = 2 ^ k * P).
  { unfold P, k. rewrite <- Z.pow_add_r by lia. f_equal. lia. }
  pose proof (Z.div_mod (Zpos mz) (2 ^ k) ltac:(lia)) as Hdm.
  pose proof (Z.mod_pos_bound (Zpos mz) (2 ^ k) Hk) as Hrem.
  set (m1 := Zpos mz / 2 ^ k) in *. set (rem := Zpos mz mod 2 ^ k) in *.
  pose proof (digits2_pos_spec mz) as [L U].
  exists (Zpos (digits2_pos mz) + e1), m1, m2.
  split; [lia |]. fold E. rewrite HQ. split; [| split; [| split; [| split]]].
  - replace (Zpos (digits2_pos mz) + e1 - 1 + 2200)
      with (Zpos (digits2_pos mz) - 1 + (e1 + 2200)) by lia.
    replace (Zpos (digits2_pos mz) + e1 + 2200)
      with (Zpos (digits2_pos mz) + (e1 + 2200)) by lia.
    rewrite (Z.pow_add_r 2 (Zpos (digits2_pos mz) - 1) (e1 + 2200)) by lia.
    rewrite (Z.pow_add_r 2 (Zpos (digits2_pos mz)) (e1 + 2200)) by lia.
    fold P. split.
    + apply Z.mul_le_mono_nonneg_r; lia.
    + apply Z.mul_lt_mono_pos_r; lia.
  - split.
    + rewrite Z.mul_assoc. apply Z.mul_le_mono_nonneg_r; lia.
    + rewrite Z.mul_assoc. apply Z.mul_lt_mono_pos_r; lia.
  - destruct (Z.eq_dec m2 m1) as [Heq | Hne]; [left; exact Heq | right].
    split; [lia |].
    assert (Hr : 2 ^ k <= 2 * rem).
    { destruct (Z.lt_ge_cases (2 * rem) (2 ^ k)) as [Hlt | Hge]; [| exact Hge].
      specialize (Hhalf Hlt). lia. }
    rewrite (Z.mul_assoc (2 * m1 + 1)).
    replace (2 * (Zpos mz * P)) with ((2 * Zpos mz) * P) by lia.
    apply Z.mul_le_mono_nonneg_r; lia.
  - intros Hlt. apply Hhalf.
    rewrite (Z.mul_assoc (2 * m1 + 1)) in Hlt.
    replace (2 * (Zpos mz * P)) with ((2 * Zpos mz) * P) in Hlt by lia.
    apply Z.mul_lt_mono_pos_r in Hlt; lia.
  - reflexivity.
Qed.

Lemma binary_round_Rounds sx N e0 :
  -2200 <= e0 ->
  Rounds sx (Zpos N * 2 ^ (e0 + 2200)) (binary_round 53 1024 sx N e0).
Proof.
  intros He0. unfold binary_round, shl_align.
  change (SpecFloat.fexp 53 1024) with fexp64.
  set (E := fexp64 (Zpos (digits2_pos N) + e0)).
  assert (HEmin : -1074 <= E) by (unfold E; rewrite fexp64_eq; lia).
  destruct (E - e0) as [| d | d] eqn:Hd.
  - apply binary_round_aux_Rounds; fold E; lia.
  - apply binary_round_aux_Rounds; fold E; lia.
  - assert (HV : Zpos N * 2 ^ (e0 + 2200) = Zpos (Pos.iter xO N d) * 2 ^ (E + 2200)).
    { rewrite iter_xO, <- Z.mul_assoc, <- Z.pow_add_r by lia. f_equal. f_equal. lia. }
    rewrite HV. apply binary_round_aux_Rounds; [| lia].
    rewrite digits_shift.
    replace (Zpos (digits2_pos N) + Zpos d + E) with (Zpos (digits2_pos N) + e0) by lia.
    fold E. lia.
Qed.

(** ***** What a rounded number is *)

Lemma Rounds_bounds dV V m1 :
  -2199 <= dV ->
  2 ^ (dV - 1 + 2200) <= V < 2 ^ (dV + 2200) ->
  m1 * 2 ^ (fexp64 dV + 2200) <= V < (m1 + 1) * 2 ^ (fexp64 dV + 2200) ->
  0 <= m1 < 2 ^ 53 /\ (-1074 < fexp64 dV -> 2 ^ 52 <= m1).
Proof.
  intros HdV [L U] [Lm Um].
  set (E := fexp64 dV) in *.
  assert (HE : dV - 53 <= E /\ -1074 <= E) by (unfold E; rewrite fexp64_eq; lia).
  assert (HQ : 0 < 2 ^ (E + 2200)) by (apply Z.pow_pos_nonneg; lia).
  assert (HV : 0 < V).
  { eapply Z.lt_le_trans; [| exact L]. apply Z.pow_pos_nonneg; lia. }
  split; [split |].
  - assert (0 < (m1 + 1) * 2 ^ (E + 2200)) by lia.
    apply Z.mul_pos_cancel_r in H; lia.
  - assert (H : 2 ^ (dV + 2200) <= 2 ^ 53 * 2 ^ (E + 2200)).
    { rewrite <- Z.pow_add_r by lia. apply Z.pow_le_mono_r; lia. }
    assert (m1 * 2 ^ (E + 2200) < 2 ^ 53 * 2 ^ (E + 2200)) by lia.
    apply Z.mul_lt_mono_pos_r in H0; lia.
  - intros Hn. assert (HEq : E = dV - 53) by (unfold E in *; rewrite fexp64_eq in *; lia).
    assert (H : 2 ^ (dV - 1 + 2200) = 2 ^ 52 * 2 ^ (E + 2200)).
    { rewrite <- Z.pow_add_r by lia. f_equal. lia. }
    assert (2 ^ 52 * 2 ^ (E + 2200) < (m1 + 1) * 2 ^ (E + 2200)) by lia.
    apply Z.mul_lt_mono_pos_r in H0; lia.
Qed.


Lemma valid_packed sx m2 E :
  0 <= m2 <= 2 ^ 53 -> -1074 <= E -> (-1074 < E -> 2 ^ 52 <= m2) ->
  valid_binary 53 1024 (packed sx m2 E) = true.
Proof.
  intros Hm HE Hn. unfold packed.
  destruct (Z.eqb_spec m2 0) as [-> | H0]; [reflexivity |].
  destruct (Z.eqb_spec m2 (2 ^ 53)) as [-> | H53].
  - destruct (Z.leb_spec (E + 1) 971) as [Hle | Hgt]; [| reflexivity].
    cbn [valid_binary]. unfold bounded, canonical_mantissa.
    change (SpecFloat.fexp 53 1024) with fexp64.
    change (Zpos (digits2_pos 4503599627370496)) with 53. rewrite fexp64_eq.
    apply andb_true_intro. split; [apply Z.eqb_eq; lia | apply Z.leb_le; lia].
  - destruct (Z.leb_spec E 971) as [Hle | Hgt]; [| reflexivity].
    cbn [valid_binary]. unfold bounded, canonical_mantissa.
    change (SpecFloat.fexp 53 1024) with fexp64.
    assert (Hd : Zpos (digits2_pos (Z.to_pos m2)) <= 53).
    { apply digits_le. rewrite Z2Pos.id by lia. lia. }
    assert (Hd' : -1074 < E -> Zpos (digits2_pos (Z.to_pos m2)) = 53).
    { intros HEn. apply digits2_pos_unique; [| lia]. rewrite Z2Pos.id by lia.
      specialize (Hn HEn). change (2 ^ (53 - 1)) with (2 ^ 52). lia. }
    rewrite fexp64_eq.
    apply andb_true_intro. split; [apply Z.eqb_eq; lia | apply Z.leb_le; lia].
Qed.

Lemma Rounds_valid sx V res : Rounds sx V res -> valid_binary 53 1024 res = true.
Proof.
  intros (dV & m1 & m2 & HdV & HV & Hm1 & Hm2 & _ & ->).
  destruct (Rounds_bounds dV V m1 HdV HV Hm1) as [B N].
  apply valid_packed; [| rewrite fexp64_eq; lia |].
  - destruct Hm2 as [-> | [-> _]]; lia.
  - intros H. specialize (N H). destruct Hm2 as [-> | [-> _]]; lia.
Qed.


(** ***** Canonical mantissas *)






(** ***** Rounding is monotone at the canonical numbers *)




(** **** Comparing by values *)




(** **** The operations *)









(** **** The shape of a float, from its value *)





(** **** [lo + u * (hi - lo)] lies between [lo] and [hi] *)









Lemma f64_of_int_valid (i : Z) : f64_valid (f64_of_int i) = true.
Proof.
  unfold f64_of_int, f64_valid. destruct i as [| q | q]; cbn [binary_normalize].
  - reflexivity.
  - apply (Rounds_valid false (Zpos q * 2 ^ (0 + 2200))), binary_round_Rounds. lia.
  - apply (Rounds_valid true (Zpos q * 2 ^ (0 + 2200))), binary_round_Rounds. lia.
Qed.





(** *** C10: when [random] panics *)

(** C10, as the code has it. On integers [lo <= hi] whose [int64]
    difference [hi - lo] does not overflow, [random] does not panic:
    either the [float64] conversions of [lo] and [hi] are equal and [lo] is
    returned, or [Int63n] is called with the bound [hi - lo], which is
    strictly positive, and an integer is returned. The bound on the order
    is needed: when [hi < lo], the conversions differ and [lo - hi] is at
    most [2^63], the call panics. *)
Theorem C10_random_panics `{RL : rand.RandLib}
    (ctx : CommandContext) (m m1 m2 : Machine) (a0 a1 : Expression) (lo hi : Z) :
  Expression_Eval a0 ctx m = (Ok (VInt lo), m1) ->
  Expression_Eval a1 ctx m1 = (Ok (VInt hi), m2) ->
  inInt64 lo -> inInt64 hi ->
  (lo <= hi -> hi - lo < 2 ^ 63 ->
     (f64_eqb (f64_of_int lo) (f64_of_int hi) = true /\
      Expression_Eval (callExpr "random" [a0; a1]) ctx m = (Ok (VInt lo), m2)) \/
     (f64_eqb (f64_of_int lo) (f64_of_int hi) = false /\
      0 < wrap64 (hi - lo) /\
      Expression_Eval (callExpr "random" [a0; a1]) ctx m =
        (Ok (VInt (wrap64 (lo + fst (rand.Int63n (wrap64 (hi - lo)) (clientRand m2))))),
         mkMachine (heap m2) (snd (rand.Int63n (wrap64 (hi - lo)) (clientRand m2)))
           (globalRand m2)))) /\
  (hi < lo -> lo - hi <= 2 ^ 63 ->
     f64_eqb (f64_of_int lo) (f64_of_int hi) = false ->
     Expression_Eval (callExpr "random" [a0; a1]) ctx m =
       (Panic "invalid argument to Int63n", m2)).
Proof.
  intros H0 H1 Hlo Hhi.
  rewrite (Eval_random_ints _ _ _ _ _ _ _ _ H0 H1). split.
  - intros Hle Hdiff.
    destruct (f64_eqb (f64_of_int lo) (f64_of_int hi)) eqn:Heq.
    + left. split; reflexivity.
    + right. split; [reflexivity |].
      assert (Hne : lo <> hi).
      { intros ->. rewrite f64_eqb_of_int in Heq. discriminate. }
      assert (Hw : wrap64 (hi - lo) = hi - lo).
      { apply wrap64_id. unfold inInt64, minInt64, maxInt64 in *. lia. }
      split; [lia |].
      rewrite Hw. unfold bind, Rand_Int63n.
      destruct (Z.leb_spec (hi - lo) 0) as [Hle0 | _]; [lia |].
      destruct (rand.Int63n (hi - lo) (clientRand m2)) as [r st]. reflexivity.
  - intros Hlt Hdiff Hne. rewrite Hne.
    assert (Hw : wrap64 (hi - lo) = hi - lo).
    { apply wrap64_id. unfold inInt64, minInt64, maxInt64 in *. lia. }
    rewrite Hw. unfold bind, Rand_Int63n.
    destruct (Z.leb_spec (hi - lo) 0) as [_ | Hgt]; [reflexivity | lia].
Qed.

(** C10 fails as stated: [-1 <= 9223372036854775807], the [int64]
    difference wraps to [-2^63], and [random] panics. *)
Lemma C10_counterexample :
  -1 <= 9223372036854775807 /\
  @Expression_Eval LcgRand
    (callExpr "random" [intExpr (-1); intExpr 9223372036854775807])
    context0 machine0
  = (Panic "invalid argument to Int63n", machine0).
Proof. split; [lia | reflexivity]. Qed.

Lemma C10_witness :
  @Expression_Eval LcgRand (callExpr "random" [intExpr 2; intExpr 1])
    context0 machine0
  = (Panic "invalid argument to Int63n", machine0).
Proof.
  refine (proj2 (@C10_random_panics LcgRand context0
            machine0 machine0 machine0
            (intExpr 2) (intExpr 1) 2 1 eq_refl eq_refl _ _) _ _ _);
    unfold inInt64, minInt64, maxInt64; try lia.
  vm_compute. reflexivity.
Defined.

(** ** The heap and the unit of work *)

Section Heap.
Context `{RL : rand.RandLib}.

Lemma copyVars_id (vars : gmap string Value) : copyVars vars = vars.
Proof.
  unfold copyVars.
  apply (map_fold_weak_ind (fun r (m : gmap string Value) => r = m)); [done |].
  intros i x m r _ ->. reflexivity.
Qed.

Lemma deref_alloc_old content (m : Machine) a :
  (a < List.length (heap m))%nat -> deref (snd (alloc content m)) a = deref m a.
Proof.
  intros Ha. unfold deref, alloc. simpl. rewrite lookup_app_l by exact Ha. reflexivity.
Qed.

Lemma deref_alloc_new content (m : Machine) :
  deref (snd (alloc content m)) (fst (alloc content m)) = content.
Proof.
  unfold deref, alloc. simpl.
  rewrite lookup_app_r by lia. rewrite Nat.sub_diag. reflexivity.
Qed.

Lemma deref_store_same a k v (m : Machine) :
  (a < List.length (heap m))%nat -> deref (store a k v m) a = <[k := v]> (deref m a).
Proof.
  intros Ha. unfold store. unfold deref at 1. simpl.
  rewrite list_lookup_insert_eq by exact Ha. reflexivity.
Qed.

Lemma deref_store_other a b k v (m : Machine) :
  a <> b -> deref (store a k v m) b = deref m b.
Proof.
  intros Hab. unfold store. unfold deref at 1. simpl.
  rewrite list_lookup_insert_ne by exact Hab. reflexivity.
Qed.

Lemma length_store a k v (m : Machine) :
  List.length (heap (store a k v m)) = List.length (heap m).
Proof. unfold store. simpl. apply length_insert. Qed.

(** *** The evaluator leaves the heap alone *)

Lemma keepsHeap_ret {A} (a : A) : keepsHeap (ret a).
Proof. intros m r m' [= <- <-]. reflexivity. Qed.

Lemma keepsHeap_fail {A} e : keepsHeap (@fail_with _ A e).
Proof. intros m r m' [= <- <-]. reflexivity. Qed.

Lemma keepsHeap_panic {A} e : keepsHeap (@panic _ A e).
Proof. intros m r m' [= <- <-]. reflexivity. Qed.

Lemma keepsHeap_bind {A B} (c : M A) (k : A -> M B) :
  keepsHeap c -> (forall a, keepsHeap (k a)) -> keepsHeap (bind c k).
Proof.
  intros Hc Hk m r m'. unfold bind.
  destruct (c m) as [[a | e | p] m1] eqn:Hcm; intros Heq.
  - rewrite (Hk a _ _ _ Heq). apply (Hc _ _ _ Hcm).
  - injection Heq as <- <-. apply (Hc _ _ _ Hcm).
  - injection Heq as <- <-. apply (Hc _ _ _ Hcm).
Qed.

Lemma keepsHeap_wrapErr {A} f (c : M A) : keepsHeap c -> keepsHeap (wrapErr f c).
Proof.
  intros Hc m r m'. unfold wrapErr.
  destruct (c m) as [[a | e | p] m1] eqn:Hcm; intros [= <- <-]; apply (Hc _ _ _ Hcm).
Qed.

Lemma keepsHeap_Int63n n : keepsHeap (Rand_Int63n n).
Proof.
  intros m r m'. unfold Rand_Int63n.
  destruct (n <=? 0); [intros [= <- <-]; reflexivity |].
  destruct (rand.Int63n n (clientRand m)); intros [= <- <-]; reflexivity.
Qed.

Lemma keepsHeap_Float64 : keepsHeap global_Float64.
Proof.
  intros m r m'. unfold global_Float64.
  destruct (rand.Float64 (globalRand m)); intros [= <- <-]; reflexivity.
Qed.

Lemma keepsHeap_argAsNumber args i ctx :
  Forall (fun a => forall ctx, keepsHeap (Expression_Eval a ctx)) args ->
  keepsHeap (argAsNumber (evalArg Expression_Eval args) args i ctx).
Proof.
  intros Hargs. unfold argAsNumber.
  destruct (List.length args <=? i)%nat; [apply keepsHeap_fail |].
  rewrite evalArg_lookup.
  destruct (args !! i) as [a |] eqn:Hi; simpl; [| apply keepsHeap_panic].
  apply keepsHeap_bind; [| intros v; apply keepsHeap_ret].
  rewrite Forall_forall in Hargs. apply Hargs.
  eapply list_elem_of_lookup_2, Hi.
Qed.

Lemma keepsHeap_Eval e : forall ctx, keepsHeap (Expression_Eval e ctx).
Proof.
  induction e as [| v | name args IH | v] using Expression_ind; intros ctx.
  - apply keepsHeap_fail.
  - apply keepsHeap_ret.
  - change (Expression_Eval (callExpr name args) ctx)
      with (CallExpr_Eval (evalArg Expression_Eval args) name args ctx).
    unfold CallExpr_Eval.
    destruct (String.eqb name "random"); [| destruct (String.eqb name "*")].
    + apply keepsHeap_bind; [apply keepsHeap_wrapErr, keepsHeap_argAsNumber, IH |].
      intros a.
      apply keepsHeap_bind; [apply keepsHeap_wrapErr, keepsHeap_argAsNumber, IH |].
      intros b. destruct (f64_eqb _ _).
      * destruct (isFloat a); apply keepsHeap_ret.
      * destruct (isFloat a || isFloat b).
        -- apply keepsHeap_bind; [apply keepsHeap_Float64 | intros; apply keepsHeap_ret].
        -- apply keepsHeap_bind; [apply keepsHeap_Int63n | intros; apply keepsHeap_ret].
    + apply keepsHeap_bind; [apply keepsHeap_wrapErr, keepsHeap_argAsNumber, IH |].
      intros a.
      apply keepsHeap_bind; [apply keepsHeap_wrapErr, keepsHeap_argAsNumber, IH |].
      intros b. destruct (isFloat a || isFloat b); apply keepsHeap_ret.
    + apply keepsHeap_fail.
  - intros m r m'. simpl.
    destruct (deref m (Vars ctx) !! v); intros [= <- <-]; reflexivity.
Qed.

End Heap.

Section UnitsOfWork.
Context `{RL : rand.RandLib}.

Lemma deref_heap (m1 m2 : Machine) a : heap m1 = heap m2 -> deref m1 a = deref m2 a.
Proof. unfold deref. intros ->. reflexivity. Qed.

(** One command: the statements already there keep their params, a new
    statement holds the variables of that moment, the variables are only
    added to. *)
Lemma Execute_frame cmd ctx uow (m : Machine) r uow' m' :
  separated ctx uow m ->
  Execute cmd ctx uow m = (r, uow', m') ->
  separated ctx uow' m' /\
  (exists new, Statements uow' = Statements uow ++ new /\
     Forall (fun st => deref m' (Params st) = deref m (Vars ctx)) new) /\
  (forall a, (a < List.length (heap m))%nat -> a <> Vars ctx -> deref m' a = deref m a) /\
  (forall k, is_Some (deref m (Vars ctx) !! k) -> is_Some (deref m' (Vars ctx) !! k)) /\
  Readonly uow' = Readonly uow.
Proof.
  intros [Hvars Hstmts] Hexec. destruct cmd as [query | name e |]; simpl in Hexec.
  - injection Hexec as <- <- <-. unfold separated. simpl. repeat split.
    + rewrite length_app. simpl. lia.
    + apply Forall_app. split.
      * eapply Forall_impl; [exact Hstmts |]. simpl. intros st [Hlt Hne].
        rewrite length_app. simpl. split; [lia | exact Hne].
      * apply Forall_singleton. simpl. rewrite length_app. simpl. split; lia.
    + exists [mkStatement query (List.length (heap m))]. split; [reflexivity |].
      apply Forall_singleton. simpl.
      pose proof (deref_alloc_new (copyVars (deref m (Vars ctx))) m) as Hnew.
      simpl in Hnew. rewrite Hnew. apply copyVars_id.
    + intros a Ha _. apply (deref_alloc_old (copyVars (deref m (Vars ctx))) m a Ha).
    + intros k.
      pose proof (deref_alloc_old (copyVars (deref m (Vars ctx))) m _ Hvars) as Hold.
      simpl in Hold. rewrite Hold. trivial.
  - destruct (Expression_Eval e ctx m) as [[v | msg | msg] m1] eqn:Hev;
      injection Hexec as <- <- <-;
      pose proof (keepsHeap_Eval e ctx m _ _ Hev) as Hheap.
    + repeat split.
      * rewrite length_store, Hheap. exact Hvars.
      * eapply Forall_impl; [exact Hstmts |]. intros st [Hlt Hne].
        rewrite length_store, Hheap. split; assumption.
      * exists []. rewrite app_nil_r. split; [reflexivity | constructor].
      * intros a _ Hne. rewrite deref_store_other by congruence.
        apply deref_heap, Hheap.
      * intros k Hk. rewrite deref_store_same by (rewrite Hheap; exact Hvars).
        rewrite (deref_heap m1 m _ Hheap).
        destruct (decide (name = k)) as [-> | Hnk].
        -- rewrite lookup_insert_eq. eauto.
        -- rewrite lookup_insert_ne by exact Hnk. exact Hk.
    + repeat split.
      * rewrite Hheap. exact Hvars.
      * rewrite Hheap. exact Hstmts.
      * exists []. rewrite app_nil_r. split; [reflexivity | constructor].
      * intros a _ _. apply deref_heap, Hheap.
      * intros k. rewrite (deref_heap m1 m _ Hheap). trivial.
    + repeat split.
      * rewrite Hheap. exact Hvars.
      * rewrite Hheap. exact Hstmts.
      * exists []. rewrite app_nil_r. split; [reflexivity | constructor].
      * intros a _ _. apply deref_heap, Hheap.
      * intros k. rewrite (deref_heap m1 m _ Hheap). trivial.
  - injection Hexec as <- <- <-. repeat split; try assumption; try trivial.
    exists []. rewrite app_nil_r. split; [reflexivity | constructor].
Qed.

(** A run of commands: the same frame. *)
Lemma runCommands_frame cmds : forall ctx uow (m : Machine) r uow' m',
  separated ctx uow m ->
  runCommands cmds ctx uow m = (r, uow', m') ->
  separated ctx uow' m' /\
  (exists new, Statements uow' = Statements uow ++ new) /\
  Forall (fun st => deref m' (Params st) = deref m (Params st)) (Statements uow) /\
  (forall k, is_Some (deref m (Vars ctx) !! k) -> is_Some (deref m' (Vars ctx) !! k)) /\
  Readonly uow' = Readonly uow.
Proof.
  induction cmds as [| cmd rest IH]; intros ctx uow m r uow' m' Hsep Hrun; simpl in Hrun.
  - injection Hrun as <- <- <-. repeat split; try apply Hsep; try trivial.
    + exists []. rewrite app_nil_r. reflexivity.
    + apply Forall_forall. trivial.
  - destruct (Execute cmd ctx uow m) as [[r1 uow1] m1] eqn:Hexec.
    destruct (Execute_frame _ _ _ _ _ _ _ Hsep Hexec)
      as (Hsep1 & [new [Hnew _]] & Hframe & Hgrow & Hro).
    assert (Hkept : Forall (fun st => deref m1 (Params st) = deref m (Params st))
                      (Statements uow)).
    { destruct Hsep as [_ Hstmts]. eapply Forall_impl; [exact Hstmts |]. simpl.
      intros st [Hlt Hne]. apply Hframe; assumption. }
    destruct r1 as [[] | msg | msg].
    + destruct (IH _ _ _ _ _ _ Hsep1 Hrun) as (Hsep2 & [more Hmore] & Hkept2 & Hgrow2 & Hro2).
      repeat split; try apply Hsep2.
      * exists (new ++ more). rewrite Hmore, Hnew, app_assoc. reflexivity.
      * rewrite Hnew in Hkept2. apply Forall_app in Hkept2 as [Hkept2 _].
        rewrite Forall_forall in *. intros st Hst.
        rewrite (Hkept2 st Hst). apply (Hkept st Hst).
      * intros k Hk. apply Hgrow2, Hgrow, Hk.
      * congruence.
    + injection Hrun as <- <- <-. repeat split; try apply Hsep1; try assumption.
      exists new. exact Hnew.
    + injection Hrun as <- <- <-. repeat split; try apply Hsep1; try assumption.
      exists new. exact Hnew.
Qed.

Lemma runCommands_app pre post ctx uow (m : Machine) uow1 m1 :
  runCommands pre ctx uow m = (Ok tt, uow1, m1) ->
  runCommands (pre ++ post) ctx uow m = runCommands post ctx uow1 m1.
Proof.
  revert uow m. induction pre as [| cmd pre IH]; intros uow m Hrun; simpl in *.
  - injection Hrun as <- <-. reflexivity.
  - destruct (Execute cmd ctx uow m) as [[[[] | msg | msg] uow0] m0]; try discriminate.
    apply IH, Hrun.
Qed.

(** [Next] starts separated, with [scale] among the variables. *)
Lemma newContext_separated (s : ClientWorkload) (m : Machine) :
  separated (fst (newContext s m)) (mkUnitOfWork (cReadonly s) []) (snd (newContext s m)) /\
  deref (snd (newContext s m)) (Vars (fst (newContext s m))) = {[ "scale" := VInt (cScale s) ]}.
Proof.
  unfold newContext. simpl. split.
  - split; simpl; [rewrite length_app; simpl; lia | constructor].
  - apply (deref_alloc_new {[ "scale" := VInt (cScale s) ]} m).
Qed.

Lemma Next_unfold (s : ClientWorkload) (m : Machine) :
  ClientWorkload_Next s m =
    runCommands (cCommands s) (fst (newContext s m))
      (mkUnitOfWork (cReadonly s) []) (snd (newContext s m)).
Proof. reflexivity. Qed.

End UnitsOfWork.

Section UnitsOfWorkClaims.
Context `{RL : rand.RandLib}.

(** A key that is among the variables is in the params of every statement
    appended from then on. *)
Lemma runCommands_key k cmds : forall ctx uow (m : Machine) r uow' m',
  separated ctx uow m ->
  is_Some (deref m (Vars ctx) !! k) ->
  Forall (fun st => is_Some (deref m (Params st) !! k)) (Statements uow) ->
  runCommands cmds ctx uow m = (r, uow', m') ->
  Forall (fun st => is_Some (deref m' (Params st) !! k)) (Statements uow').
Proof.
  induction cmds as [| cmd rest IH]; intros ctx uow m r uow' m' Hsep Hk Hall Hrun;
    simpl in Hrun.
  - injection Hrun as <- <- <-. exact Hall.
  - destruct (Execute cmd ctx uow m) as [[r1 uow1] m1] eqn:Hexec.
    destruct (Execute_frame _ _ _ _ _ _ _ Hsep Hexec)
      as (Hsep1 & [new [Hnew Hsnap]] & Hframe & Hgrow & _).
    assert (Hall1 : Forall (fun st => is_Some (deref m1 (Params st) !! k)) (Statements uow1)).
    { rewrite Hnew. apply Forall_app. split.
      - destruct Hsep as [_ Hstmts]. rewrite Forall_forall in *.
        intros st Hst. destruct (Hstmts st Hst) as [Hlt Hne].
        rewrite (Hframe _ Hlt Hne). apply (Hall st Hst).
      - eapply Forall_impl; [exact Hsnap |]. simpl. intros st ->. exact Hk. }
    destruct r1 as [[] | msg | msg].
    + apply (IH _ _ _ _ _ _ Hsep1 (Hgrow _ Hk) Hall1 Hrun).
    + injection Hrun as <- <- <-. exact Hall1.
    + injection Hrun as <- <- <-. exact Hall1.
Qed.

(** *** C5: the params are a copy *)

(** C5. In a unit of work built by [Next] from the commands
    [pre ++ QueryCommand q :: post], when the query command executes, the
    statement it appends has a map of its own holding the variables of the
    context of that moment, and once the remaining commands have run,
    [SetCommand]s or others, the params of every statement appended so far
    are what they were. *)
Theorem C5_params_are_a_copy (s : ClientWorkload) (m : Machine)
    (pre post : list Command) (q : string) (uow1 : UnitOfWork) (m1 : Machine) :
  cCommands s = pre ++ QueryCommand q :: post ->
  runCommands pre (fst (newContext s m)) (mkUnitOfWork (cReadonly s) [])
    (snd (newContext s m)) = (Ok tt, uow1, m1) ->
  let ctx := fst (newContext s m) in
  exists st uow2 m2,
    Execute (QueryCommand q) ctx uow1 m1 = (Ok tt, uow2, m2) /\
    Statements uow2 = Statements uow1 ++ [st] /\
    Query st = q /\
    Params st <> Vars ctx /\
    deref m2 (Params st) = deref m1 (Vars ctx) /\
    exists res uow3 m3 more,
      ClientWorkload_Next s m = (res, uow3, m3) /\
      runCommands post ctx uow2 m2 = (res, uow3, m3) /\
      Statements uow3 = Statements uow2 ++ more /\
      Forall (fun st' => deref m3 (Params st') = deref m2 (Params st')) (Statements uow2).
Proof.
  intros Hcmds Hpre ctx.
  destruct (newContext_separated s m) as [Hsep0 _].
  pose proof (Next_unfold s m) as Hnext. rewrite Hcmds in Hnext.
  fold ctx in Hsep0, Hpre, Hnext.
  set (m0 := snd (newContext s m)) in *. clearbody ctx m0.
  rewrite (runCommands_app pre _ _ _ _ _ _ Hpre) in Hnext.
  destruct (runCommands_frame _ _ _ _ _ _ _ Hsep0 Hpre) as (Hsep1 & _).
  destruct (Execute (QueryCommand q) ctx uow1 m1) as [[r2 uow2] m2] eqn:Hexec.
  destruct (Execute_frame _ _ _ _ _ _ _ Hsep1 Hexec)
    as (Hsep2 & _ & _ & _ & _).
  simpl in Hnext.
  simpl in Hexec. injection Hexec as <- <- <-.
  match type of Hnext with _ = ?run => destruct run as [[res uow3] m3] eqn:Hpost end.
  destruct (runCommands_frame _ _ _ _ _ _ _ Hsep2 Hpost) as (_ & [more Hmore] & Hkept & _).
  eexists _, _, _. split; [reflexivity |]. simpl.
  split; [reflexivity |]. split; [reflexivity |].
  split; [destruct Hsep1 as [Hlt _]; simpl; lia |].
  split.
  { pose proof (deref_alloc_new (copyVars (deref m1 (Vars ctx))) m1) as Hnew.
    simpl in Hnew. simpl. rewrite Hnew. apply copyVars_id. }
  exists res, uow3, m3, more. simpl in Hmore.
  split; [exact Hnext |]. split; [exact Hpost |]. split; assumption.
Qed.

(** *** C6: [scale] is in all params *)

(** C6. Whatever the commands of the client workload, the params of every
    statement of the unit of work that [Next] returns, with or without an
    error, contain the key [scale]. *)
Theorem C6_params_contain_scale (s : ClientWorkload) (m : Machine)
    (res : result unit) (uow : UnitOfWork) (m' : Machine) :
  ClientWorkload_Next s m = (res, uow, m') ->
  Forall (fun st => is_Some (deref m' (Params st) !! "scale")) (Statements uow).
Proof.
  rewrite Next_unfold. intros Hrun.
  destruct (newContext_separated s m) as [Hsep0 Hvars].
  refine (runCommands_key "scale" _ _ _ _ _ _ _ Hsep0 _ _ Hrun).
  - rewrite Hvars, lookup_singleton_eq. eauto.
  - constructor.
Qed.

End UnitsOfWorkClaims.

Lemma C5_witness :
  exists st uow2 m2,
    @Execute LcgRand (QueryCommand "RETURN :x") (mkCommandContext 1)
      (mkUnitOfWork false [])
      (@mkMachine LcgRand [∅; {[ "scale" := VInt 1 ]} ] 1337 1)
      = (Ok tt, uow2, m2) /\
    Statements uow2 = [] ++ [st] /\
    Query st = "RETURN :x" /\
    Params st <> 1%nat /\
    deref m2 (Params st) =
      deref (@mkMachine LcgRand [∅; {[ "scale" := VInt 1 ]} ] 1337 1) 1 /\
    exists res uow3 m3 more,
      @ClientWorkload_Next LcgRand
        (mkClientWorkload false 1 [QueryCommand "RETURN :x"; SetCommand "x" (intExpr 2)])
        machine0 = (res, uow3, m3) /\
      runCommands [SetCommand "x" (intExpr 2)] (mkCommandContext 1) uow2 m2
        = (res, uow3, m3) /\
      Statements uow3 = Statements uow2 ++ more /\
      Forall (fun st' => deref m3 (Params st') = deref m2 (Params st')) (Statements uow2).
Proof.
  exact (@C5_params_are_a_copy LcgRand
           (mkClientWorkload false 1 [QueryCommand "RETURN :x"; SetCommand "x" (intExpr 2)])
           machine0 [] [SetCommand "x" (intExpr 2)] "RETURN :x"
           (mkUnitOfWork false [])
           (@mkMachine LcgRand [∅; {[ "scale" := VInt 1 ]} ] 1337 1)
           eq_refl eq_refl).
Defined.

Lemma C6_witness :
  Forall (fun st =>
            is_Some (deref
                       (snd (@ClientWorkload_Next LcgRand
                               (mkClientWorkload false 1
                                  [SetCommand "x" (intExpr 2); QueryCommand "RETURN :x"])
                               machine0))
                       (Params st) !! "scale"))
    (Statements
       (snd (fst (@ClientWorkload_Next LcgRand
                    (mkClientWorkload false 1
                       [SetCommand "x" (intExpr 2); QueryCommand "RETURN :x"])
                    machine0)))).
Proof.
  apply (@C6_params_contain_scale LcgRand
           (mkClientWorkload false 1 [SetCommand "x" (intExpr 2); QueryCommand "RETURN :x"])
           machine0
           (fst (fst (@ClientWorkload_Next LcgRand
                        (mkClientWorkload false 1
                           [SetCommand "x" (intExpr 2); QueryCommand "RETURN :x"])
                        machine0)))).
  destruct (@ClientWorkload_Next LcgRand _ machine0) as [[r u] m']. reflexivity.
Defined.

(** ** Two runs from the same seed *)

Section Determinism.
Context `{RL : rand.RandLib}.

Lemma agree_ret {A} (P : A -> Prop) vars ctx1 ctx2 a :
  P a -> agree P vars ctx1 ctx2 (ret a) (ret a).
Proof.
  intros Ha m1 m2 _ _ Hr. exists (Ok a), (clientRand m1).
  unfold ret. rewrite Hr at 2. destruct m1, m2. simpl.
  repeat split. intros ? [= <-]. exact Ha.
Qed.

Lemma agree_fail {A} (P : A -> Prop) vars ctx1 ctx2 e :
  agree P vars ctx1 ctx2 (fail_with e) (fail_with e).
Proof.
  intros m1 m2 _ _ Hr. exists (Err e), (clientRand m1).
  unfold fail_with. rewrite Hr at 2. destruct m1, m2. simpl.
  repeat split. intros ? [=].
Qed.

Lemma agree_panic {A} (P : A -> Prop) vars ctx1 ctx2 e :
  agree P vars ctx1 ctx2 (panic e) (panic e).
Proof.
  intros m1 m2 _ _ Hr. exists (Panic e), (clientRand m1).
  unfold panic. rewrite Hr at 2. destruct m1, m2. simpl.
  repeat split. intros ? [=].
Qed.

Lemma agree_bind {A B} (P : A -> Prop) (Q : B -> Prop) vars ctx1 ctx2
    (c1 c2 : M A) (k1 k2 : A -> M B) :
  agree P vars ctx1 ctx2 c1 c2 ->
  (forall a, P a -> agree Q vars ctx1 ctx2 (k1 a) (k2 a)) ->
  agree Q vars ctx1 ctx2 (bind c1 k1) (bind c2 k2).
Proof.
  intros Hc Hk m1 m2 H1 H2 Hr.
  destruct (Hc m1 m2 H1 H2 Hr) as (r & st & E1 & E2 & HP).
  unfold bind. rewrite E1, E2. destruct r as [a | e | p].
  - destruct (Hk a (HP a eq_refl)
                (mkMachine (heap m1) st (globalRand m1))
                (mkMachine (heap m2) st (globalRand m2)) H1 H2 eq_refl)
      as (r' & st' & E1' & E2' & HQ).
    exists r', st'. simpl in E1', E2'. auto.
  - exists (Err e), st. repeat split. intros ? [=].
  - exists (Panic p), st. repeat split. intros ? [=].
Qed.

Lemma agree_wrapErr {A} (P : A -> Prop) vars ctx1 ctx2 f (c1 c2 : M A) :
  agree P vars ctx1 ctx2 c1 c2 ->
  agree P vars ctx1 ctx2 (wrapErr f c1) (wrapErr f c2).
Proof.
  intros Hc m1 m2 H1 H2 Hr.
  destruct (Hc m1 m2 H1 H2 Hr) as (r & st & E1 & E2 & HP).
  unfold wrapErr. rewrite E1, E2. destruct r as [a | e | p].
  - exists (Ok a), st. auto.
  - exists (Err (f e)), st. repeat split. intros ? [=].
  - exists (Panic p), st. repeat split. intros ? [=].
Qed.

Lemma agree_Int63n vars ctx1 ctx2 n :
  agree (fun _ => True) vars ctx1 ctx2 (Rand_Int63n n) (Rand_Int63n n).
Proof.
  intros m1 m2 _ _ Hr. unfold Rand_Int63n. rewrite <- Hr.
  destruct (n <=? 0).
  - exists (Panic "invalid argument to Int63n"), (clientRand m1).
    destruct m1, m2. simpl in *. subst. repeat split.
  - destruct (rand.Int63n n (clientRand m1)) as [v st].
    exists (Ok v), st. auto.
Qed.

Lemma agree_argAsNumber vars ctx1 ctx2 args i :
  Forall (fun a => agree isInt vars ctx1 ctx2 (Expression_Eval a ctx1) (Expression_Eval a ctx2))
    args ->
  agree (fun n => isFloat n = false) vars ctx1 ctx2
    (argAsNumber (evalArg Expression_Eval args) args i ctx1)
    (argAsNumber (evalArg Expression_Eval args) args i ctx2).
Proof.
  intros Hargs. unfold argAsNumber.
  destruct (List.length args <=? i)%nat; [apply agree_fail |].
  rewrite evalArg_lookup.
  destruct (args !! i) as [a |] eqn:Hi; simpl; [| apply agree_panic].
  apply (agree_bind isInt).
  - rewrite Forall_forall in Hargs. apply Hargs.
    eapply list_elem_of_lookup_2, Hi.
  - intros v [n ->]. apply agree_ret. reflexivity.
Qed.

(** With integer variables an expression evaluates to the same integer in
    both runs, and the process-wide generator is not drawn from. *)
Lemma agree_Eval vars ctx1 ctx2 :
  intsOnly vars ->
  forall e, agree isInt vars ctx1 ctx2 (Expression_Eval e ctx1) (Expression_Eval e ctx2).
Proof.
  intros Hints e.
  induction e as [| v | name args IH | v] using Expression_ind.
  - apply agree_fail.
  - apply agree_ret. exists v. reflexivity.
  - change (agree isInt vars ctx1 ctx2
              (CallExpr_Eval (evalArg Expression_Eval args) name args ctx1)
              (CallExpr_Eval (evalArg Expression_Eval args) name args ctx2)).
    unfold CallExpr_Eval.
    destruct (String.eqb name "random"); [| destruct (String.eqb name "*")].
    + eapply agree_bind; [apply agree_wrapErr, agree_argAsNumber, IH |].
      intros a Ha. simpl in Ha.
      eapply agree_bind; [apply agree_wrapErr, agree_argAsNumber, IH |].
      intros b Hb. simpl in Hb. rewrite Ha, Hb. simpl.
      destruct (f64_eqb _ _).
      * apply agree_ret. eexists. reflexivity.
      * eapply agree_bind; [apply agree_Int63n |].
        intros r _. apply agree_ret. eexists. reflexivity.
    + eapply agree_bind; [apply agree_wrapErr, agree_argAsNumber, IH |].
      intros a Ha. simpl in Ha.
      eapply agree_bind; [apply agree_wrapErr, agree_argAsNumber, IH |].
      intros b Hb. simpl in Hb. rewrite Ha, Hb. simpl.
      apply agree_ret. eexists. reflexivity.
    + apply agree_fail.
  - intros m1 m2 H1 H2 Hr. simpl. rewrite H1, H2.
    destruct (vars !! v) as [value |] eqn:Hv.
    + exists (Ok value), (clientRand m1). rewrite Hr at 2. destruct m1, m2. simpl.
      repeat split. intros ? [= <-]. apply (Hints _ _ Hv).
    + exists (Err ("this variable is not defined: " +:+ v)), (clientRand m1).
      rewrite Hr at 2. destruct m1, m2. simpl. repeat split. intros ? [=].
Qed.

Lemma statementsOf_frame (m m' : Machine) ctx uow uow' :
  separated ctx uow m ->
  (forall a, (a < List.length (heap m))%nat -> a <> Vars ctx -> deref m' a = deref m a) ->
  Statements uow' = Statements uow ->
  statementsOf m' uow' = statementsOf m uow.
Proof.
  intros [_ Hstmts] Hframe Heq. unfold statementsOf. rewrite Heq.
  apply map_ext_in. intros st Hst. apply list_elem_of_In in Hst.
  rewrite Forall_forall in Hstmts.
  destruct (Hstmts st Hst) as [Hlt Hne]. rewrite (Hframe _ Hlt Hne). reflexivity.
Qed.

Lemma statementsOf_query ctx uow (m : Machine) q :
  separated ctx uow m ->
  statementsOf (snd (alloc (copyVars (deref m (Vars ctx))) m))
    (mkUnitOfWork (Readonly uow) (Statements uow ++ [mkStatement q (List.length (heap m))]))
  = statementsOf m uow ++ [(q, deref m (Vars ctx))].
Proof.
  intros [_ Hstmts]. unfold statementsOf. cbn [Statements]. rewrite map_app. f_equal.
  - apply map_ext_in. intros st Hin. apply list_elem_of_In in Hin.
    rewrite Forall_forall in Hstmts. destruct (Hstmts st Hin) as [Hlt _].
    rewrite (deref_alloc_old _ m _ Hlt). reflexivity.
  - cbn [map Query Params].
    pose proof (deref_alloc_new (copyVars (deref m (Vars ctx))) m) as Hnew.
    cbn [fst alloc] in Hnew. rewrite Hnew, copyVars_id. reflexivity.
Qed.

Lemma Execute_related cmd ctx1 ctx2 uow1 uow2 (m1 m2 : Machine) :
  related ctx1 ctx2 uow1 uow2 m1 m2 ->
  forall r1 uow1' m1' r2 uow2' m2',
    Execute cmd ctx1 uow1 m1 = (r1, uow1', m1') ->
    Execute cmd ctx2 uow2 m2 = (r2, uow2', m2') ->
    r1 = r2 /\ related ctx1 ctx2 uow1' uow2' m1' m2'.
Proof.
  intros (Hs1 & Hs2 & Hvars & Hints & Hrand & Hro & Hst) r1 uow1' m1' r2 uow2' m2' E1 E2.
  destruct (Execute_frame _ _ _ _ _ _ _ Hs1 E1) as (Hs1' & _ & Hf1 & _ & Hro1).
  destruct (Execute_frame _ _ _ _ _ _ _ Hs2 E2) as (Hs2' & _ & Hf2 & _ & Hro2).
  destruct cmd as [query | name e |]; simpl in E1, E2.
  - injection E1 as <- <- <-. injection E2 as <- <- <-.
    split; [reflexivity |].
    pose proof (deref_alloc_old (copyVars (deref m1 (Vars ctx1))) m1 _ (proj1 Hs1)) as Ho1.
    pose proof (deref_alloc_old (copyVars (deref m2 (Vars ctx2))) m2 _ (proj1 Hs2)) as Ho2.
    unfold related. split; [exact Hs1' |]. split; [exact Hs2' |].
    split. { etransitivity; [exact Ho1 |]. rewrite Hvars. symmetry. exact Ho2. }
    split. { intros k v Hk. apply (Hints k v). rewrite <- Ho1. exact Hk. }
    split; [exact Hrand |]. split; [exact Hro |].
    etransitivity; [exact (statementsOf_query ctx1 uow1 m1 query Hs1) |].
    rewrite Hst, Hvars. symmetry. exact (statementsOf_query ctx2 uow2 m2 query Hs2).
  - destruct (agree_Eval _ ctx1 ctx2 Hints e m1 m2 eq_refl (eq_sym Hvars) Hrand)
      as (r & st & Ev1 & Ev2 & Hint).
    rewrite Ev1 in E1. rewrite Ev2 in E2.
    destruct r as [v | msg | msg]; injection E1 as <- <- <-; injection E2 as <- <- <-;
      (split; [reflexivity |]); unfold related;
      (split; [exact Hs1' |]); (split; [exact Hs2' |]);
      rewrite (statementsOf_frame m1 _ ctx1 uow1 uow1 Hs1 Hf1 eq_refl),
              (statementsOf_frame m2 _ ctx2 uow2 uow2 Hs2 Hf2 eq_refl).
    + assert (D1 : deref (store (Vars ctx1) name v
                            (mkMachine (heap m1) st (globalRand m1))) (Vars ctx1)
                   = <[name := v]> (deref m1 (Vars ctx1)))
        by exact (deref_store_same (Vars ctx1) name v
                    (mkMachine (heap m1) st (globalRand m1)) (proj1 Hs1)).
      assert (D2 : deref (store (Vars ctx2) name v
                            (mkMachine (heap m2) st (globalRand m2))) (Vars ctx2)
                   = <[name := v]> (deref m2 (Vars ctx2)))
        by exact (deref_store_same (Vars ctx2) name v
                    (mkMachine (heap m2) st (globalRand m2)) (proj1 Hs2)).
      split; [rewrite D1, D2, Hvars; reflexivity |].
      split; [| split; [reflexivity | split; [exact Hro | exact Hst]]].
      rewrite D1. intros k x.
      destruct (decide (name = k)) as [-> | Hnk].
      * rewrite lookup_insert_eq. intros [= <-]. apply Hint. reflexivity.
      * rewrite lookup_insert_ne by exact Hnk. apply Hints.
    + split; [exact Hvars |]. split; [exact Hints |].
      split; [reflexivity |]. split; [exact Hro | exact Hst].
    + split; [exact Hvars |]. split; [exact Hints |].
      split; [reflexivity |]. split; [exact Hro | exact Hst].
  - injection E1 as <- <- <-. injection E2 as <- <- <-.
    split; [reflexivity |]. unfold related. auto 10.
Qed.

Lemma runCommands_related cmds : forall ctx1 ctx2 uow1 uow2 (m1 m2 : Machine),
  related ctx1 ctx2 uow1 uow2 m1 m2 ->
  observe (runCommands cmds ctx1 uow1 m1) = observe (runCommands cmds ctx2 uow2 m2).
Proof.
  induction cmds as [| cmd rest IH]; intros ctx1 ctx2 uow1 uow2 m1 m2 Hrel; simpl.
  - destruct Hrel as (_ & _ & _ & _ & Hrand & Hro & Hst). congruence.
  - destruct (Execute cmd ctx1 uow1 m1) as [[r1 uow1'] m1'] eqn:E1.
    destruct (Execute cmd ctx2 uow2 m2) as [[r2 uow2'] m2'] eqn:E2.
    destruct (Execute_related _ _ _ _ _ _ _ Hrel _ _ _ _ _ _ E1 E2) as [<- Hrel'].
    destruct r1 as [[] | msg | msg].
    + apply IH, Hrel'.
    + destruct Hrel' as (_ & _ & _ & _ & Hrand & Hro & Hst). simpl. congruence.
    + destruct Hrel' as (_ & _ & _ & _ & Hrand & Hro & Hst). simpl. congruence.
Qed.

(** With a float among the variables [random] draws from the process-wide
    generator and leaves the client's generator alone: the integers of
    the variables are what keeps [Next] within its own generator. *)
Lemma random_on_floats_draws_globally :
  let m := @mkMachine LcgRand
             [ {[ "a" := VFloat (f64_of_int 1); "b" := VFloat (f64_of_int 2) ]} ] 1337 1 in
  let m' := snd (Expression_Eval (callExpr "random" [varExpr "a"; varExpr "b"]) context0 m) in
  globalRand m' = lcg.next 1 /\ clientRand m' = 1337.
Proof. split; reflexivity. Qed.

(** *** C4: evaluation is deterministic *)

(** C4. Two calls of [Next] on a client workload whose generator has just
    been seeded with the same seed return the same error or panic and the
    same unit of work, statement by statement with the same query and the
    same params, and leave the generator in the same state, whatever the
    two heaps hold and wherever the process-wide generator of [math/rand]
    stands. This covers every parsed workload: the values of the variables
    are integers, [random] on integers draws from the client's generator
    only. *)
Theorem C4_next_is_deterministic (s : ClientWorkload) (seed : Z)
    (h1 h2 : list (gmap string Value)) (g1 g2 : rand.Source) :
  observe (ClientWorkload_Next s (mkMachine h1 (rand.NewSource seed) g1)) =
  observe (ClientWorkload_Next s (mkMachine h2 (rand.NewSource seed) g2)).
Proof.
  rewrite !Next_unfold. apply runCommands_related.
  destruct (newContext_separated s (mkMachine h1 (rand.NewSource seed) g1)) as [Hs1 Hv1].
  destruct (newContext_separated s (mkMachine h2 (rand.NewSource seed) g2)) as [Hs2 Hv2].
  unfold related. repeat split; try apply Hs1; try apply Hs2.
  - rewrite Hv1, Hv2. reflexivity.
  - rewrite Hv1. intros k v Hk. apply lookup_singleton_Some in Hk as [_ <-].
    eexists. reflexivity.
Qed.

End Determinism.

(** ** The parser *)

(** A script with a [\set] and a query: the query text is kept as it is
    written, white space included, without its [;]. *)
Example Parse_set_and_query :
  Parse 30 "f"
    ("\set x random(1, 10) * 3" +:+ String newline ("RETURN  :x;" +:+ String newline EmptyString))
    1 1337 =
  Some (inl (mkWorkload false 1
               [SetCommand "x"
                  (callExpr "*" [callExpr "random" [intExpr 1; intExpr 10]; intExpr 3]);
                QueryCommand "RETURN  :x"],
             1337)).
Proof. reflexivity. Qed.

(** A second [*] is not part of the expression. *)
Example Parse_two_products :
  Parse 30 "f" ("\set x 2 * 3 * 4" +:+ String newline "RETURN 1;") 1 1337 =
  Some (inl (mkWorkload false 1
               [SetCommand "x" (callExpr "*" [intExpr 2; intExpr 3]);
                QueryCommand ("* 4" +:+ String newline "RETURN 1")],
             1337)).
Proof. reflexivity. Qed.

(** *** C3: the [sleep] meta-command *)




(** *** More fuel gives the same result *)

Section ParserFuel.
Context `{SL : scanner.ScannerLib}.

Lemma factorArgs_mono (f g : context -> option (Expression * context)) :
  extends f g ->
  forall n n' args tok c r, (n <= n')%nat ->
    factorArgs f n args tok c = Some r -> factorArgs g n' args tok c = Some r.
Proof.
  intros Hfg n. induction n as [| n IH]; intros n' args tok c r Hle H.
  - destruct n'; simpl in *; destruct (tok =? rune ")"); congruence.
  - destruct n' as [| n']; [lia |]. simpl in *.
    destruct (tok =? rune ")"); [exact H |].
    destruct (f (if (0 <? List.length args)%nat then expect c (rune ",") else c))
      as [[e c2] |] eqn:E; simpl in H; [| discriminate].
    rewrite (Hfg _ _ E). simpl.
    destruct (done c2); [exact H |].
    destruct (context_Peek c2) as [tok' c3]. apply IH; [lia | exact H].
Qed.

Lemma factor_mono (f g : context -> option (Expression * context)) :
  extends f g ->
  forall n n' c r, (n <= n')%nat -> factor f n c = Some r -> factor g n' c = Some r.
Proof.
  intros Hfg n n' c r Hle. unfold factor.
  destruct (context_Next c) as [[tok content] c1].
  destruct (tok =? scanner.Ident); [| trivial].
  destruct (context_Peek (expect c1 (rune "("))) as [tok2 c3].
  destruct (factorArgs f n [] tok2 c3) as [[args c4] |] eqn:E; simpl; [| discriminate].
  rewrite (factorArgs_mono f g Hfg _ _ _ _ _ _ Hle E). simpl. trivial.
Qed.

Lemma exprBody_mono (f g : context -> option (Expression * context)) :
  extends f g ->
  forall n n' c r, (n <= n')%nat -> exprBody f n c = Some r -> exprBody g n' c = Some r.
Proof.
  intros Hfg n n' c r Hle. unfold exprBody, term.
  destruct (factor f n c) as [[lhs c1] |] eqn:E; simpl; [| discriminate].
  rewrite (factor_mono f g Hfg _ _ _ _ Hle E). simpl.
  destruct (context_Peek c1) as [tok c2].
  destruct (tok =? rune "*"); [| trivial].
  destruct (context_Next c2) as [[tok' txt] c3].
  destruct (factor f n c3) as [[rhs c4] |] eqn:E'; simpl; [| discriminate].
  rewrite (factor_mono f g Hfg _ _ _ _ Hle E'). simpl. trivial.
Qed.

Lemma expr_mono n : forall n', (n <= n')%nat -> extends (expr n) (expr n').
Proof.
  induction n as [| n IH]; intros n' Hle c r H; [discriminate |].
  destruct n' as [| n']; [lia |]. simpl in *.
  apply (exprBody_mono (expr n) (expr n') (IH n' ltac:(lia)) n n' c r); [lia | exact H].
Qed.

Lemma metaCommand_mono n n' : (n <= n')%nat -> extends (metaCommand n) (metaCommand n').
Proof.
  intros Hle c r. unfold metaCommand.
  destruct (ident (expect c (rune "\"))) as [cmd c1].
  destruct (String.eqb cmd "set"); [| trivial].
  destruct (ident c1) as [varName c2].
  destruct (expr n c2) as [[e c3] |] eqn:E; simpl; [| discriminate].
  rewrite (expr_mono n n' Hle _ _ E). simpl. trivial.
Qed.

Lemma commandLoop_mono n : forall n' b c r, (n <= n')%nat ->
  commandLoop n b c = Some r -> commandLoop n' b c = Some r.
Proof.
  induction n as [| n IH]; intros n' b c r Hle H; [discriminate |].
  destruct n' as [| n']; [lia |]. simpl in *.
  destruct (context_Next c) as [[tok content] c1].
  destruct (tok =? rune ";"); [exact H |]. apply IH; [lia | exact H].
Qed.

Lemma command_mono n n' : (n <= n')%nat -> extends (command n) (command n').
Proof.
  intros Hle c r. unfold command.
  destruct (commandLoop n EmptyString (setWhitespace 0 c)) as [[b c1] |] eqn:E; simpl;
    [| discriminate].
  rewrite (commandLoop_mono n n' _ _ _ Hle E). simpl. trivial.
Qed.

Lemma parseLoop_mono n : forall n' c cmds r, (n <= n')%nat ->
  parseLoop n c cmds = Some r -> parseLoop n' c cmds = Some r.
Proof.
  induction n as [| n IH]; intros n' c cmds r Hle H; [discriminate |].
  destruct n' as [| n']; [lia |]. simpl in *.
  destruct (done c); [exact H |].
  destruct (context_Peek c) as [tok c1].
  destruct (tok =? scanner.EOF); [exact H |].
  destruct (tok =? rune "\").
  - destruct (metaCommand n c1) as [[cmd c2] |] eqn:E; simpl in H; [| discriminate].
    rewrite (metaCommand_mono n n' ltac:(lia) _ _ E). simpl. apply IH; [lia | exact H].
  - destruct (tok =? rune newline).
    + destruct (context_Next c1) as [[tok' txt] c2]. apply IH; [lia | exact H].
    + destruct (command n c1) as [[cmd c2] |] eqn:E; simpl in H; [| discriminate].
      rewrite (command_mono n n' ltac:(lia) _ _ E). simpl. apply IH; [lia | exact H].
Qed.

(** The result does not depend on the fuel. *)
Lemma metaCommand_fuel n n' c r r' :
  metaCommand n c = Some r -> metaCommand n' c = Some r' -> r = r'.
Proof.
  intros H H'.
  pose proof (metaCommand_mono n (Nat.max n n') ltac:(lia) _ _ H) as E.
  pose proof (metaCommand_mono n' (Nat.max n n') ltac:(lia) _ _ H') as E'.
  congruence.
Qed.

Lemma command_fuel n n' c r r' :
  command n c = Some r -> command n' c = Some r' -> r = r'.
Proof.
  intros H H'.
  pose proof (command_mono n (Nat.max n n') ltac:(lia) _ _ H) as E.
  pose proof (command_mono n' (Nat.max n n') ltac:(lia) _ _ H') as E'.
  congruence.
Qed.

(** *** The loop of [command] and the next [;] *)

Lemma commandLoop_semicolon k : forall b c,
  semicolonAt k c = true -> exists r, commandLoop (S k) b c = Some r.
Proof.
  induction k as [| k IH]; intros b c H; simpl in *.
  - destruct (context_Next c) as [[tok content] c1]. rewrite H. eauto.
  - destruct (context_Next c) as [[tok content] c1].
    apply andb_true_iff in H as [Hne Hk]. apply negb_true_iff in Hne. rewrite Hne.
    apply (IH (b +:+ content) c1 Hk).
Qed.

Lemma commandLoop_Some n : forall b c r,
  commandLoop n b c = Some r -> exists k, semicolonAt k c = true.
Proof.
  induction n as [| n IH]; intros b c r H; [discriminate |]. simpl in H.
  destruct (context_Next c) as [[tok content] c1] eqn:E.
  destruct (tok =? rune ";") eqn:Htok.
  - exists 0%nat. simpl. rewrite E. exact Htok.
  - destruct (IH _ _ _ H) as [k Hk]. exists (S k). simpl. rewrite E, Htok. exact Hk.
Qed.

(** At the end of the text the loop of [command] goes on for ever: with
    no [;] ahead, no fuel is enough. *)
Lemma commandLoop_diverges n : forall b c,
  (forall k, semicolonAt k c = false) -> commandLoop n b c = None.
Proof.
  intros b c Hno. destruct (commandLoop n b c) as [r |] eqn:E; [| reflexivity].
  destruct (commandLoop_Some _ _ _ _ E) as [k Hk]. rewrite Hno in Hk. discriminate.
Qed.

End ParserFuel.

(** *** The parser uses up the text *)

Section ParserProgress.
Context `{SL : scanner.ScannerLib}.
Variable remaining : scanner.source -> nat.
Hypothesis Hremaining :
  forall ws src0 tok txt src1, scanner.Scan ws src0 = (tok, txt, src1) ->
    (remaining src1 <= remaining src0)%nat /\
    (tok <> scanner.EOF -> (remaining src1 < remaining src0)%nat).

Lemma advanced_refl c : advanced remaining c c.
Proof. split; auto. Qed.

Lemma advanced_trans c1 c2 c3 :
  advanced remaining c1 c2 -> advanced remaining c2 c3 -> advanced remaining c1 c3.
Proof. intros [H1 D1] [H2 D2]. split; [lia | auto]. Qed.

Lemma strictly_then_advanced c1 c2 c3 :
  strictly remaining c1 c2 -> advanced remaining c2 c3 -> strictly remaining c1 c3.
Proof.
  intros [[H1 D1] S1] [H2 D2]. split; [split; [lia | auto] |].
  intros Hd. destruct (done c2) eqn:E; [rewrite D2 in Hd; congruence |].
  specialize (S1 eq_refl). lia.
Qed.

Lemma advanced_then_strictly c1 c2 c3 :
  advanced remaining c1 c2 -> strictly remaining c2 c3 -> strictly remaining c1 c3.
Proof.
  intros [H1 D1] [[H2 D2] S2]. split; [split; [lia | auto] |].
  intros Hd. specialize (S2 Hd). lia.
Qed.

Lemma Next_progress c tok txt c' :
  context_Next c = (tok, txt, c') ->
  advanced remaining c c' /\
  (tok <> scanner.EOF -> (pendingSize remaining c' < pendingSize remaining c)%nat) /\
  (tok = scanner.EOF -> done c' = true).
Proof.
  unfold context_Next, advanced, pendingSize.
  destruct (peek c =? 0) eqn:Hp; simpl.
  - unfold scan.
    destruct (scanner.Scan (scanner.Whitespace (s c)) (scanner.src (s c)))
      as [[next text] src1] eqn:Hscan.
    intros [= <- <- <-]. simpl. rewrite Hp. simpl.
    destruct (Hremaining _ _ _ _ _ Hscan) as [Hle Hlt].
    split; [split | split].
    + lia.
    + intros Hd. rewrite Hd. destruct (next =? scanner.EOF); reflexivity.
    + intros Hne. specialize (Hlt Hne). lia.
    + intros ->. reflexivity.
  - intros [= <- <- <-]. simpl.
    destruct (peek c =? scanner.EOF) eqn:He; (split; [split | split]); try lia; auto.
    all: try (intros Hne; apply Z.eqb_eq in He; congruence).
    all: try (intros He'; apply Z.eqb_neq in He; congruence).
Qed.

Lemma Next_strictly c tok txt c' :
  context_Next c = (tok, txt, c') -> strictly remaining c c'.
Proof.
  intros H. destruct (Next_progress _ _ _ _ H) as (Ha & Hlt & Heof).
  split; [exact Ha |]. intros Hd. apply Hlt. intros ->.
  rewrite (Heof eq_refl) in Hd. discriminate.
Qed.

Lemma Peek_advanced c tok c' :
  context_Peek c = (tok, c') -> advanced remaining c c'.
Proof.
  unfold context_Peek, advanced, pendingSize.
  destruct (peek c =? 0) eqn:Hp.
  - unfold scan.
    destruct (scanner.Scan (scanner.Whitespace (s c)) (scanner.src (s c)))
      as [[next text] src1] eqn:Hscan.
    intros [= <- <-]. simpl.
    destruct (Hremaining _ _ _ _ _ Hscan) as [Hle Hlt].
    split; [| auto].
    destruct (next =? scanner.EOF) eqn:He.
    + rewrite orb_true_r. lia.
    + apply Z.eqb_neq in He. specialize (Hlt He).
      destruct (next =? 0); simpl; lia.
  - intros [= <- <-]. rewrite Hp. split; [lia | auto].
Qed.

Lemma fail_advanced e c : advanced remaining c (context_fail e c).
Proof. unfold context_fail. destruct (err c); split; simpl; auto. Qed.

Lemma fail_done e c : done (context_fail e c) = true.
Proof. unfold context_fail. destruct (err c); reflexivity. Qed.

Lemma fail_strictly e c : strictly remaining c (context_fail e c).
Proof.
  split; [apply fail_advanced |]. rewrite fail_done. discriminate.
Qed.

Lemma expect_strictly c expected : strictly remaining c (expect c expected).
Proof.
  unfold expect. destruct (context_Next c) as [[tok txt] c1] eqn:E.
  pose proof (Next_strictly _ _ _ _ E) as Hs.
  destruct (negb (tok =? expected)); [| exact Hs].
  eapply strictly_then_advanced; [exact Hs | apply fail_advanced].
Qed.

Lemma ident_strictly c : strictly remaining c (snd (ident c)).
Proof.
  unfold ident. destruct (context_Next c) as [[tok txt] c1] eqn:E.
  pose proof (Next_strictly _ _ _ _ E) as Hs.
  destruct (negb (tok =? scanner.Ident)); simpl; [| exact Hs].
  eapply strictly_then_advanced; [exact Hs | apply fail_advanced].
Qed.

Section Bodies.
Variable f : context -> option (Expression * context).
Hypothesis Hf : forall c e c', f c = Some (e, c') -> strictly remaining c c'.

Lemma factorArgs_advanced n : forall args tok c res c',
  factorArgs f n args tok c = Some (res, c') -> advanced remaining c c'.
Proof.
  induction n as [| n IH]; intros args tok c res c' H; simpl in H.
  - destruct (tok =? rune ")"); [| discriminate].
    injection H as <- <-. apply advanced_refl.
  - destruct (tok =? rune ")"); [injection H as <- <-; apply advanced_refl |].
    set (c1 := if (0 <? List.length args)%nat then expect c (rune ",") else c) in *.
    assert (H1 : advanced remaining c c1).
    { unfold c1. destruct (0 <? List.length args)%nat;
        [apply expect_strictly | apply advanced_refl]. }
    destruct (f c1) as [[e c2] |] eqn:E; simpl in H; [| discriminate].
    pose proof (Hf _ _ _ E) as [H2 _].
    destruct (done c2).
    + injection H as <- <-. eapply advanced_trans; eassumption.
    + destruct (context_Peek c2) as [tok' c3] eqn:Ep.
      pose proof (Peek_advanced _ _ _ Ep) as H3.
      pose proof (IH _ _ _ _ _ H) as H4.
      eapply advanced_trans; [exact H1 |].
      eapply advanced_trans; [exact H2 |].
      eapply advanced_trans; eassumption.
Qed.

Lemma factor_strictly n c e c' :
  factor f n c = Some (e, c') -> strictly remaining c c'.
Proof.
  unfold factor. destruct (context_Next c) as [[tok content] c1] eqn:E.
  pose proof (Next_strictly _ _ _ _ E) as Hs.
  destruct (tok =? scanner.Ident).
  - destruct (context_Peek (expect c1 (rune "("))) as [tok2 c3] eqn:Ep.
    pose proof (Peek_advanced _ _ _ Ep) as H3.
    pose proof (expect_strictly c1 (rune "(")) as [H2 _].
    destruct (factorArgs f n [] tok2 c3) as [[args c4] |] eqn:Ea; simpl; [| discriminate].
    pose proof (factorArgs_advanced _ _ _ _ _ _ Ea) as H4.
    assert (H14 : strictly remaining c c4).
    { eapply strictly_then_advanced; [exact Hs |].
      eapply advanced_trans; [exact H2 |]. eapply advanced_trans; eassumption. }
    destruct args as [args |].
    + destruct (context_Next c4) as [[tok5 txt5] c5] eqn:E5.
      intros [= <- <-].
      eapply strictly_then_advanced; [exact H14 | apply (Next_strictly _ _ _ _ E5)].
    + intros [= <- <-]. exact H14.
  - destruct (tok =? scanner.Int).
    + destruct (Atoi content); intros [= <- <-]; [exact Hs |].
      eapply strictly_then_advanced; [exact Hs | apply fail_advanced].
    + destruct (tok =? rune "-").
      * destruct (context_Next c1) as [[tok2 content2] c2] eqn:E2.
        pose proof (Next_strictly _ _ _ _ E2) as [H2 _].
        assert (H12 : strictly remaining c c2)
          by (eapply strictly_then_advanced; eassumption).
        destruct (tok2 =? scanner.Int).
        -- destruct (Atoi content2); intros [= <- <-]; [exact H12 |].
           eapply strictly_then_advanced; [exact H12 | apply fail_advanced].
        -- intros [= <- <-].
           eapply strictly_then_advanced; [exact H12 | apply fail_advanced].
      * destruct (tok =? rune ":").
        -- pose proof (ident_strictly c1) as [H2 _].
           destruct (ident c1) as [varName c2]. intros [= <- <-].
           eapply strictly_then_advanced; eassumption.
        -- intros [= <- <-].
           eapply strictly_then_advanced; [exact Hs | apply fail_advanced].
Qed.

Lemma exprBody_strictly n c e c' :
  exprBody f n c = Some (e, c') -> strictly remaining c c'.
Proof.
  unfold exprBody, term.
  destruct (factor f n c) as [[lhs c1] |] eqn:E; simpl; [| discriminate].
  pose proof (factor_strictly _ _ _ _ E) as H1.
  destruct (context_Peek c1) as [tok c2] eqn:Ep.
  pose proof (Peek_advanced _ _ _ Ep) as H2.
  assert (H12 : strictly remaining c c2)
    by (eapply strictly_then_advanced; eassumption).
  destruct (tok =? rune "*"); [| intros [= <- <-]; exact H12].
  destruct (context_Next c2) as [[tok3 txt3] c3] eqn:E3.
  pose proof (Next_strictly _ _ _ _ E3) as [H3 _].
  destruct (factor f n c3) as [[rhs c4] |] eqn:E4; simpl; [| discriminate].
  pose proof (factor_strictly _ _ _ _ E4) as [H4 _].
  intros [= <- <-].
  eapply strictly_then_advanced; [exact H12 |].
  eapply advanced_trans; eassumption.
Qed.

End Bodies.

Lemma expr_strictly n : forall c e c',
  expr n c = Some (e, c') -> strictly remaining c c'.
Proof.
  induction n as [| n IH]; intros c e c' H; [discriminate |].
  simpl in H. apply (exprBody_strictly (expr n) IH n c e c' H).
Qed.

(** *** Expressions and meta-commands always return *)

Lemma factorArgs_terminates bound :
  (forall c, (pendingSize remaining c < bound)%nat -> exists n r, expr n c = Some r) ->
  forall k c, (pendingSize remaining c <= k)%nat -> (pendingSize remaining c < bound)%nat ->
  forall args tok, exists n r, factorArgs (expr n) n args tok c = Some r.
Proof.
  intros Hexpr k. induction k as [| k IH]; intros c Hk Hb args tok.
  - destruct (tok =? rune ")") eqn:Htok.
    { exists 0%nat. eexists. simpl. rewrite Htok. reflexivity. }
    set (c1 := if (0 <? List.length args)%nat then expect c (rune ",") else c).
    assert (H1 : advanced remaining c c1).
    { unfold c1. destruct (0 <? List.length args)%nat;
        [apply expect_strictly | apply advanced_refl]. }
    destruct (Hexpr c1) as (n1 & [e c2] & E1); [destruct H1; lia |].
    pose proof (expr_strictly _ _ _ _ E1) as [_ H2].
    exists (S n1). eexists. cbn [factorArgs]. rewrite Htok. fold c1.
    rewrite (expr_mono n1 (S n1) ltac:(lia) _ _ E1). cbn [mbind option_bind].
    destruct (done c2) eqn:Hd; [reflexivity |].
    specialize (H2 eq_refl). destruct H1. lia.
  - destruct (tok =? rune ")") eqn:Htok.
    { exists 0%nat. eexists. simpl. rewrite Htok. reflexivity. }
    set (c1 := if (0 <? List.length args)%nat then expect c (rune ",") else c).
    assert (H1 : advanced remaining c c1).
    { unfold c1. destruct (0 <? List.length args)%nat;
        [apply expect_strictly | apply advanced_refl]. }
    destruct (Hexpr c1) as (n1 & [e c2] & E1); [destruct H1; lia |].
    pose proof (expr_strictly _ _ _ _ E1) as [_ H2].
    destruct (done c2) eqn:Hd.
    + exists (S n1). eexists. cbn [factorArgs]. rewrite Htok. fold c1.
      rewrite (expr_mono n1 (S n1) ltac:(lia) _ _ E1). cbn [mbind option_bind].
      rewrite Hd. reflexivity.
    + specialize (H2 eq_refl).
      destruct (context_Peek c2) as [tok' c3] eqn:Ep.
      pose proof (Peek_advanced _ _ _ Ep) as [H3 _].
      destruct (IH c3 ltac:(destruct H1; lia) ltac:(destruct H1; lia) (args ++ [e]) tok')
        as (n2 & r & E2).
      exists (S (Nat.max n1 n2)), r. cbn [factorArgs]. rewrite Htok. fold c1.
      rewrite (expr_mono n1 (S (Nat.max n1 n2)) ltac:(lia) _ _ E1).
      cbn [mbind option_bind]. rewrite Hd, Ep.
      apply (factorArgs_mono (expr n2) (expr (S (Nat.max n1 n2)))
               (expr_mono n2 (S (Nat.max n1 n2)) ltac:(lia)) n2 (Nat.max n1 n2));
        [lia | exact E2].
Qed.

Lemma factor_terminates c :
  (forall c', (pendingSize remaining c' < pendingSize remaining c)%nat -> exists n r, expr n c' = Some r) ->
  exists n r, factor (expr n) n c = Some r.
Proof.
  intros Hexpr. unfold factor.
  destruct (context_Next c) as [[tok content] c1] eqn:E.
  destruct (Next_progress _ _ _ _ E) as (_ & Hlt & _).
  destruct (tok =? scanner.Ident) eqn:Htok.
  - apply Z.eqb_eq in Htok. specialize (Hlt ltac:(rewrite Htok; discriminate)).
    destruct (context_Peek (expect c1 (rune "("))) as [tok2 c3] eqn:Ep.
    pose proof (Peek_advanced _ _ _ Ep) as [H3 _].
    pose proof (expect_strictly c1 (rune "(")) as [[H2 _] _].
    destruct (factorArgs_terminates (pendingSize remaining c) Hexpr (pendingSize remaining c3) c3 ltac:(lia) ltac:(lia) [] tok2)
      as (n & [args c4] & Ea).
    exists n. rewrite Ea. cbn [mbind option_bind].
    destruct args; [destruct (context_Next c4) as [[? ?] ?] |]; eauto.
  - exists 0%nat.
    destruct (tok =? scanner.Int); [destruct (Atoi content); eauto |].
    destruct (tok =? rune "-").
    + destruct (context_Next c1) as [[tok2 content2] c2].
      destruct (tok2 =? scanner.Int); [destruct (Atoi content2) |]; eauto.
    + destruct (tok =? rune ":"); [destruct (ident c1) |]; eauto.
Qed.

Lemma expr_terminates k : forall c, (pendingSize remaining c <= k)%nat -> exists n r, expr n c = Some r.
Proof.
  induction k as [k IH] using lt_wf_ind. intros c Hk.
  assert (Hsmaller : forall c', (pendingSize remaining c' < pendingSize remaining c)%nat -> exists n r, expr n c' = Some r).
  { intros c' Hc'. apply (IH (pendingSize remaining c')); lia. }
  destruct (factor_terminates c Hsmaller) as (n1 & [lhs c1] & E1).
  pose proof (factor_strictly (expr n1) (expr_strictly n1) _ _ _ _ E1) as [[H1 _] _].
  destruct (context_Peek c1) as [tok c2] eqn:Ep.
  pose proof (Peek_advanced _ _ _ Ep) as [H2 _].
  destruct (tok =? rune "*") eqn:Htok.
  - destruct (context_Next c2) as [[tok3 txt3] c3] eqn:E3.
    destruct (Next_progress _ _ _ _ E3) as ([H3 _] & _ & _).
    destruct (factor_terminates c3) as (n2 & [rhs c4] & E4).
    { intros c' Hc'. apply Hsmaller. lia. }
    exists (S (Nat.max n1 n2)). eexists. cbn [expr]. unfold exprBody, term.
    rewrite (factor_mono (expr n1) (expr (Nat.max n1 n2)) (expr_mono n1 (Nat.max n1 n2) ltac:(lia))
               n1 (Nat.max n1 n2) c _ ltac:(lia) E1).
    cbn [mbind option_bind]. rewrite Ep, Htok, E3.
    rewrite (factor_mono (expr n2) (expr (Nat.max n1 n2)) (expr_mono n2 (Nat.max n1 n2) ltac:(lia))
               n2 (Nat.max n1 n2) c3 _ ltac:(lia) E4).
    reflexivity.
  - exists (S n1). eexists. cbn [expr]. unfold exprBody, term.
    rewrite E1. cbn [mbind option_bind]. rewrite Ep, Htok. reflexivity.
Qed.

Lemma metaCommand_terminates c : exists n r, metaCommand n c = Some r.
Proof.
  unfold metaCommand.
  destruct (ident (expect c (rune "\"))) as [cmd c1].
  destruct (String.eqb cmd "set"); [| exists 0%nat; eauto].
  destruct (ident c1) as [varName c2].
  destruct (expr_terminates (pendingSize remaining c2) c2 ltac:(lia)) as (n & [e c3] & E).
  exists n. rewrite E. eauto.
Qed.

End ParserProgress.

(** *** C9: when [Parse] returns *)

Section ParseReturns.
Context `{SL : scanner.ScannerLib}.

Lemma parseLoop_QueriesClosed n : forall c cmds r,
  parseLoop n c cmds = Some r -> QueriesClosed c.
Proof.
  induction n as [| n IH]; intros c cmds r H; [discriminate |]. simpl in H.
  destruct (done c) eqn:Hd; [apply QC_done, Hd |].
  destruct (context_Peek c) as [tok c1] eqn:Ep.
  destruct (tok =? scanner.EOF) eqn:Heof.
  { apply Z.eqb_eq in Heof. subst tok. eapply QC_eof; eassumption. }
  destruct (tok =? rune "\") eqn:Hmeta.
  { apply Z.eqb_eq in Hmeta. subst tok.
    destruct (metaCommand n c1) as [[cmd c2] |] eqn:Em; simpl in H; [| discriminate].
    eapply QC_meta; [exact Hd | exact Ep |].
    intros fuel cmd' c2' Em'.
    pose proof (metaCommand_fuel _ _ _ _ _ Em Em') as [= <- <-].
    apply (IH _ _ _ H). }
  destruct (tok =? rune newline) eqn:Hnl.
  { apply Z.eqb_eq in Hnl. subst tok.
    destruct (context_Next c1) as [[tok' txt] c2] eqn:En.
    eapply QC_newline; [exact Hd | exact Ep | exact En | apply (IH _ _ _ H)]. }
  destruct (command n c1) as [[cmd c2] |] eqn:Ec; simpl in H; [| discriminate].
  assert (Hsemi : exists k, semicolonAt k (setWhitespace 0 c1) = true).
  { unfold command in Ec.
    destruct (commandLoop n EmptyString (setWhitespace 0 c1)) as [[b c3] |] eqn:El;
      [| discriminate].
    apply (commandLoop_Some _ _ _ _ El). }
  destruct Hsemi as [k Hk].
  apply Z.eqb_neq in Heof, Hmeta, Hnl.
  eapply (QC_query c tok c1 k); try eassumption.
  intros fuel cmd' c2' Ec'.
  pose proof (command_fuel _ _ _ _ _ Ec Ec') as [= <- <-].
  apply (IH _ _ _ H).
Qed.

(** A query that the loop comes to and that no [;] follows: [Parse] does
    not return, whatever the fuel. *)
Lemma unclosed_query_diverges c tok c1 cmds :
  done c = false -> context_Peek c = (tok, c1) ->
  tok <> scanner.EOF -> tok <> rune "\" -> tok <> rune newline ->
  (forall k, semicolonAt k (setWhitespace 0 c1) = false) ->
  forall fuel, parseLoop fuel c cmds = None.
Proof.
  intros Hd Ep Heof Hmeta Hnl Hno [| n]; [reflexivity |]. simpl.
  rewrite Hd, Ep.
  apply Z.eqb_neq in Heof, Hmeta, Hnl. rewrite Heof, Hmeta, Hnl.
  unfold command. rewrite (commandLoop_diverges n _ _ Hno). reflexivity.
Qed.

Lemma QueriesClosed_parseLoop :
  scanner.FiniteText ->
  forall c, QueriesClosed c -> forall cmds, exists n r, parseLoop n c cmds = Some r.
Proof.
  intros [remaining Hremaining] c HQ.
  induction HQ as [c Hd | c c1 Hd Ep | c c1 Hd Ep _ IH | c c1 tok txt c2 Hd Ep En _ IH
                  | c tok c1 k Hd Ep Heof Hmeta Hnl Hk _ IH]; intros cmds.
  - exists 1%nat. eexists. simpl. rewrite Hd. reflexivity.
  - exists 1%nat. eexists. simpl. rewrite Hd, Ep. reflexivity.
  - destruct (metaCommand_terminates remaining Hremaining c1) as (n1 & [cmd c2] & Em).
    destruct (IH _ _ _ Em (cmds ++ [cmd])) as (n2 & r & E2).
    exists (S (Nat.max n1 n2)), r. simpl. rewrite Hd, Ep.
    change (rune "\" =? scanner.EOF) with false. rewrite Z.eqb_refl.
    rewrite (metaCommand_mono n1 (Nat.max n1 n2) ltac:(lia) _ _ Em). simpl.
    apply (parseLoop_mono n2); [lia | exact E2].
  - destruct (IH cmds) as (n & r & E).
    exists (S n), r. simpl. rewrite Hd, Ep.
    change (rune newline =? scanner.EOF) with false.
    change (rune newline =? rune "\") with false. rewrite Z.eqb_refl, En. exact E.
  - destruct (commandLoop_semicolon k EmptyString _ Hk) as [[b c3] El].
    assert (Ec : command (S k) c1 =
                 Some (QueryCommand b,
                       setWhitespace (scanner.Whitespace (s c1)) c3)).
    { unfold command. rewrite El. reflexivity. }
    destruct (IH _ _ _ Ec (cmds ++ [QueryCommand b])) as (n2 & r & E2).
    exists (S (Nat.max (S k) n2)), r. simpl parseLoop. rewrite Hd, Ep.
    apply Z.eqb_neq in Heof, Hmeta, Hnl. rewrite Heof, Hmeta, Hnl.
    rewrite (command_mono (S k) (Nat.max (S k) n2) ltac:(lia) _ _ Ec). simpl.
    apply (parseLoop_mono n2); [lia | exact E2].
Qed.

(** C9, as the code has it. Over a finite text, [Parse] returns if and
    only if every query that its loop comes to is followed by a [;] before
    the end of the text; a parse error stops the loop, and a query after
    the error is never come to. The loop of [command] reads tokens until
    it sees [;] and does not stop at the end of the text: as soon as the
    loop of [Parse] comes to a query with no [;] ahead, [Parse] never
    returns. *)
Theorem C9_parse_returns_iff_queries_closed (filename script : string) (scale seed : Z) :
  scanner.FiniteText ->
  ((exists fuel r, Parse fuel filename script scale seed = Some r) <->
   QueriesClosed (initialContext filename script)) /\
  (~ QueriesClosed (initialContext filename script) ->
   forall fuel, Parse fuel filename script scale seed = None) /\
  (forall tok c1,
     context_Peek (initialContext filename script) = (tok, c1) ->
     tok <> scanner.EOF -> tok <> rune "\" -> tok <> rune newline ->
     (forall k, semicolonAt k (setWhitespace 0 c1) = false) ->
     forall fuel, Parse fuel filename script scale seed = None).
Proof.
  intros Hfinite.
  assert (Hiff : (exists fuel r, Parse fuel filename script scale seed = Some r) <->
                 QueriesClosed (initialContext filename script)).
  { split.
    - intros (fuel & r & H). unfold Parse in H.
      destruct (parseLoop fuel (initialContext filename script) []) as [[cmds c] |] eqn:E;
        [| discriminate].
      apply (parseLoop_QueriesClosed _ _ _ _ E).
    - intros HQ.
      destruct (QueriesClosed_parseLoop Hfinite _ HQ []) as (n & [cmds c] & E).
      exists n. unfold Parse. rewrite E. simpl. destruct (err c); eauto. }
  split; [exact Hiff |]. split.
  - intros Hnot fuel.
    destruct (Parse fuel filename script scale seed) as [r |] eqn:E; [| reflexivity].
    exfalso. apply Hnot, Hiff. eauto.
  - intros tok c1 Ep Heof Hmeta Hnl Hno fuel. unfold Parse.
    rewrite (unclosed_query_diverges (initialContext filename script) tok c1 []
               eq_refl Ep Heof Hmeta Hnl Hno fuel).
    reflexivity.
Qed.

End ParseReturns.

(** The text left to [SimpleScanner] gets shorter with every token. *)
Lemma skipWhitespace_length ws txt : forall l c,
  (String.length (simple.rest (simple.skipWhitespace ws txt l c)) <= String.length txt)%nat.
Proof.
  induction txt as [| ch r IH]; intros l c; simpl; [lia |].
  destruct (simple.isWhitespace ws ch); [| simpl; lia].
  destruct (codeOf ch =? 10); [specialize (IH (l + 1)%N 1%N) | specialize (IH l (c + 1)%N)];
    lia.
Qed.

Lemma span_length p txt :
  (String.length (snd (simple.span p txt)) <= String.length txt)%nat.
Proof.
  induction txt as [| ch r IH]; simpl; [lia |].
  destruct (p ch); [| simpl; lia].
  destruct (simple.span p r) as [a b]. simpl in *. lia.
Qed.

Lemma simple_finite_text : @scanner.FiniteText SimpleScanner.
Proof.
  exists (fun src0 => String.length (simple.rest src0)).
  intros ws src0 tok txt src1. simpl. unfold simple.Scan.
  pose proof (skipWhitespace_length ws (simple.rest src0) (simple.line src0)
                (simple.column src0)) as Hskip.
  destruct (simple.skipWhitespace ws (simple.rest src0) (simple.line src0)
              (simple.column src0)) as [txt1 l1 c1]. simpl in *.
  destruct txt1 as [| ch r]; simpl in Hskip.
  - intros [= <- <- <-]. simpl. split; [lia | congruence].
  - destruct (simple.isIdentRune ch true).
    + pose proof (span_length (fun x => simple.isIdentRune x false) r) as Hspan.
      destruct (simple.span _ r) as [a b]. intros [= <- <- <-]. simpl in *. lia.
    + destruct (simple.isDecimal ch).
      * pose proof (span_length simple.isDecimal r) as Hspan.
        destruct (simple.span _ r) as [a b]. intros [= <- <- <-]. simpl in *. lia.
      * intros [= <- <- <-]. unfold simple.advance. simpl.
        destruct (codeOf ch =? 10); simpl; lia.
Qed.

(** At the end of the text [SimpleScanner] gives [EOF] again and again,
    never a [;]. *)
Lemma semicolonAt_end_of_text k : forall c : @context SimpleScanner,
  peek c = 0 -> simple.rest (scanner.src (s c)) = EmptyString ->
  semicolonAt k c = false.
Proof.
  induction k as [| k IH]; intros [[[r l col] fn ws] pk pt d e] Hpeek Hrest;
    simpl in Hpeek, Hrest; subst pk r.
  - reflexivity.
  - cbn [semicolonAt]. unfold context_Next. cbn [peek Z.eqb negb].
    unfold scan. cbn [s scanner.src scanner.Whitespace scanner.Scan SimpleScanner].
    unfold simple.Scan. cbn [simple.rest simple.line simple.column simple.skipWhitespace].
    cbn [negb andb]. change (scanner.EOF =? rune ";") with false. cbn [negb andb].
    apply IH; reflexivity.
Qed.

(** A query without its [;]: [Parse] does not return. *)
Example Parse_unclosed_query_never_returns (fuel : nat) :
  Parse fuel "f" "RETURN 1" 1 1337 = None.
Proof.
  unfold Parse.
  erewrite (unclosed_query_diverges (initialContext "f" "RETURN 1") scanner.Ident);
    [reflexivity | reflexivity | reflexivity | discriminate | discriminate | discriminate |].
  intros [| [| [| k]]]; try reflexivity.
  cbn [semicolonAt]. cbv -[semicolonAt].
  apply semicolonAt_end_of_text; reflexivity.
Qed.

(** C9 fails as stated: no [;] occurs in the script below, whose last line
    is a query, and [Parse] returns, with the error of the first line. *)
Lemma C9_counterexample :
  String.index 0 ";" ("\bad" +:+ String newline "RETURN 1") = None /\
  Parse 3 "f" ("\bad" +:+ String newline "RETURN 1") 1 1337 =
    Some (inr "unexpected meta command: 'bad' (at f:1:5)").
Proof. split; reflexivity. Qed.

Lemma C9_witness :
  ((exists fuel r, Parse fuel "f" "RETURN 1;" 1 1337 = Some r) <->
   QueriesClosed (initialContext "f" "RETURN 1;")) /\
  (~ QueriesClosed (initialContext "f" "RETURN 1;") ->
   forall fuel, Parse fuel "f" "RETURN 1;" 1 1337 = None) /\
  (forall tok c1,
     context_Peek (initialContext "f" "RETURN 1;") = (tok, c1) ->
     tok <> scanner.EOF -> tok <> rune "\" -> tok <> rune newline ->
     (forall k, semicolonAt k (setWhitespace 0 c1) = false) ->
     forall fuel, Parse fuel "f" "RETURN 1;" 1 1337 = None).
Proof.
  exact (@C9_parse_returns_iff_queries_closed SimpleScanner "f" "RETURN 1;" 1 1337
           simple_finite_text).
Defined.

(** *** C1: the expression grammar *)

(** A decimal literal is read back as the number it writes. *)
Lemma Atoi_formatNat n :
  Z.of_N n <= maxInt64 -> Atoi (formatNat n) = inl (Z.of_N n).
Proof.
  intros Hn. unfold Atoi, formatNat.
  assert (Hnil : N.to_uint n <> Decimal.Nil).
  { destruct n as [| p]; [discriminate |]. simpl.
    intros H. apply (f_equal Pos.of_uint) in H.
    rewrite DecimalPos.Unsigned.of_to in H. discriminate. }
  assert (Hsign :
    match NilZero.string_of_uint (N.to_uint n) with
    | String "-" r => (true, r)
    | String "+" r => (false, r)
    | _ => (false, NilZero.string_of_uint (N.to_uint n))
    end = (false, NilZero.string_of_uint (N.to_uint n))).
  { destruct (N.to_uint n); try congruence; reflexivity. }
  rewrite Hsign, (NilZero.usu _ Hnil), DecimalN.Unsigned.of_to.
  destruct (Z.leb_spec minInt64 (Z.of_N n)) as [_ | Hlt];
    [| unfold minInt64 in Hlt; lia].
  destruct (Z.leb_spec (Z.of_N n) maxInt64) as [_ | Hgt]; [reflexivity | lia].
Qed.

Section Accepts.
Context `{SL : scanner.ScannerLib}.

Lemma sameParser_refl c : sameParser c c.
Proof. repeat split. Qed.

Lemma sameParser_trans c1 c2 c3 :
  sameParser c1 c2 -> sameParser c2 c3 -> sameParser c1 c3.
Proof.
  intros (F1 & W1 & D1 & E1) (F2 & W2 & D2 & E2). repeat split; congruence.
Qed.

Lemma Next_pending c t x toks src' :
  pending c ((t, x) :: toks) src' -> t <> 0 -> t <> scanner.EOF ->
  exists c1, context_Next c = (t, x, c1) /\ peek c1 = 0 /\
             pending c1 toks src' /\ sameParser c c1.
Proof.
  unfold pending, context_Next. intros Hp Ht0 Hteof.
  destruct (peek c =? 0) eqn:Hpeek; simpl.
  - inversion Hp as [| ? ? ? src1 ? ? Hscan Hrest]; subst.
    unfold scan. rewrite Hscan. eexists. split; [reflexivity |].
    apply Z.eqb_eq in Hpeek. simpl. rewrite Hpeek. simpl.
    split; [reflexivity |]. split; [exact Hrest |].
    apply Z.eqb_neq in Hteof. rewrite Hteof. repeat split.
  - destruct Hp as (-> & -> & Hrest). eexists. split; [reflexivity |]. simpl.
    split; [reflexivity |]. split; [exact Hrest |].
    apply Z.eqb_neq in Hteof. rewrite Hteof. repeat split.
Qed.

Lemma Peek_pending c t x toks src' :
  pending c ((t, x) :: toks) src' -> t <> 0 ->
  exists c1, context_Peek c = (t, c1) /\ peek c1 = t /\ peekText c1 = x /\
             pending c1 ((t, x) :: toks) src' /\ sameParser c c1.
Proof.
  unfold pending, context_Peek. intros Hp Ht0.
  destruct (peek c =? 0) eqn:Hpeek.
  - inversion Hp as [| ? ? ? src1 ? ? Hscan Hrest]; subst.
    unfold scan. rewrite Hscan. eexists. split; [reflexivity |]. simpl.
    apply Z.eqb_neq in Ht0. rewrite Ht0.
    repeat split. exact Hrest.
  - destruct Hp as (-> & -> & Hrest). eexists. split; [reflexivity |].
    rewrite Hpeek. repeat split. exact Hrest.
Qed.

Lemma expect_pending c t x toks src' :
  pending c ((t, x) :: toks) src' -> t <> 0 -> t <> scanner.EOF ->
  peek (expect c t) = 0 /\ pending (expect c t) toks src' /\ sameParser c (expect c t).
Proof.
  intros Hp Ht0 Hteof.
  destruct (Next_pending _ _ _ _ _ Hp Ht0 Hteof) as (c1 & En & Hpeek & Hp1 & Hs).
  unfold expect. rewrite En, Z.eqb_refl. simpl. auto.
Qed.

Lemma ident_pending c x toks src' :
  pending c ((scanner.Ident, x) :: toks) src' ->
  exists c1, ident c = (x, c1) /\ peek c1 = 0 /\ pending c1 toks src' /\ sameParser c c1.
Proof.
  intros Hp.
  destruct (Next_pending _ _ _ _ _ Hp ltac:(discriminate) ltac:(discriminate))
    as (c1 & En & Hpeek & Hp1 & Hs).
  unfold ident. rewrite En, Z.eqb_refl. simpl. eauto.
Qed.

Lemma startsFactor_facts t :
  startsFactor t ->
  t <> 0 /\ t <> scanner.EOF /\ t <> rune ")" /\ t <> rune "*".
Proof. intros [-> | [-> | [-> | ->]]]; repeat split; discriminate. Qed.

Lemma tokens_factor_head e :
  isFactor e -> exists t x tl, tokens e = (t, x) :: tl /\ startsFactor t.
Proof.
  unfold startsFactor. intros [v Hv | name | name args Hname Hargs]; simpl.
  - destruct (v <? 0); eauto 10.
  - eauto 10.
  - apply String.eqb_neq in Hname. rewrite Hname. eauto 10.
Qed.

Lemma tokens_expr_head e :
  isExpr e -> exists t x tl, tokens e = (t, x) :: tl /\ startsFactor t.
Proof.
  intros [e' He | a b Ha Hb]; [apply tokens_factor_head, He |].
  destruct (tokens_factor_head a Ha) as (t & x & tl & Heq & Hs).
  simpl. rewrite Heq. simpl. eauto.
Qed.

Lemma argTokens_head args rest :
  exists f fx tl,
    argTokens tokens false args ++ (rune ")", ")") :: rest = (f, fx) :: tl /\
    (f = rune "," \/ f = rune ")").
Proof. destruct args as [| a args]; simpl; eauto 10. Qed.

(** The loop over the arguments of a call. *)
Lemma factorArgs_accepts N args :
  Forall (fun a => isExpr a /\ exprAccepts N a) args ->
  forall acc n tok c rest src',
    (List.length args <= n)%nat -> done c = false -> peek c = tok -> tok <> 0 ->
    pending c (argTokens tokens (match acc with [] => true | _ => false end) args
               ++ (rune ")", ")") :: rest) src' ->
    exists c', factorArgs (expr N) n acc tok c = Some (Some (acc ++ args), c') /\
               peek c' = rune ")" /\
               pending c' ((rune ")", ")") :: rest) src' /\ sameParser c c'.
Proof.
  induction 1 as [| a args [Ha Hacc] _ IH]; intros acc n tok c rest src' Hn Hd Hpeek Htok Hp.
  - simpl in Hp. assert (Hclose : tok = rune ")").
    { unfold pending in Hp. rewrite Hpeek in Hp. apply Z.eqb_neq in Htok.
      rewrite Htok in Hp. destruct Hp as [-> _]. reflexivity. }
    exists c. rewrite app_nil_r.
    destruct n; simpl; rewrite Hclose, Z.eqb_refl;
      (split; [reflexivity |]); (split; [congruence |]);
      (split; [exact Hp | apply sameParser_refl]).
  - destruct n as [| n]; [simpl in Hn; lia |].
    destruct (tokens_expr_head a Ha) as (t & x & tl & Htoks & Hstart).
    destruct (startsFactor_facts t Hstart) as (Ht0 & Hteof & Htclose & _).
    destruct (argTokens_head args rest) as (f & fx & tl' & Hfollow & Hf).
    assert (Hfstar : f <> rune "*" /\ f <> 0)
      by (destruct Hf as [-> | ->]; split; discriminate).
    set (c1 := if (0 <? List.length acc)%nat then expect c (rune ",") else c).
    assert (H1 : tok <> rune ")" /\ done c1 = false /\ sameParser c c1 /\
                 pending c1 (tokens a ++ (f, fx) :: tl') src').
    { unfold c1. cbn [argTokens] in Hp. rewrite <- !app_assoc, Hfollow in Hp.
      destruct acc as [| a0 acc]; cbn [List.length Nat.ltb Nat.leb app] in *.
      - split; [| split; [exact Hd | split; [apply sameParser_refl | exact Hp]]].
        unfold pending in Hp. rewrite Hpeek in Hp. apply Z.eqb_neq in Htok.
        rewrite Htok, Htoks in Hp. cbn [app] in Hp. destruct Hp as [<- _]. exact Htclose.
      - destruct (expect_pending c (rune ",") "," _ _ Hp ltac:(discriminate)
                    ltac:(discriminate)) as (_ & Hp1 & Hs1).
        split; [| split; [| split; [exact Hs1 | exact Hp1]]].
        + unfold pending in Hp. rewrite Hpeek in Hp. apply Z.eqb_neq in Htok.
          rewrite Htok in Hp. destruct Hp as [<- _]. discriminate.
        + destruct Hs1 as (_ & _ & -> & _). exact Hd. }
    destruct H1 as (Hnotclose & Hd1 & Hs1 & Hp1).
    destruct (Hacc c1 f fx tl' src' Hd1 (proj1 Hfstar) (proj2 Hfstar) Hp1)
      as (c2 & Eexpr & Hp2 & Hs2).
    destruct (Peek_pending _ _ _ _ _ Hp2 (proj2 Hfstar))
      as (c3 & Epeek & Hpeek3 & _ & Hp3 & Hs3).
    assert (Hd2 : done c2 = false) by (destruct Hs2 as (_ & _ & -> & _); exact Hd1).
    assert (Hd3 : done c3 = false) by (destruct Hs3 as (_ & _ & -> & _); exact Hd2).
    rewrite <- Hfollow in Hp3.
    destruct (IH (acc ++ [a]) n f c3 rest src') as (c' & Eloop & Hpeek' & Hp' & Hs').
    { simpl in Hn. lia. }
    { exact Hd3. }
    { exact Hpeek3. }
    { exact (proj2 Hfstar). }
    { destruct acc; exact Hp3. }
    exists c'. cbn [factorArgs]. apply Z.eqb_neq in Hnotclose. rewrite Hnotclose.
    fold c1. rewrite Eexpr. cbn [mbind option_bind]. rewrite Hd2, Epeek, Eloop.
    rewrite <- app_assoc. split; [reflexivity |]. split; [exact Hpeek' |].
    split; [exact Hp' |].
    eapply sameParser_trans; [exact Hs1 |].
    eapply sameParser_trans; [exact Hs2 |].
    eapply sameParser_trans; eassumption.
Qed.

(** A factor that is accepted is accepted as an expression, before any
    token but [*]. *)
Lemma exprAccepts_factor n e : factorAccepts n e -> exprAccepts (S n) e.
Proof.
  intros Hfactor c f fx rest src' Hd Hstar Hf0 Hp.
  destruct (Hfactor c ((f, fx) :: rest) src' Hd Hp) as (c1 & Efac & _ & Hp1 & Hs1).
  destruct (Peek_pending _ _ _ _ _ Hp1 Hf0) as (c2 & Epeek & _ & _ & Hp2 & Hs2).
  exists c2. cbn [expr]. unfold exprBody, term. rewrite Efac. cbn [mbind option_bind].
  rewrite Epeek. apply Z.eqb_neq in Hstar. rewrite Hstar.
  split; [reflexivity |]. split; [exact Hp2 |].
  eapply sameParser_trans; eassumption.
Qed.

(** A product of two factors that are accepted is accepted. *)
Lemma exprAccepts_product n a b :
  factorAccepts n a -> factorAccepts n b -> exprAccepts (S n) (callExpr "*" [a; b]).
Proof.
  intros Ha Hb c f fx rest src' Hd Hstar Hf0 Hp.
  cbn [tokens] in Hp. rewrite String.eqb_refl in Hp.
  rewrite <- !app_assoc in Hp. cbn [app] in Hp.
  destruct (Ha c _ src' Hd Hp) as (c1 & Ea & _ & Hp1 & Hs1).
  destruct (Peek_pending _ _ _ _ _ Hp1 ltac:(discriminate))
    as (c2 & Epeek & _ & _ & Hp2 & Hs2).
  destruct (Next_pending _ _ _ _ _ Hp2 ltac:(discriminate) ltac:(discriminate))
    as (c3 & Enext & _ & Hp3 & Hs3).
  assert (Hd3 : done c3 = false).
  { destruct Hs1 as (_ & _ & D1 & _), Hs2 as (_ & _ & D2 & _), Hs3 as (_ & _ & D3 & _).
    congruence. }
  destruct (Hb c3 _ src' Hd3 Hp3) as (c4 & Eb & _ & Hp4 & Hs4).
  exists c4. cbn [expr]. unfold exprBody, term. rewrite Ea. cbn [mbind option_bind].
  rewrite Epeek, Z.eqb_refl, Enext, Eb. cbn [mbind option_bind].
  split; [reflexivity |]. split; [exact Hp4 |].
  eapply sameParser_trans; [exact Hs1 |].
  eapply sameParser_trans; [exact Hs2 |].
  eapply sameParser_trans; eassumption.
Qed.




Lemma argTokens_first_head args rest :
  Forall isExpr args ->
  exists t x tl,
    argTokens tokens true args ++ (rune ")", ")") :: rest = (t, x) :: tl /\ t <> 0.
Proof.
  intros [| a args' Ha _].
  - simpl. eexists _, _, _. split; [reflexivity | discriminate].
  - destruct (tokens_expr_head a Ha) as (t & x & tl & Heq & Hs).
    simpl. rewrite Heq. simpl. eexists _, _, _. split; [reflexivity |].
    apply (startsFactor_facts t Hs).
Qed.

Lemma factorAccepts_int n v : - maxInt64 <= v <= maxInt64 -> factorAccepts n (intExpr v).
Proof.
  intros Hv c rest src' Hd Hp. cbn [tokens] in Hp.
  destruct (Z.ltb_spec v 0) as [Hneg | Hpos]; cbn [app] in Hp.
  - destruct (Next_pending _ _ _ _ _ Hp ltac:(discriminate) ltac:(discriminate))
      as (c1 & E1 & _ & Hp1 & Hs1).
    destruct (Next_pending _ _ _ _ _ Hp1 ltac:(discriminate) ltac:(discriminate))
      as (c2 & E2 & Hpeek2 & Hp2 & Hs2).
    exists c2. unfold factor. rewrite E1.
    change (rune "-" =? scanner.Ident) with false.
    change (rune "-" =? scanner.Int) with false.
    rewrite Z.eqb_refl, E2, Z.eqb_refl.
    rewrite Atoi_formatNat by (rewrite Z2N.id by lia; lia).
    rewrite Z2N.id by lia.
    replace (-1 * - v) with v by lia.
    rewrite wrap64_id by (unfold inInt64, minInt64, maxInt64 in *; lia).
    split; [reflexivity |]. split; [exact Hpeek2 |]. split; [exact Hp2 |].
    eapply sameParser_trans; eassumption.
  - destruct (Next_pending _ _ _ _ _ Hp ltac:(discriminate) ltac:(discriminate))
      as (c1 & E1 & Hpeek1 & Hp1 & Hs1).
    exists c1. unfold factor. rewrite E1.
    change (scanner.Int =? scanner.Ident) with false. rewrite Z.eqb_refl.
    rewrite Atoi_formatNat by (rewrite Z2N.id by lia; lia).
    rewrite Z2N.id by lia. auto.
Qed.

Lemma factorAccepts_var n name : factorAccepts n (varExpr name).
Proof.
  intros c rest src' Hd Hp. cbn [tokens app] in Hp.
  destruct (Next_pending _ _ _ _ _ Hp ltac:(discriminate) ltac:(discriminate))
    as (c1 & E1 & _ & Hp1 & Hs1).
  destruct (ident_pending _ _ _ _ Hp1) as (c2 & E2 & Hpeek2 & Hp2 & Hs2).
  exists c2. unfold factor. rewrite E1.
  change (rune ":" =? scanner.Ident) with false.
  change (rune ":" =? scanner.Int) with false.
  change (rune ":" =? rune "-") with false.
  rewrite Z.eqb_refl, E2.
  split; [reflexivity |]. split; [exact Hpeek2 |]. split; [exact Hp2 |].
  eapply sameParser_trans; eassumption.
Qed.

Lemma factorAccepts_call n name args :
  name <> "*" ->
  (List.length args <= n)%nat ->
  Forall (fun a => isExpr a /\ exprAccepts n a) args ->
  factorAccepts n (callExpr name args).
Proof.
  intros Hname Hlen Hargs c rest src' Hd Hp.
  cbn [tokens] in Hp. apply String.eqb_neq in Hname. rewrite Hname in Hp.
  cbn [app] in Hp. rewrite <- app_assoc in Hp. cbn [app] in Hp.
  destruct (Next_pending _ _ _ _ _ Hp ltac:(discriminate) ltac:(discriminate))
    as (c1 & E1 & _ & Hp1 & Hs1).
  destruct (expect_pending _ _ _ _ _ Hp1 ltac:(discriminate) ltac:(discriminate))
    as (_ & Hp2 & Hs2).
  destruct (argTokens_first_head args rest) as (t & x & tl & Hhead & Ht0).
  { eapply Forall_impl; [exact Hargs |]. intros a [Ha _]. exact Ha. }
  rewrite Hhead in Hp2.
  destruct (Peek_pending _ _ _ _ _ Hp2 Ht0) as (c3 & E3 & Hpeek3 & _ & Hp3 & Hs3).
  rewrite <- Hhead in Hp3.
  assert (Hd3 : done c3 = false).
  { destruct Hs1 as (_ & _ & D1 & _), Hs2 as (_ & _ & D2 & _), Hs3 as (_ & _ & D3 & _).
    congruence. }
  destruct (factorArgs_accepts n args Hargs [] n t c3 rest src' Hlen Hd3 Hpeek3 Ht0 Hp3)
    as (c4 & E4 & _ & Hp4 & Hs4).
  destruct (Next_pending _ _ _ _ _ Hp4 ltac:(discriminate) ltac:(discriminate))
    as (c5 & E5 & Hpeek5 & Hp5 & Hs5).
  exists c5. unfold factor. rewrite E1, Z.eqb_refl, E3, E4. cbn [mbind option_bind].
  rewrite E5. cbn [app].
  split; [reflexivity |]. split; [exact Hpeek5 |]. split; [exact Hp5 |].
  eapply sameParser_trans; [exact Hs1 |].
  eapply sameParser_trans; [exact Hs2 |].
  eapply sameParser_trans; [exact Hs3 |].
  eapply sameParser_trans; eassumption.
Qed.

Lemma need_arg a args : In a args -> (need a <= list_max (map need args))%nat.
Proof.
  intros Hin. pose proof (list_max_le (map need args) (list_max (map need args))) as [H _].
  specialize (H (Nat.le_refl _)). rewrite List.Forall_forall in H.
  apply H, in_map, Hin.
Qed.

(** With fuel for its depth and its arguments, every expression of the
    grammar is accepted. *)
Lemma grammar_accepted e :
  (isFactor e -> forall n, (need e <= S n)%nat -> factorAccepts n e) /\
  (isExpr e -> forall n, (need e <= n)%nat -> exprAccepts n e).
Proof.
  induction e as [| v | name args IH | v] using Expression_ind.
  - split; [intros H; inversion H |].
    intros H. inversion H as [e' He |]; subst. inversion He.
  - assert (Hfac : isFactor (intExpr v) -> forall n, factorAccepts n (intExpr v)).
    { intros H n. inversion H; subst. apply factorAccepts_int. assumption. }
    split; [intros H n _; apply (Hfac H) |].
    intros H [| n] Hn; [simpl in Hn; lia |]. inversion H; subst.
    apply exprAccepts_factor, Hfac. assumption.
  - assert (Hfac : isFactor (callExpr name args) ->
                   forall n, (need (callExpr name args) <= S n)%nat ->
                             factorAccepts n (callExpr name args)).
    { intros H n Hn. inversion H as [| | ? ? Hname Hargs]; subst.
      cbn [need] in Hn. apply factorAccepts_call; [exact Hname | lia |].
      rewrite List.Forall_forall in *. intros a Hin. split; [apply Hargs, Hin |].
      apply (IH a Hin); [apply Hargs, Hin |].
      pose proof (need_arg a args Hin). lia. }
    split; [exact Hfac |].
    intros H [| n] Hn; [simpl in Hn; lia |].
    inversion H as [e' He | a b Ha Hb]; subst.
    + apply exprAccepts_factor, Hfac; [exact He | lia].
    + rewrite List.Forall_forall in IH. cbn [need List.length map] in Hn.
      unfold list_max in Hn. cbn [fold_right] in Hn.
      apply exprAccepts_product.
      * apply (IH a); [left; reflexivity | exact Ha | lia].
      * apply (IH b); [right; left; reflexivity | exact Hb | lia].
  - split; [intros _ n _; apply factorAccepts_var |].
    intros H [| n] Hn; [simpl in Hn; lia |].
    apply exprAccepts_factor, factorAccepts_var.
Qed.

End Accepts.




(** ** The signal handler *)

Module signals_facts.
Import signals.

Lemma stopFunc_invariant st : invariant st -> invariant (stopFunc st).
Proof.
  intros [He Hc]. unfold stopFunc. destruct (stopChVar st); split; auto.
Qed.

Lemma step_invariant st ev : invariant st -> invariant (step st ev).
Proof.
  intros Hinv. pose proof Hinv as [He Hc]. unfold step. rewrite He.
  destruct ev as [sig | | | |].
  - destruct (_ <? _)%nat; [split; auto | exact Hinv].
  - apply stopFunc_invariant, Hinv.
  - destruct (handler st) eqn:Hh; try exact Hinv. split; simpl; auto.
  - destruct (handler st) eqn:Hh; try exact Hinv.
    destruct (sigCh st) as [| sig queue]; [exact Hinv |].
    rewrite Hc by discriminate.
    apply stopFunc_invariant. split; simpl; [auto | congruence].
  - destruct (handler st) as [| [] |] eqn:Hh; try exact Hinv.
    destruct (closed st); [| exact Hinv]. split; simpl; [auto | congruence].
Qed.

Lemma run_invariant evs : forall st, invariant st -> invariant (run evs st).
Proof.
  unfold run. induction evs as [| ev evs IH]; intros st Hinv; simpl; [exact Hinv |].
  apply IH, step_invariant, Hinv.
Qed.

(** Calling the stop function again changes nothing. *)
Lemma stopFunc_idempotent st : stopFunc (stopFunc st) = stopFunc st.
Proof. unfold stopFunc. destruct (stopChVar st) eqn:H; simpl; [reflexivity | now rewrite H]. Qed.

(** The first signal, once the handler receives it, closes the channel. *)
Lemma first_signal_closes sig :
  closed (run [EnterSelect; Deliver sig; ReceiveSignal] SetupSignalHandler) = true /\
  handler (run [EnterSelect; Deliver sig; ReceiveSignal] SetupSignalHandler) = Returned.
Proof. split; reflexivity. Qed.

(** A handler waiting on the channel returns once it is closed. *)
Lemma external_close_ends_handler :
  handler (run [EnterSelect; CallStop; ReceiveStop] SetupSignalHandler) = Returned.
Proof. reflexivity. Qed.

End signals_facts.

(** *** C8: the second signal *)

(** C8 does not hold of the code. Whatever signals arrive, whoever calls
    the stop function and however the handler goroutine is scheduled,
    [os.Exit] is never called: the goroutine runs its [select] once and
    returns, so the counter never reaches 2. In particular after two
    signals, both delivered and the handler run as far as it goes, the
    process has not exited and the second signal is left in the buffer. *)
Theorem C8_second_signal_does_not_exit (evs : list signals.Event) :
  signals.exited (signals.run evs signals.SetupSignalHandler) = None /\
  forall sig1 sig2,
    let st := signals.run
                [signals.EnterSelect; signals.Deliver sig1; signals.ReceiveSignal;
                 signals.Deliver sig2; signals.ReceiveSignal; signals.ReceiveStop]
                signals.SetupSignalHandler in
    signals.exited st = None /\ signals.closed st = true /\
    signals.handler st = signals.Returned /\ signals.sigCh st = [sig2].
Proof.
  split.
  - apply signals_facts.run_invariant. split; [reflexivity | reflexivity].
  - intros sig1 sig2. repeat split.
Qed.

(** * Further properties *)

(** ** Evaluation and the variables *)

Section MoreEvaluation.
Context `{RL : rand.RandLib}.

(** *** Reading a result back *)

Lemma bind_Ok {A B} (c : M A) (k : A -> M B) (m m' : Machine) (b : B) :
  bind c k m = (Ok b, m') -> exists a m1, c m = (Ok a, m1) /\ k a m1 = (Ok b, m').
Proof.
  unfold bind. destruct (c m) as [[a | e | p] m1]; [eauto | discriminate | discriminate].
Qed.

Lemma wrapErr_Ok {A} f (c : M A) (m m' : Machine) (a : A) :
  wrapErr f c m = (Ok a, m') -> c m = (Ok a, m').
Proof. unfold wrapErr. destruct (c m) as [[a' | e | p] m1]; congruence. Qed.

Lemma argAsNumber_inv args i ctx (m m' : Machine) n :
  argAsNumber (evalArg Expression_Eval args) args i ctx m = (Ok n, m') ->
  exists a v, args !! i = Some a /\ Expression_Eval a ctx m = (Ok v, m') /\ n = asNumber v.
Proof.
  unfold argAsNumber. destruct (List.length args <=? i)%nat; [discriminate |].
  rewrite evalArg_lookup. destruct (args !! i) as [a |]; simpl; [| discriminate].
  intros H. apply bind_Ok in H as (v & m1 & Hev & Hret). injection Hret as <- <-. eauto.
Qed.

(** X1. Evaluating an expression reads the variables and writes none: every
    map of the heap is what it was. *)
Theorem Eval_writes_no_variable (e : Expression) (ctx : CommandContext)
    (m m' : Machine) (r : result Value) :
  Expression_Eval e ctx m = (r, m') ->
  forall a, deref m' a = deref m a.
Proof.
  intros Hev a. apply deref_heap, (keepsHeap_Eval e ctx m r m' Hev).
Qed.

(** X2. After [\set name e] the variable [name] evaluates to the value of [e],
    and the other variables are what they were. *)
Theorem set_then_lookup (name : string) (e : Expression) (ctx : CommandContext)
    (uow : UnitOfWork) (m m1 : Machine) (v : Value) :
  (Vars ctx < List.length (heap m))%nat ->
  Expression_Eval e ctx m = (Ok v, m1) ->
  exists m',
    Execute (SetCommand name e) ctx uow m = (Ok tt, uow, m') /\
    Expression_Eval (varExpr name) ctx m' = (Ok v, m') /\
    (forall k, k <> name -> deref m' (Vars ctx) !! k = deref m (Vars ctx) !! k) /\
    clientRand m' = clientRand m1 /\ globalRand m' = globalRand m1.
Proof.
  intros Hvars Hev. pose proof (keepsHeap_Eval e ctx m _ _ Hev) as Hheap.
  exists (store (Vars ctx) name v m1). simpl. rewrite Hev.
  assert (Hd : deref (store (Vars ctx) name v m1) (Vars ctx)
               = <[name := v]> (deref m (Vars ctx))).
  { rewrite deref_store_same by (rewrite Hheap; exact Hvars).
    rewrite (deref_heap m1 m _ Hheap). reflexivity. }
  split; [reflexivity |]. split; [| split; [| split; reflexivity]].
  - rewrite Hd, lookup_insert_eq. reflexivity.
  - intros k Hk. rewrite Hd, lookup_insert_ne by congruence. reflexivity.
Qed.

(** X3. In the context [Next] starts from, whatever the heap held before,
    [scale] is the only variable: it evaluates to the scale of the
    workload, and any other name is an error. *)
Theorem only_scale_is_predefined (s : ClientWorkload) (m : Machine) (name : string) :
  Expression_Eval (varExpr name) (fst (newContext s m)) (snd (newContext s m)) =
    (if String.eqb name "scale" then Ok (VInt (cScale s))
     else Err ("this variable is not defined: " +:+ name),
     snd (newContext s m)).
Proof.
  destruct (newContext_separated s m) as [_ Hvars].
  cbn [Expression_Eval]. rewrite Hvars.
  destruct (String.eqb_spec name "scale") as [-> | Hne].
  - rewrite lookup_singleton_eq. reflexivity.
  - rewrite lookup_singleton_ne by congruence. reflexivity.
Qed.

(** *** The statements of a unit of work *)

Lemma runCommands_queries cmds : forall ctx uow (m : Machine) r uow' m',
  runCommands cmds ctx uow m = (r, uow', m') ->
  Readonly uow' = Readonly uow /\
  exists n,
    map Query (Statements uow') = map Query (Statements uow) ++ queriesOf (take n cmds) /\
    (r = Ok tt -> take n cmds = cmds).
Proof.
  induction cmds as [| cmd rest IH]; intros ctx uow m r uow' m' Hrun; simpl in Hrun.
  - injection Hrun as <- <- <-. split; [reflexivity |]. exists 0%nat.
    rewrite app_nil_r. auto.
  - destruct cmd as [q | name e |]; simpl in Hrun.
    + destruct (IH _ _ _ _ _ _ Hrun) as (Hro & n & Hq & Hall).
      split; [exact Hro |]. exists (S n). cbn [Statements] in Hq.
      rewrite map_app in Hq. cbn [map Query] in Hq. rewrite <- app_assoc in Hq.
      split; [exact Hq |]. intros Hr. cbn [take]. rewrite (Hall Hr). reflexivity.
    + destruct (Expression_Eval e ctx m) as [[v | msg | msg] m1].
      * destruct (IH _ _ _ _ _ _ Hrun) as (Hro & n & Hq & Hall).
        split; [exact Hro |]. exists (S n).
        split; [exact Hq |]. intros Hr. cbn [take]. rewrite (Hall Hr). reflexivity.
      * injection Hrun as <- <- <-. split; [reflexivity |]. exists 0%nat.
        rewrite app_nil_r. split; [reflexivity | discriminate].
      * injection Hrun as <- <- <-. split; [reflexivity |]. exists 0%nat.
        rewrite app_nil_r. split; [reflexivity | discriminate].
    + injection Hrun as <- <- <-. split; [reflexivity |]. exists 0%nat.
      rewrite app_nil_r. split; [reflexivity | discriminate].
Qed.

(** X4. The unit of work that [Next] returns has the read-only flag of the
    workload, and its statements are the queries of the commands that
    ran, in their order: all of them when [Next] succeeds, those of the
    first commands when it fails. *)
Theorem statements_follow_the_queries (s : ClientWorkload) (m : Machine)
    (res : result unit) (uow : UnitOfWork) (m' : Machine) :
  ClientWorkload_Next s m = (res, uow, m') ->
  Readonly uow = cReadonly s /\
  (exists n, map Query (Statements uow) = queriesOf (take n (cCommands s))) /\
  (res = Ok tt -> map Query (Statements uow) = queriesOf (cCommands s)).
Proof.
  rewrite Next_unfold. intros Hrun.
  destruct (runCommands_queries _ _ _ _ _ _ _ Hrun) as (Hro & n & Hq & Hall).
  split; [exact Hro |]. split; [exists n; exact Hq |].
  intros Hres. rewrite Hq, (Hall Hres). reflexivity.
Qed.

Lemma Execute_Err cmd ctx uow (m : Machine) msg uow' m' :
  Execute cmd ctx uow m = (Err msg, uow', m') -> uow' = uow /\ heap m' = heap m.
Proof.
  destruct cmd as [q | name e |]; simpl; [discriminate | | discriminate].
  destruct (Expression_Eval e ctx m) as [[v | e' | p] m3] eqn:Hev;
    [discriminate | | discriminate].
  intros [= <- <- <-]. split; [reflexivity |].
  apply (keepsHeap_Eval _ _ _ _ _ Hev).
Qed.

(** X5. [Next] stops at the first command that fails: it returns the error
    of that command together with the statements of the queries before
    it; the failing command has added no statement and written no
    variable, and the commands after it are not run. *)
Theorem Next_stops_at_first_error (s : ClientWorkload) (m : Machine)
    (pre post : list Command) (cmd : Command)
    (uow1 uow2 : UnitOfWork) (m1 m2 : Machine) (msg : string) :
  cCommands s = pre ++ cmd :: post ->
  runCommands pre (fst (newContext s m)) (mkUnitOfWork (cReadonly s) [])
    (snd (newContext s m)) = (Ok tt, uow1, m1) ->
  Execute cmd (fst (newContext s m)) uow1 m1 = (Err msg, uow2, m2) ->
  ClientWorkload_Next s m = (Err msg, uow1, m2) /\
  map Query (Statements uow1) = queriesOf pre /\
  forall a, deref m2 a = deref m1 a.
Proof.
  intros Hcmds Hpre Hexec.
  destruct (Execute_Err _ _ _ _ _ _ _ Hexec) as [-> Hheap].
  split; [| split].
  - rewrite Next_unfold, Hcmds, (runCommands_app pre _ _ _ _ _ _ Hpre).
    cbn [runCommands]. rewrite Hexec. reflexivity.
  - destruct (runCommands_queries _ _ _ _ _ _ _ Hpre) as (_ & n & Hq & Hall).
    rewrite Hq, (Hall eq_refl). reflexivity.
  - intros a. apply deref_heap, Hheap.
Qed.

(** *** The arguments of a call *)

Lemma bind_wrapErr_ext {A B} f g (c : M A) (k k' : A -> M B) (m m' : Machine) r :
  (forall e, r <> Err e) ->
  (forall a m1, k a m1 = (r, m') -> k' a m1 = (r, m')) ->
  bind (wrapErr f c) k m = (r, m') -> bind (wrapErr g c) k' m = (r, m').
Proof.
  intros Hr Hk. unfold bind, wrapErr.
  destruct (c m) as [[a | e | p] m1]; [apply Hk | | trivial].
  intros [= <- <-]. exfalso. eapply Hr. reflexivity.
Qed.

(** X6. [random] and [*] look at their first two arguments only: further
    arguments are not evaluated, and change neither the value nor the
    generators. (An error would name all the arguments in its message.) *)
Theorem extra_arguments_are_ignored (name : string) (a0 a1 : Expression)
    (extra : list Expression) (ctx : CommandContext) (m m' : Machine) (r : result Value) :
  (forall e, r <> Err e) ->
  Expression_Eval (callExpr name [a0; a1]) ctx m = (r, m') ->
  Expression_Eval (callExpr name (a0 :: a1 :: extra)) ctx m = (r, m').
Proof.
  intros Hr.
  change (Expression_Eval (callExpr name [a0; a1]) ctx)
    with (CallExpr_Eval (evalArg Expression_Eval [a0; a1]) name [a0; a1] ctx).
  change (Expression_Eval (callExpr name (a0 :: a1 :: extra)) ctx)
    with (CallExpr_Eval (evalArg Expression_Eval (a0 :: a1 :: extra)) name
            (a0 :: a1 :: extra) ctx).
  unfold CallExpr_Eval, argAsNumber. cbn [List.length Nat.leb evalArg].
  destruct (String.eqb name "random"); [| destruct (String.eqb name "*")].
  - apply (bind_wrapErr_ext _ _ _ _ _ _ _ _ Hr). intros a m1.
    apply (bind_wrapErr_ext _ _ _ _ _ _ _ _ Hr). trivial.
  - apply (bind_wrapErr_ext _ _ _ _ _ _ _ _ Hr). intros a m1.
    apply (bind_wrapErr_ext _ _ _ _ _ _ _ _ Hr). trivial.
  - intros [= <- <-]. exfalso. eapply Hr. reflexivity.
Qed.

(** X7. [random] and [*] need two arguments: with fewer the call is an error
    that says how many are missing, never an index out of range; the one
    argument there is has been evaluated. *)
Theorem missing_arguments_are_reported (name : string) (a : Expression)
    (ctx : CommandContext) (m m1 : Machine) (v : Value) :
  name = "random" \/ name = "*" ->
  Expression_Eval a ctx m = (Ok v, m1) ->
  Expression_Eval (callExpr name []) ctx m =
    (Err ("in " +:+ CallExpr_String name [] +:+
          ": expected at least 1 arguments, got 0"), m) /\
  Expression_Eval (callExpr name [a]) ctx m =
    (Err ("in " +:+ CallExpr_String name [a] +:+
          ": expected at least 2 arguments, got 1"), m1).
Proof.
  intros Hname Hev. split.
  - destruct Hname as [-> | ->]; reflexivity.
  - change (Expression_Eval (callExpr name [a]) ctx)
      with (CallExpr_Eval (evalArg Expression_Eval [a]) name [a] ctx).
    unfold CallExpr_Eval.
    destruct Hname as [-> | ->]; cbn [String.eqb Ascii.eqb Bool.eqb];
      unfold bind at 1; unfold wrapErr at 1;
      rewrite (argAsNumber_Ok [a] 0 a ctx m m1 v eq_refl Hev); reflexivity.
Qed.

(** X8. An error in an argument of [random] or [*] is the error of the call,
    with the call written before it. The first argument comes first: when
    it fails, its error is the one reported, and when it panics the call
    panics; in both cases the second argument, if there is one, is not
    evaluated. When the first argument has a value, an error of the
    second is reported in the same way, and a panic of the second is the
    panic of the call. *)
Theorem argument_errors_are_prefixed (name : string) (a0 : Expression)
    (rest : list Expression) (ctx : CommandContext) (m m1 : Machine)
    (r0 : result Value) :
  name = "random" \/ name = "*" ->
  Expression_Eval a0 ctx m = (r0, m1) ->
  (forall e0, r0 = Err e0 ->
     Expression_Eval (callExpr name (a0 :: rest)) ctx m =
       (Err ("in " +:+ CallExpr_String name (a0 :: rest) +:+ ": " +:+ e0), m1)) /\
  (forall p, r0 = Panic p ->
     Expression_Eval (callExpr name (a0 :: rest)) ctx m = (Panic p, m1)) /\
  (forall v0 a1 rest' r1 m2,
     r0 = Ok v0 -> rest = a1 :: rest' ->
     Expression_Eval a1 ctx m1 = (r1, m2) ->
     (forall e1, r1 = Err e1 ->
        Expression_Eval (callExpr name (a0 :: rest)) ctx m =
          (Err ("in " +:+ CallExpr_String name (a0 :: rest) +:+ ": " +:+ e1), m2)) /\
     (forall p, r1 = Panic p ->
        Expression_Eval (callExpr name (a0 :: rest)) ctx m = (Panic p, m2))).
Proof.
  intros Hname Hev0.
  change (Expression_Eval (callExpr name (a0 :: rest)) ctx)
    with (CallExpr_Eval (evalArg Expression_Eval (a0 :: rest)) name (a0 :: rest) ctx).
  unfold CallExpr_Eval, argAsNumber. cbn [List.length Nat.leb evalArg].
  split; [| split].
  - intros e0 ->.
    destruct Hname as [-> | ->]; cbn [String.eqb Ascii.eqb Bool.eqb];
      unfold bind, wrapErr; rewrite Hev0; reflexivity.
  - intros p ->.
    destruct Hname as [-> | ->]; cbn [String.eqb Ascii.eqb Bool.eqb];
      unfold bind, wrapErr; rewrite Hev0; reflexivity.
  - intros v0 a1 rest' r1 m2 -> -> Hev1. cbn [List.length Nat.leb evalArg].
    split; [intros e1 -> | intros p ->];
      (destruct Hname as [-> | ->]; cbn [String.eqb Ascii.eqb Bool.eqb];
       unfold bind, wrapErr; rewrite Hev0; cbn [ret]; rewrite Hev1; reflexivity).
Qed.

(** *** Panics *)

Lemma panicsOnly_ret {A} msg (a : A) : panicsOnly msg (ret a).
Proof. intros m p m'. discriminate. Qed.

Lemma panicsOnly_fail {A} msg e : panicsOnly msg (@fail_with _ A e).
Proof. intros m p m'. discriminate. Qed.

Lemma panicsOnly_bind {A B} msg (c : M A) (k : A -> M B) :
  panicsOnly msg c -> (forall a, panicsOnly msg (k a)) -> panicsOnly msg (bind c k).
Proof.
  intros Hc Hk m p m'. unfold bind.
  destruct (c m) as [[a | e | q] m1] eqn:Hcm.
  - apply Hk.
  - discriminate.
  - intros [= <- <-]. apply (Hc _ _ _ Hcm).
Qed.

Lemma panicsOnly_wrapErr {A} msg f (c : M A) :
  panicsOnly msg c -> panicsOnly msg (wrapErr f c).
Proof.
  intros Hc m p m'. unfold wrapErr.
  destruct (c m) as [[a | e | q] m1] eqn:Hcm; try discriminate.
  intros [= <- <-]. apply (Hc _ _ _ Hcm).
Qed.

Lemma panicsOnly_argAsNumber msg args i ctx :
  Forall (fun a => forall ctx, panicsOnly msg (Expression_Eval a ctx)) args ->
  panicsOnly msg (argAsNumber (evalArg Expression_Eval args) args i ctx).
Proof.
  intros Hargs. unfold argAsNumber.
  destruct (Nat.leb_spec (List.length args) i) as [Hle | Hlt]; [apply panicsOnly_fail |].
  rewrite evalArg_lookup.
  destruct (lookup_lt_is_Some_2 args i Hlt) as [a Hi]. rewrite Hi. simpl.
  apply panicsOnly_bind; [| intros v; apply panicsOnly_ret].
  rewrite Forall_forall in Hargs. apply Hargs.
  eapply list_elem_of_lookup_2, Hi.
Qed.

Lemma panicsOnly_Eval e :
  forall ctx, panicsOnly "invalid argument to Int63n" (Expression_Eval e ctx).
Proof.
  induction e as [| v | name args IH | v] using Expression_ind; intros ctx.
  - apply panicsOnly_fail.
  - apply panicsOnly_ret.
  - change (Expression_Eval (callExpr name args) ctx)
      with (CallExpr_Eval (evalArg Expression_Eval args) name args ctx).
    unfold CallExpr_Eval.
    destruct (String.eqb name "random"); [| destruct (String.eqb name "*")].
    + apply panicsOnly_bind; [apply panicsOnly_wrapErr, panicsOnly_argAsNumber, IH |].
      intros a.
      apply panicsOnly_bind; [apply panicsOnly_wrapErr, panicsOnly_argAsNumber, IH |].
      intros b. destruct (f64_eqb _ _).
      * destruct (isFloat a); apply panicsOnly_ret.
      * destruct (isFloat a || isFloat b).
        -- apply panicsOnly_bind; [| intros; apply panicsOnly_ret].
           intros m0 p m1. unfold global_Float64.
           destruct (rand.Float64 (globalRand m0)). discriminate.
        -- apply panicsOnly_bind; [| intros; apply panicsOnly_ret].
           intros m0 p m1. unfold Rand_Int63n.
           destruct (_ <=? 0); [intros [= <- <-]; reflexivity |].
           destruct (rand.Int63n _ (clientRand m0)). discriminate.
    + apply panicsOnly_bind; [apply panicsOnly_wrapErr, panicsOnly_argAsNumber, IH |].
      intros a.
      apply panicsOnly_bind; [apply panicsOnly_wrapErr, panicsOnly_argAsNumber, IH |].
      intros b. destruct (isFloat a || isFloat b); apply panicsOnly_ret.
    + apply panicsOnly_fail.
  - intros m p m'. simpl. destruct (deref m (Vars ctx) !! v); discriminate.
Qed.

(** X9. Evaluation panics in one place only, the call of [Int63n] in
    [random]: no expression, well formed or not, makes it index an
    argument that is not there. *)
Theorem Eval_panics_only_in_Int63n (e : Expression) (ctx : CommandContext)
    (m m' : Machine) (p : string) :
  Expression_Eval e ctx m = (Panic p, m') -> p = "invalid argument to Int63n".
Proof. apply panicsOnly_Eval. Qed.

(** *** Expressions without [random] *)

Lemma readsOnly_ret {A} (a : A) : readsOnly (ret a).
Proof. intros m. repeat split. discriminate. Qed.

Lemma readsOnly_fail {A} e : readsOnly (@fail_with _ A e).
Proof. intros m. repeat split. discriminate. Qed.

Lemma readsOnly_bind {A B} (c : M A) (k : A -> M B) :
  readsOnly c -> (forall a, readsOnly (k a)) -> readsOnly (bind c k).
Proof.
  intros Hc Hk m. unfold bind. destruct (Hc m) as (Hs & Hp & Hf).
  destruct (c m) as [[a | e | p] m1] eqn:Hcm; simpl in Hs, Hp, Hf; subst m1.
  - destruct (Hk a m) as (Hs' & Hp' & Hf'). split; [exact Hs' |]. split; [exact Hp' |].
    intros m2 H2. specialize (Hf m2 H2). destruct (Hc m2) as (Hs2 & _).
    destruct (c m2) as [r2 m3]. simpl in Hf, Hs2. subst r2 m3. apply Hf', H2.
  - split; [reflexivity |]. split; [discriminate |].
    intros m2 H2. specialize (Hf m2 H2).
    destruct (c m2) as [r2 m3]. simpl in Hf. subst r2. reflexivity.
  - exfalso. apply (Hp p). reflexivity.
Qed.

Lemma readsOnly_wrapErr {A} f (c : M A) : readsOnly c -> readsOnly (wrapErr f c).
Proof.
  intros Hc m. unfold wrapErr. destruct (Hc m) as (Hs & Hp & Hf).
  destruct (c m) as [[a | e | p] m1] eqn:Hcm; simpl in Hs, Hp, Hf; subst m1.
  - split; [reflexivity |]. split; [discriminate |].
    intros m2 H2. specialize (Hf m2 H2).
    destruct (c m2) as [r2 m3]. simpl in Hf. subst r2. reflexivity.
  - split; [reflexivity |]. split; [discriminate |].
    intros m2 H2. specialize (Hf m2 H2).
    destruct (c m2) as [r2 m3]. simpl in Hf. subst r2. reflexivity.
  - exfalso. apply (Hp p). reflexivity.
Qed.

Lemma readsOnly_argAsNumber args i ctx :
  Forall (fun a => noRandom a = true -> forall ctx, readsOnly (Expression_Eval a ctx)) args ->
  forallb noRandom args = true ->
  readsOnly (argAsNumber (evalArg Expression_Eval args) args i ctx).
Proof.
  intros Hargs Hno. unfold argAsNumber.
  destruct (Nat.leb_spec (List.length args) i) as [Hle | Hlt]; [apply readsOnly_fail |].
  rewrite evalArg_lookup.
  destruct (lookup_lt_is_Some_2 args i Hlt) as [a Hi]. rewrite Hi. simpl.
  apply readsOnly_bind; [| intros v; apply readsOnly_ret].
  pose proof (list_elem_of_lookup_2 _ _ _ Hi) as Hin.
  rewrite Forall_forall in Hargs. apply (Hargs a Hin).
  rewrite forallb_forall in Hno. apply Hno, list_elem_of_In, Hin.
Qed.

(** X10. An expression in which [random] is not called is evaluated without
    drawing a number: both generators are left as they are, the value
    depends on the variables only, and there is no panic. *)
Theorem expressions_without_random_are_pure (e : Expression) (ctx : CommandContext)
    (m : Machine) :
  noRandom e = true ->
  snd (Expression_Eval e ctx m) = m /\
  (forall p, fst (Expression_Eval e ctx m) <> Panic p) /\
  (forall m2, heap m2 = heap m ->
     fst (Expression_Eval e ctx m2) = fst (Expression_Eval e ctx m)).
Proof.
  intros Hno. revert m.
  change (readsOnly (Expression_Eval e ctx)). revert ctx.
  induction e as [| v | name args IH | v] using Expression_ind; intros ctx.
  - apply readsOnly_fail.
  - apply readsOnly_ret.
  - cbn [noRandom] in Hno. apply andb_true_iff in Hno as [Hname Hargs].
    apply negb_true_iff in Hname.
    change (Expression_Eval (callExpr name args) ctx)
      with (CallExpr_Eval (evalArg Expression_Eval args) name args ctx).
    unfold CallExpr_Eval. rewrite Hname.
    destruct (String.eqb name "*"); [| apply readsOnly_fail].
    apply readsOnly_bind; [apply readsOnly_wrapErr, readsOnly_argAsNumber; assumption |].
    intros a.
    apply readsOnly_bind; [apply readsOnly_wrapErr, readsOnly_argAsNumber; assumption |].
    intros b. destruct (isFloat a || isFloat b); apply readsOnly_ret.
  - intros m. cbn [Expression_Eval].
    split; [destruct (deref m (Vars ctx) !! v); reflexivity |].
    split; [destruct (deref m (Vars ctx) !! v); discriminate |].
    intros m2 H2. rewrite (deref_heap m2 m _ H2).
    destruct (deref m (Vars ctx) !! v); reflexivity.
Qed.

(** *** The values stay within [int64] *)

Lemma Eval_int64 e : forall ctx (m m' : Machine) v,
  int64Vars (deref m (Vars ctx)) -> literalsInRange e = true ->
  Expression_Eval e ctx m = (Ok v, m') -> int64Value v.
Proof.
  induction e as [| i | name args IH | x] using Expression_ind;
    intros ctx m m' v Hvars Hlit Hev.
  - discriminate.
  - injection Hev as <- <-. exists i. split; [reflexivity |].
    cbn [literalsInRange] in Hlit. apply andb_true_iff in Hlit as [H1 H2].
    apply Z.leb_le in H1, H2. split; assumption.
  - change (Expression_Eval (callExpr name args) ctx)
      with (CallExpr_Eval (evalArg Expression_Eval args) name args ctx) in Hev.
    cbn [literalsInRange] in Hlit.
    assert (Harg : forall i (m0 m1 : Machine) n,
              heap m0 = heap m ->
              argAsNumber (evalArg Expression_Eval args) args i ctx m0 = (Ok n, m1) ->
              exists k, n = asNumber (VInt k) /\ inInt64 k /\ heap m1 = heap m).
    { intros i m0 m1 n Hheap Hnum.
      apply argAsNumber_inv in Hnum as (a & v0 & Hi & Heva & ->).
      pose proof (list_elem_of_lookup_2 _ _ _ Hi) as Hin.
      rewrite Forall_forall in IH. rewrite forallb_forall in Hlit.
      destruct (IH a Hin ctx m0 m1 v0) as (k & -> & Hk).
      - rewrite (deref_heap m0 m _ Hheap). exact Hvars.
      - apply Hlit, list_elem_of_In, Hin.
      - exact Heva.
      - exists k. split; [reflexivity |]. split; [exact Hk |].
        rewrite <- Hheap. apply (keepsHeap_Eval _ _ _ _ _ Heva). }
    unfold CallExpr_Eval in Hev.
    destruct (String.eqb name "random"); [| destruct (String.eqb name "*")].
    + apply bind_Ok in Hev as (a & m1 & Ha & Hev). apply wrapErr_Ok in Ha.
      destruct (Harg _ _ _ _ eq_refl Ha) as (k0 & -> & Hk0 & Hh1).
      apply bind_Ok in Hev as (b & m2 & Hb & Hev). apply wrapErr_Ok in Hb.
      destruct (Harg _ _ _ _ Hh1 Hb) as (k1 & -> & Hk1 & Hh2).
      cbn [asNumber isFloat val iVal orb] in Hev.
      destruct (f64_eqb _ _).
      * injection Hev as <- <-. exists k0. auto.
      * apply bind_Ok in Hev as (r & m3 & _ & Hev). injection Hev as <- <-.
        eexists. split; [reflexivity | apply wrap64_range].
    + apply bind_Ok in Hev as (a & m1 & Ha & Hev). apply wrapErr_Ok in Ha.
      destruct (Harg _ _ _ _ eq_refl Ha) as (k0 & -> & Hk0 & Hh1).
      apply bind_Ok in Hev as (b & m2 & Hb & Hev). apply wrapErr_Ok in Hb.
      destruct (Harg _ _ _ _ Hh1 Hb) as (k1 & -> & Hk1 & Hh2).
      cbn [asNumber isFloat val iVal orb] in Hev. injection Hev as <- <-.
      eexists. split; [reflexivity | apply wrap64_range].
    + discriminate.
  - cbn [Expression_Eval] in Hev.
    destruct (deref m (Vars ctx) !! x) eqn:Hx; [| discriminate].
    injection Hev as <- <-. apply (Hvars x _ Hx).
Qed.

Lemma Execute_int64 cmd ctx uow (m : Machine) r uow' m' :
  separated ctx uow m -> commandInRange cmd = true ->
  int64Vars (deref m (Vars ctx)) ->
  Execute cmd ctx uow m = (r, uow', m') ->
  int64Vars (deref m' (Vars ctx)).
Proof.
  intros [Hvars _] Hlit Hint Hexec. destruct cmd as [q | name e |]; simpl in Hexec.
  - injection Hexec as <- <- <-.
    pose proof (deref_alloc_old (copyVars (deref m (Vars ctx))) m _ Hvars) as Hold.
    simpl in Hold. rewrite Hold. exact Hint.
  - destruct (Expression_Eval e ctx m) as [[v | msg | msg] m1] eqn:Hev;
      injection Hexec as <- <- <-;
      pose proof (keepsHeap_Eval e ctx m _ _ Hev) as Hheap.
    + rewrite deref_store_same by (rewrite Hheap; exact Hvars).
      rewrite (deref_heap m1 m _ Hheap). intros k x.
      destruct (decide (name = k)) as [-> | Hne].
      * rewrite lookup_insert_eq. intros [= <-].
        apply (Eval_int64 e ctx m m1 v Hint Hlit Hev).
      * rewrite lookup_insert_ne by exact Hne. apply Hint.
    + rewrite (deref_heap m1 m _ Hheap). exact Hint.
    + rewrite (deref_heap m1 m _ Hheap). exact Hint.
  - injection Hexec as <- <- <-. exact Hint.
Qed.

Lemma runCommands_int64 cmds : forall ctx uow (m : Machine) r uow' m',
  separated ctx uow m -> forallb commandInRange cmds = true ->
  int64Vars (deref m (Vars ctx)) ->
  Forall (fun st => int64Vars (deref m (Params st))) (Statements uow) ->
  runCommands cmds ctx uow m = (r, uow', m') ->
  Forall (fun st => int64Vars (deref m' (Params st))) (Statements uow').
Proof.
  induction cmds as [| cmd rest IH]; intros ctx uow m r uow' m' Hsep Hlit Hint Hall Hrun;
    simpl in Hrun.
  - injection Hrun as <- <- <-. exact Hall.
  - cbn [forallb] in Hlit. apply andb_true_iff in Hlit as [Hcmd Hrest].
    destruct (Execute cmd ctx uow m) as [[r1 uow1] m1] eqn:Hexec.
    destruct (Execute_frame _ _ _ _ _ _ _ Hsep Hexec)
      as (Hsep1 & [new [Hnew Hsnap]] & Hframe & _ & _).
    pose proof (Execute_int64 _ _ _ _ _ _ _ Hsep Hcmd Hint Hexec) as Hint1.
    assert (Hall1 : Forall (fun st => int64Vars (deref m1 (Params st))) (Statements uow1)).
    { rewrite Hnew. apply Forall_app. split.
      - destruct Hsep as [_ Hstmts]. rewrite Forall_forall in *.
        intros st Hst. destruct (Hstmts st Hst) as [Hlt Hne].
        rewrite (Hframe _ Hlt Hne). apply (Hall st Hst).
      - eapply Forall_impl; [exact Hsnap |]. simpl. intros st ->. exact Hint. }
    destruct r1 as [[] | msg | msg].
    + apply (IH _ _ _ _ _ _ Hsep1 Hrest Hint1 Hall1 Hrun).
    + injection Hrun as <- <- <-. exact Hall1.
    + injection Hrun as <- <- <-. exact Hall1.
Qed.

(** X11. When the scale is an [int64] and so are the literals of the
    commands, as in every workload that [Parse] returns, every parameter
    of every statement of a unit of work is an integer within [int64]:
    products and sums wrap around, and no float comes up. *)
Theorem params_stay_int64 (s : ClientWorkload) (m : Machine)
    (res : result unit) (uow : UnitOfWork) (m' : Machine) :
  inInt64 (cScale s) ->
  forallb commandInRange (cCommands s) = true ->
  ClientWorkload_Next s m = (res, uow, m') ->
  Forall (fun st => int64Vars (deref m' (Params st))) (Statements uow).
Proof.
  intros Hscale Hlit. rewrite Next_unfold. intros Hrun.
  destruct (newContext_separated s m) as [Hsep0 Hvars].
  refine (runCommands_int64 _ _ _ _ _ _ _ Hsep0 Hlit _ _ Hrun).
  - rewrite Hvars. intros k v Hk. apply lookup_singleton_Some in Hk as [_ <-].
    exists (cScale s). auto.
  - constructor.
Qed.

End MoreEvaluation.

Lemma Eval_writes_no_variable_witness :
  @Expression_Eval LcgRand (callExpr "random" [intExpr 1; intExpr 10]) context0 machine0 =
    (Ok (VInt 8), @mkMachine LcgRand [∅] (lcg.next 1337) 1) /\
  forall a, deref (@mkMachine LcgRand [∅] (lcg.next 1337) 1) a = deref machine0 a.
Proof.
  split; [reflexivity |].
  apply (@Eval_writes_no_variable LcgRand (callExpr "random" [intExpr 1; intExpr 10])
           context0 machine0 _ (Ok (VInt 8))).
  reflexivity.
Defined.

Lemma set_then_lookup_witness :
  (Vars context0 < List.length (heap machine0))%nat /\
  @Expression_Eval LcgRand (callExpr "*" [intExpr 2; intExpr 3]) context0 machine0 =
    (Ok (VInt 6), machine0) /\
  exists m',
    Execute (SetCommand "x" (callExpr "*" [intExpr 2; intExpr 3])) context0
      (mkUnitOfWork false []) machine0 = (Ok tt, mkUnitOfWork false [], m') /\
    Expression_Eval (varExpr "x") context0 m' = (Ok (VInt 6), m') /\
    (forall k, k <> "x" -> deref m' (Vars context0) !! k = deref machine0 (Vars context0) !! k) /\
    clientRand m' = clientRand machine0 /\ globalRand m' = globalRand machine0.
Proof.
  split; [simpl; lia |]. split; [reflexivity |].
  apply (@set_then_lookup LcgRand "x" (callExpr "*" [intExpr 2; intExpr 3]) context0
           (mkUnitOfWork false []) machine0 machine0 (VInt 6)); [simpl; lia | reflexivity].
Defined.

Lemma statements_follow_the_queries_witness :
  let s := mkClientWorkload true 1
             [QueryCommand "RETURN 1"; SetCommand "x" (varExpr "y"); QueryCommand "RETURN 2"] in
  let r := @ClientWorkload_Next LcgRand s machine0 in
  Readonly (snd (fst r)) = true /\
  (exists n, map Query (Statements (snd (fst r))) = queriesOf (take n (cCommands s))) /\
  (fst (fst r) = Ok tt -> map Query (Statements (snd (fst r))) = queriesOf (cCommands s)).
Proof.
  intros s r.
  apply (@statements_follow_the_queries LcgRand s machine0 (fst (fst r)) (snd (fst r)) (snd r)).
  reflexivity.
Defined.

Lemma Next_stops_at_first_error_witness :
  let s := mkClientWorkload true 1
             [QueryCommand "RETURN 1"; SetCommand "x" (varExpr "y"); QueryCommand "RETURN 2"] in
  let uow1 := mkUnitOfWork true [mkStatement "RETURN 1" 2] in
  let m1 := @mkMachine LcgRand [∅; {[ "scale" := VInt 1 ]}; copyVars {[ "scale" := VInt 1 ]}]
              1337 1 in
  @ClientWorkload_Next LcgRand s machine0 =
    (Err "this variable is not defined: y", uow1, m1) /\
  map Query (Statements uow1) = queriesOf [QueryCommand "RETURN 1"] /\
  forall a, deref m1 a = deref m1 a.
Proof.
  intros s uow1 m1.
  apply (@Next_stops_at_first_error LcgRand s machine0 [QueryCommand "RETURN 1"]
           [QueryCommand "RETURN 2"] (SetCommand "x" (varExpr "y")) uow1 uow1 m1 m1
           "this variable is not defined: y"); reflexivity.
Defined.

Lemma extra_arguments_are_ignored_witness :
  @Expression_Eval LcgRand (callExpr "*" [intExpr 2; intExpr 3; varExpr "undefined"])
    context0 machine0 = (Ok (VInt 6), machine0).
Proof.
  apply (@extra_arguments_are_ignored LcgRand "*" (intExpr 2) (intExpr 3)
           [varExpr "undefined"] context0 machine0 machine0 (Ok (VInt 6)));
    [discriminate | reflexivity].
Defined.

Lemma missing_arguments_are_reported_witness :
  @Expression_Eval LcgRand (intExpr 1) context0 machine0 = (Ok (VInt 1), machine0) /\
  @Expression_Eval LcgRand (callExpr "random" []) context0 machine0 =
    (Err "in random(): expected at least 1 arguments, got 0", machine0) /\
  @Expression_Eval LcgRand (callExpr "random" [intExpr 1]) context0 machine0 =
    (Err "in random(1): expected at least 2 arguments, got 1", machine0).
Proof.
  split; [reflexivity |].
  apply (@missing_arguments_are_reported LcgRand "random" (intExpr 1) context0
           machine0 machine0 (VInt 1)); [left |]; reflexivity.
Defined.

Lemma argument_errors_are_prefixed_witness :
  @Expression_Eval LcgRand (callExpr "*" [varExpr "y"; intExpr 1]) context0 machine0 =
    (Err "in *(:y, 1): this variable is not defined: y", machine0) /\
  @Expression_Eval LcgRand (callExpr "random" [intExpr 1; varExpr "z"]) context0 machine0 =
    (Err "in random(1, :z): this variable is not defined: z", machine0).
Proof.
  split.
  - apply (proj1 (@argument_errors_are_prefixed LcgRand "*" (varExpr "y") [intExpr 1]
                    context0 machine0 machine0 (Err "this variable is not defined: y")
                    (or_intror eq_refl) eq_refl)
             "this variable is not defined: y" eq_refl).
  - apply (proj1 (proj2 (proj2
             (@argument_errors_are_prefixed LcgRand "random" (intExpr 1) [varExpr "z"]
                context0 machine0 machine0 (Ok (VInt 1)) (or_introl eq_refl) eq_refl))
             (VInt 1) (varExpr "z") [] (Err "this variable is not defined: z") machine0
             eq_refl eq_refl eq_refl)
             "this variable is not defined: z" eq_refl).
Defined.

Lemma Eval_panics_only_in_Int63n_witness :
  @Expression_Eval LcgRand (callExpr "random" [intExpr 5; intExpr 1]) context0 machine0 =
    (Panic "invalid argument to Int63n", machine0) /\
  "invalid argument to Int63n" = "invalid argument to Int63n".
Proof.
  split; [reflexivity |].
  apply (@Eval_panics_only_in_Int63n LcgRand (callExpr "random" [intExpr 5; intExpr 1])
           context0 machine0 machine0).
  reflexivity.
Defined.

Lemma expressions_without_random_are_pure_witness :
  let e := callExpr "*" [intExpr 2; callExpr "*" [intExpr 3; intExpr 4]] in
  noRandom e = true /\
  snd (@Expression_Eval LcgRand e context0 machine0) = machine0 /\
  (forall p, fst (@Expression_Eval LcgRand e context0 machine0) <> Panic p) /\
  (forall m2, heap m2 = heap machine0 ->
     fst (@Expression_Eval LcgRand e context0 m2) =
     fst (@Expression_Eval LcgRand e context0 machine0)).
Proof.
  intros e. split; [reflexivity |].
  apply (@expressions_without_random_are_pure LcgRand e context0 machine0). reflexivity.
Defined.

Lemma params_stay_int64_witness :
  let s := mkClientWorkload false 3
             [SetCommand "x" (callExpr "*" [varExpr "scale"; intExpr 4611686018427387904]);
              QueryCommand "RETURN $x"] in
  let r := @ClientWorkload_Next LcgRand s machine0 in
  inInt64 (cScale s) /\
  forallb commandInRange (cCommands s) = true /\
  Forall (fun st => int64Vars (deref (snd r) (Params st))) (Statements (snd (fst r))).
Proof.
  intros s r. split; [unfold inInt64, minInt64, maxInt64; simpl; lia |].
  split; [reflexivity |].
  apply (@params_stay_int64 LcgRand s machine0 (fst (fst r)) (snd (fst r)) (snd r)).
  - unfold inInt64, minInt64, maxInt64. simpl. lia.
  - reflexivity.
  - reflexivity.
Defined.

(** ** The parser: what it keeps *)

Lemma Atoi_range s v : Atoi s = inl v -> (minInt64 <=? v) && (v <=? maxInt64) = true.
Proof.
  unfold Atoi.
  match goal with |- context [let '(_, _) := ?x in _] => destruct x as [neg digits] end.
  destruct (NilZero.uint_of_string digits) as [d |]; [| discriminate].
  destruct ((minInt64 <=? _) && (_ <=? maxInt64)) eqn:Hrange; [| discriminate].
  intros [= <-]. exact Hrange.
Qed.

Lemma wrap64_leb z : (minInt64 <=? wrap64 z) && (wrap64 z <=? maxInt64) = true.
Proof.
  destruct (wrap64_range z) as [H1 H2].
  apply andb_true_iff. split; apply Z.leb_le; assumption.
Qed.

Section ParserInvariants.
Context `{SL : scanner.ScannerLib}.

Lemma kept_refl c : kept c c.
Proof. repeat split; auto. Qed.

Lemma kept_trans c1 c2 c3 : kept c1 c2 -> kept c2 c3 -> kept c1 c3.
Proof.
  intros (F1 & W1 & E1 & D1) (F2 & W2 & E2 & D2).
  split; [congruence |]. split; [congruence |]. split; auto.
Qed.

Lemma kept_err_None c c' : kept c c' -> err c' = None -> err c = None.
Proof.
  intros (_ & _ & E & _) Hnone. destruct (err c) as [x |] eqn:Hx; [| reflexivity].
  rewrite (E x eq_refl) in Hnone. discriminate.
Qed.

Lemma Next_facts c tok txt c' :
  context_Next c = (tok, txt, c') ->
  kept c c' /\ err c' = err c /\
  (tok <> scanner.EOF -> done c' = done c) /\
  (peek c <> 0 -> tok = peek c /\ txt = peekText c /\ s c' = s c) /\
  peek c' = 0.
Proof.
  unfold context_Next, kept. destruct (peek c =? 0) eqn:Hp; cbn [negb].
  - unfold scan.
    destruct (scanner.Scan (scanner.Whitespace (s c)) (scanner.src (s c)))
      as [[next text] src1].
    intros [= <- <- <-]. simpl. apply Z.eqb_eq in Hp.
    split.
    { split; [reflexivity |]. split; [reflexivity |]. split; [auto |].
      intros Hd. rewrite Hd. destruct (next =? scanner.EOF); reflexivity. }
    split; [reflexivity |]. split; [| split; [congruence | exact Hp]].
    intros Hne. apply Z.eqb_neq in Hne. rewrite Hne. reflexivity.
  - intros [= <- <- <-]. simpl.
    split.
    { split; [reflexivity |]. split; [reflexivity |]. split; [auto |].
      intros Hd. rewrite Hd. destruct (peek c =? scanner.EOF); reflexivity. }
    split; [reflexivity |]. split; [| split; [auto | reflexivity]].
    intros Hne. apply Z.eqb_neq in Hne. rewrite Hne. reflexivity.
Qed.

Lemma Peek_facts c tok c' :
  context_Peek c = (tok, c') ->
  kept c c' /\ err c' = err c /\ done c' = done c /\ (tok <> 0 -> peek c' = tok).
Proof.
  unfold context_Peek, kept. destruct (peek c =? 0) eqn:Hp.
  - unfold scan.
    destruct (scanner.Scan (scanner.Whitespace (s c)) (scanner.src (s c)))
      as [[next text] src1].
    intros [= <- <-]. simpl. repeat split; auto.
  - intros [= <- <-]. repeat split; auto.
Qed.

Lemma fail_facts e c :
  kept c (context_fail e c) /\ done (context_fail e c) = true /\
  err (context_fail e c) <> None /\ s (context_fail e c) = s c.
Proof.
  unfold context_fail, kept. destruct (err c) as [x |] eqn:Hx; simpl.
  - repeat split; auto.
  - repeat split; auto; discriminate.
Qed.

Lemma fail_failedWhenDone e c : failedWhenDone (context_fail e c).
Proof. intros _. apply fail_facts. Qed.

Lemma Next_failedWhenDone c tok txt c' :
  context_Next c = (tok, txt, c') -> tok <> scanner.EOF ->
  failedWhenDone c -> failedWhenDone c'.
Proof.
  intros En Hne Hinv Hd. destruct (Next_facts _ _ _ _ En) as (_ & He & Hdone & _).
  rewrite He. apply Hinv. rewrite <- (Hdone Hne). exact Hd.
Qed.

Lemma expect_facts c expected :
  kept c (expect c expected) /\
  (expected <> scanner.EOF -> failedWhenDone c -> failedWhenDone (expect c expected)).
Proof.
  unfold expect. destruct (context_Next c) as [[tok txt] c1] eqn:En.
  destruct (Next_facts _ _ _ _ En) as (Hk & _).
  destruct (tok =? expected) eqn:Ht; cbn [negb].
  - split; [exact Hk |]. intros Hne. apply Z.eqb_eq in Ht. subst tok.
    apply (Next_failedWhenDone _ _ _ _ En Hne).
  - split; [eapply kept_trans; [exact Hk | apply fail_facts] |].
    intros _ _. apply fail_failedWhenDone.
Qed.

Lemma ident_facts c :
  kept c (snd (ident c)) /\ (failedWhenDone c -> failedWhenDone (snd (ident c))).
Proof.
  unfold ident. destruct (context_Next c) as [[tok txt] c1] eqn:En.
  destruct (Next_facts _ _ _ _ En) as (Hk & _).
  destruct (tok =? scanner.Ident) eqn:Ht; cbn [negb snd].
  - split; [exact Hk |]. apply Z.eqb_eq in Ht. subst tok.
    apply (Next_failedWhenDone _ _ _ _ En). discriminate.
  - split; [eapply kept_trans; [exact Hk | apply fail_facts] |].
    intros _. apply fail_failedWhenDone.
Qed.

Section Bodies.
Variable f : context -> option (Expression * context).
Hypothesis Hf : forall c e c', f c = Some (e, c') ->
  kept c c' /\
  (failedWhenDone c -> failedWhenDone c' /\ (err c' = None -> wellFormed e = true)).

Lemma factorArgs_good n : forall args tok c res c',
  factorArgs f n args tok c = Some (res, c') ->
  kept c c' /\
  (failedWhenDone c -> (tok = rune ")" -> peek c = rune ")") ->
   failedWhenDone c' /\
   match res with
   | Some l =>
       peek c' = rune ")" /\
       (err c' = None -> forallb wellFormed args = true -> forallb wellFormed l = true)
   | None => done c' = true
   end).
Proof.
  assert (Hstop : forall args tok c res c',
            (tok =? rune ")") = true -> Some (Some args, c) = Some (res, c') ->
            kept c c' /\
            (failedWhenDone c -> (tok = rune ")" -> peek c = rune ")") ->
             failedWhenDone c' /\
             match res with
             | Some l =>
                 peek c' = rune ")" /\
                 (err c' = None -> forallb wellFormed args = true ->
                  forallb wellFormed l = true)
             | None => done c' = true
             end)).
  { intros args tok c res c' Ht [= <- <-]. apply Z.eqb_eq in Ht.
    split; [apply kept_refl |]. intros Hinv Hpeek. auto. }
  induction n as [| n IH]; intros args tok c res c' H; simpl in H.
  - destruct (tok =? rune ")") eqn:Ht; [| discriminate]. apply (Hstop _ _ _ _ _ Ht H).
  - destruct (tok =? rune ")") eqn:Ht; [apply (Hstop _ _ _ _ _ Ht H) |].
    set (c1 := if (0 <? List.length args)%nat then expect c (rune ",") else c) in *.
    assert (H1 : kept c c1 /\ (failedWhenDone c -> failedWhenDone c1)).
    { unfold c1. destruct (0 <? List.length args)%nat; [| split; [apply kept_refl | auto]].
      destruct (expect_facts c (rune ",")) as [Hk Hi].
      split; [exact Hk | apply Hi; discriminate]. }
    destruct H1 as [Hk1 Hi1].
    destruct (f c1) as [[e c2] |] eqn:E; simpl in H; [| discriminate].
    destruct (Hf _ _ _ E) as [Hk2 Hi2].
    destruct (done c2) eqn:Hd2.
    + injection H as <- <-. split; [eapply kept_trans; eassumption |].
      intros Hinv _. destruct (Hi2 (Hi1 Hinv)) as [Hinv2 _]. auto.
    + destruct (context_Peek c2) as [tok' c3] eqn:Ep.
      destruct (Peek_facts _ _ _ Ep) as (Hk3 & He3 & Hd3 & Hp3).
      destruct (IH _ _ _ _ _ H) as [Hk4 Hi4].
      split.
      { eapply kept_trans; [exact Hk1 |]. eapply kept_trans; [exact Hk2 |].
        eapply kept_trans; eassumption. }
      intros Hinv _. destruct (Hi2 (Hi1 Hinv)) as [Hinv2 Hwf].
      assert (Hinv3 : failedWhenDone c3).
      { intros Hd. rewrite Hd3, Hd2 in Hd. discriminate. }
      destruct (Hi4 Hinv3) as [Hinv' Hres].
      { intros ->. apply Hp3. discriminate. }
      split; [exact Hinv' |]. destruct res as [l |]; [| exact Hres].
      destruct Hres as [Hpk Hl]. split; [exact Hpk |]. intros Herr Hargs.
      apply Hl; [exact Herr |].
      rewrite forallb_app, Hargs. cbn [forallb andb]. rewrite Hwf; [reflexivity |].
      rewrite <- He3. apply (kept_err_None _ _ Hk4 Herr).
Qed.

Lemma factor_good n c e c' :
  factor f n c = Some (e, c') ->
  kept c c' /\
  (failedWhenDone c -> failedWhenDone c' /\ (err c' = None -> wellFormed e = true)).
Proof.
  unfold factor. destruct (context_Next c) as [[tok content] c1] eqn:En.
  destruct (Next_facts _ _ _ _ En) as (Hk1 & _).
  pose proof (Next_failedWhenDone _ _ _ _ En) as Hi1.
  assert (Hfail : forall msg ctx0,
            kept c ctx0 ->
            Some (nullExpr, context_fail msg ctx0) = Some (e, c') ->
            kept c c' /\
            (failedWhenDone c -> failedWhenDone c' /\ (err c' = None -> wellFormed e = true))).
  { intros msg ctx0 Hk0 [= <- <-].
    destruct (fail_facts msg ctx0) as (Hk & _ & Herr & _).
    split; [eapply kept_trans; eassumption |].
    intros _. split; [apply fail_failedWhenDone | intros Hnone; contradiction]. }
  destruct (tok =? scanner.Ident) eqn:Hident.
  { apply Z.eqb_eq in Hident. subst tok.
    destruct (expect_facts c1 (rune "(")) as [Hk2 Hi2].
    destruct (context_Peek (expect c1 (rune "("))) as [tok2 c3] eqn:Ep.
    destruct (Peek_facts _ _ _ Ep) as (Hk3 & He3 & Hd3 & Hp3).
    destruct (factorArgs f n [] tok2 c3) as [[args c4] |] eqn:Ea; simpl; [| discriminate].
    destruct (factorArgs_good _ _ _ _ _ _ Ea) as [Hk4 Hi4].
    assert (Hk14 : kept c c4).
    { eapply kept_trans; [exact Hk1 |]. eapply kept_trans; [exact Hk2 |].
      eapply kept_trans; eassumption. }
    assert (Hinv3 : failedWhenDone c -> failedWhenDone c3).
    { intros Hinv Hd. rewrite He3. rewrite Hd3 in Hd.
      apply (Hi2 ltac:(discriminate) (Hi1 ltac:(discriminate) Hinv) Hd). }
    destruct args as [args |].
    - destruct (context_Next c4) as [[tok5 txt5] c5] eqn:E5.
      destruct (Next_facts _ _ _ _ E5) as (Hk5 & He5 & Hd5 & Hp5 & _).
      intros [= <- <-]. split; [eapply kept_trans; eassumption |].
      intros Hinv. destruct (Hi4 (Hinv3 Hinv)) as [Hinv4 [Hpk Hwf]].
      { intros ->. apply Hp3. discriminate. }
      assert (Htok5 : tok5 <> scanner.EOF).
      { destruct Hp5 as [-> _]; rewrite Hpk; discriminate. }
      split; [apply (Next_failedWhenDone _ _ _ _ E5 Htok5 Hinv4) |].
      intros Hnone. cbn [wellFormed]. rewrite He5 in Hnone. apply (Hwf Hnone). reflexivity.
    - intros [= <- <-]. split; [exact Hk14 |].
      intros Hinv. destruct (Hi4 (Hinv3 Hinv)) as [Hinv4 Hd4].
      { intros ->. apply Hp3. discriminate. }
      split; [exact Hinv4 |]. intros Hnone. destruct (Hinv4 Hd4 Hnone). }
  destruct (tok =? scanner.Int) eqn:Hint.
  { apply Z.eqb_eq in Hint. subst tok.
    destruct (Atoi content) as [v | msg] eqn:Ha; [| apply (Hfail _ _ Hk1)].
    intros [= <- <-]. split; [exact Hk1 |].
    intros Hinv. split; [apply Hi1; [discriminate | exact Hinv] |].
    intros _. apply (Atoi_range _ _ Ha). }
  destruct (tok =? rune "-") eqn:Hminus.
  { apply Z.eqb_eq in Hminus. subst tok.
    destruct (context_Next c1) as [[tok2 content2] c2] eqn:En2.
    destruct (Next_facts _ _ _ _ En2) as (Hk2 & _).
    assert (Hk12 : kept c c2) by (eapply kept_trans; eassumption).
    destruct (tok2 =? scanner.Int) eqn:Hint2; [| apply (Hfail _ _ Hk12)].
    apply Z.eqb_eq in Hint2. subst tok2.
    destruct (Atoi content2) as [v | msg] eqn:Ha; [| apply (Hfail _ _ Hk12)].
    intros [= <- <-]. split; [exact Hk12 |].
    intros Hinv. split.
    - apply (Next_failedWhenDone _ _ _ _ En2); [discriminate |].
      apply Hi1; [discriminate | exact Hinv].
    - intros _. apply wrap64_leb. }
  destruct (tok =? rune ":") eqn:Hcolon; [| apply (Hfail _ _ Hk1)].
  apply Z.eqb_eq in Hcolon. subst tok.
  destruct (ident_facts c1) as [Hk2 Hi2].
  destruct (ident c1) as [varName c2]. cbn [snd] in Hk2, Hi2.
  intros [= <- <-]. split; [eapply kept_trans; eassumption |].
  intros Hinv. split; [| reflexivity].
  apply Hi2, Hi1; [discriminate | exact Hinv].
Qed.

Lemma exprBody_good n c e c' :
  exprBody f n c = Some (e, c') ->
  kept c c' /\
  (failedWhenDone c -> failedWhenDone c' /\ (err c' = None -> wellFormed e = true)).
Proof.
  unfold exprBody, term.
  destruct (factor f n c) as [[lhs c1] |] eqn:E1; simpl; [| discriminate].
  destruct (factor_good _ _ _ _ E1) as [Hk1 Hi1].
  destruct (context_Peek c1) as [tok c2] eqn:Ep.
  destruct (Peek_facts _ _ _ Ep) as (Hk2 & He2 & Hd2 & Hp2).
  assert (Hinv2 : failedWhenDone c -> failedWhenDone c2).
  { intros Hinv Hd. rewrite He2. rewrite Hd2 in Hd. apply (proj1 (Hi1 Hinv) Hd). }
  destruct (tok =? rune "*") eqn:Hstar.
  - apply Z.eqb_eq in Hstar. subst tok.
    destruct (context_Next c2) as [[tok3 txt3] c3] eqn:En.
    destruct (Next_facts _ _ _ _ En) as (Hk3 & He3 & _ & Hp3 & _).
    destruct (factor f n c3) as [[rhs c4] |] eqn:E4; simpl; [| discriminate].
    destruct (factor_good _ _ _ _ E4) as [Hk4 Hi4].
    intros [= <- <-]. split.
    { eapply kept_trans; [exact Hk1 |]. eapply kept_trans; [exact Hk2 |].
      eapply kept_trans; eassumption. }
    intros Hinv.
    assert (Htok3 : tok3 <> scanner.EOF).
    { destruct Hp3 as [-> _]; rewrite Hp2; discriminate. }
    destruct (Hi4 (Next_failedWhenDone _ _ _ _ En Htok3 (Hinv2 Hinv))) as [Hinv4 Hwf4].
    split; [exact Hinv4 |]. intros Hnone. cbn [wellFormed forallb].
    rewrite (Hwf4 Hnone), (proj2 (Hi1 Hinv)); [reflexivity |].
    rewrite <- He2, <- He3. apply (kept_err_None _ _ Hk4 Hnone).
  - intros [= <- <-]. split; [eapply kept_trans; eassumption |].
    intros Hinv. split; [apply Hinv2, Hinv |].
    rewrite He2. apply (Hi1 Hinv).
Qed.

End Bodies.

Lemma expr_good n : forall c e c',
  expr n c = Some (e, c') ->
  kept c c' /\
  (failedWhenDone c -> failedWhenDone c' /\ (err c' = None -> wellFormed e = true)).
Proof.
  induction n as [| n IH]; intros c e c' H; [discriminate |].
  apply (exprBody_good (expr n) IH n c e c' H).
Qed.

Lemma metaCommand_good n c cmd c' :
  metaCommand n c = Some (cmd, c') ->
  kept c c' /\
  (failedWhenDone c -> failedWhenDone c' /\ (err c' = None -> parsedCommand cmd = true)).
Proof.
  unfold metaCommand.
  destruct (expect_facts c (rune "\")) as [Hk1 Hi1].
  destruct (ident_facts (expect c (rune "\"))) as [Hk2 Hi2].
  destruct (ident (expect c (rune "\"))) as [word c2]. cbn [snd] in Hk2, Hi2.
  assert (Hk12 : kept c c2) by (eapply kept_trans; eassumption).
  destruct (String.eqb word "set").
  - destruct (ident_facts c2) as [Hk3 Hi3].
    destruct (ident c2) as [varName c3]. cbn [snd] in Hk3, Hi3.
    destruct (expr n c3) as [[e c4] |] eqn:E; simpl; [| discriminate].
    destruct (expr_good _ _ _ _ E) as [Hk4 Hi4].
    intros [= <- <-]. split.
    { eapply kept_trans; [exact Hk12 |]. eapply kept_trans; eassumption. }
    intros Hinv. apply Hi4, Hi3, Hi2, Hi1; [discriminate | exact Hinv].
  - intros [= <- <-]. destruct (fail_facts ("unexpected meta command: '" +:+ word +:+ "'") c2)
      as (Hk & _ & Herr & _).
    split; [eapply kept_trans; eassumption |].
    intros _. split; [apply fail_failedWhenDone | intros Hnone; contradiction].
Qed.

Lemma commandLoop_kept n : forall b c r c',
  commandLoop n b c = Some (r, c') -> kept c c'.
Proof.
  induction n as [| n IH]; intros b c r c' H; [discriminate |]. simpl in H.
  destruct (context_Next c) as [[tok content] c1] eqn:En.
  destruct (Next_facts _ _ _ _ En) as (Hk1 & _).
  destruct (tok =? rune ";").
  - injection H as <- <-. exact Hk1.
  - eapply kept_trans; [exact Hk1 | apply (IH _ _ _ _ H)].
Qed.

Lemma command_kept n c cmd c' :
  command n c = Some (cmd, c') -> kept c c' /\ parsedCommand cmd = true.
Proof.
  unfold command.
  destruct (commandLoop n EmptyString (setWhitespace 0 c)) as [[b c1] |] eqn:El; simpl;
    [| discriminate].
  destruct (commandLoop_kept _ _ _ _ _ El) as (F & W & E & D).
  intros [= <- <-]. split; [| reflexivity]. repeat split; simpl; auto.
Qed.

Lemma parseLoop_good n : forall c cmds r c',
  parseLoop n c cmds = Some (r, c') ->
  kept c c' /\
  ((err c = None -> forallb parsedCommand cmds = true) ->
   err c' = None -> forallb parsedCommand r = true).
Proof.
  induction n as [| n IH]; intros c cmds r c' H; [discriminate |]. simpl in H.
  destruct (done c) eqn:Hd.
  { injection H as <- <-. split; [apply kept_refl | auto]. }
  destruct (context_Peek c) as [tok c1] eqn:Ep.
  destruct (Peek_facts _ _ _ Ep) as (Hk1 & He1 & Hd1 & _).
  assert (Hinv1 : failedWhenDone c1).
  { intros Hd'. rewrite Hd1, Hd in Hd'. discriminate. }
  destruct (tok =? scanner.EOF).
  { injection H as <- <-. split; [exact Hk1 |]. rewrite He1. auto. }
  assert (Hstep : forall cmd c2,
            kept c1 c2 -> (err c2 = None -> parsedCommand cmd = true) ->
            parseLoop n c2 (cmds ++ [cmd]) = Some (r, c') ->
            kept c c' /\
            ((err c = None -> forallb parsedCommand cmds = true) ->
             err c' = None -> forallb parsedCommand r = true)).
  { intros cmd c2 Hk2 Hcmd Hloop. destruct (IH _ _ _ _ Hloop) as [Hk3 Hall].
    split; [eapply kept_trans; [exact Hk1 |]; eapply kept_trans; eassumption |].
    intros Hcmds Hnone. apply Hall; [| exact Hnone].
    intros Hnone2. rewrite forallb_app. cbn [forallb].
    rewrite (Hcmd Hnone2), Hcmds; [reflexivity |].
    rewrite <- He1. apply (kept_err_None _ _ Hk2 Hnone2). }
  destruct (tok =? rune "\").
  - destruct (metaCommand n c1) as [[cmd c2] |] eqn:Em; simpl in H; [| discriminate].
    destruct (metaCommand_good _ _ _ _ Em) as [Hk2 Hi2].
    apply (Hstep cmd c2 Hk2); [apply (Hi2 Hinv1) | exact H].
  - destruct (tok =? rune newline).
    + destruct (context_Next c1) as [[tok' txt] c2] eqn:En.
      destruct (Next_facts _ _ _ _ En) as (Hk2 & He2 & _).
      destruct (IH _ _ _ _ H) as [Hk3 Hall].
      split; [eapply kept_trans; [exact Hk1 |]; eapply kept_trans; eassumption |].
      intros Hcmds Hnone. apply Hall; [| exact Hnone].
      rewrite He2, He1. exact Hcmds.
    + destruct (command n c1) as [[cmd c2] |] eqn:Ec; simpl in H; [| discriminate].
      destruct (command_kept _ _ _ _ Ec) as [Hk2 Hcmd].
      apply (Hstep cmd c2 Hk2); [intros _; exact Hcmd | exact H].
Qed.

(** X12. A token looked at with [Peek] is the token the next [Next] returns,
    with its text, and looking again gives the same token: nothing is
    read twice and nothing is lost (a token [0] apart, which [Peek]
    takes for no token). *)
Theorem Peek_then_Next (c c1 : context) (tok : Z) :
  context_Peek c = (tok, c1) -> tok <> 0 ->
  context_Peek c1 = (tok, c1) /\
  exists txt c2 c2',
    context_Next c1 = (tok, txt, c2) /\ context_Next c = (tok, txt, c2') /\
    s c2 = s c2' /\ peek c2 = 0 /\ peek c2' = 0 /\
    done c2 = done c2' /\ err c2 = err c2'.
Proof.
  unfold context_Peek, context_Next. intros Hpeek Htok.
  destruct (peek c =? 0) eqn:Hp.
  - unfold scan in *.
    destruct (scanner.Scan (scanner.Whitespace (s c)) (scanner.src (s c)))
      as [[next text] src1].
    injection Hpeek as <- <-. cbn [peek]. apply Z.eqb_neq in Htok. rewrite Htok.
    split; [reflexivity |]. cbn [negb]. eexists _, _, _.
    split; [reflexivity |]. split; [reflexivity |]. simpl.
    apply Z.eqb_eq in Hp. repeat split; auto.
  - injection Hpeek as <- <-. rewrite Hp. split; [reflexivity |]. cbn [negb].
    eexists _, _, _. split; [reflexivity |]. split; [reflexivity |]. repeat split.
Qed.

(** X13. The parser keeps the first failure: once an error is recorded, none
    of [expr], [metaCommand], [command] and the loop of [Parse] replaces
    it, so the error that [Parse] returns is the first one met. *)
Theorem first_error_is_kept (fuel : nat) (c : context) (e : string) :
  err c = Some e ->
  (forall x c', expr fuel c = Some (x, c') -> err c' = Some e) /\
  (forall cmd c', metaCommand fuel c = Some (cmd, c') -> err c' = Some e) /\
  (forall cmd c', command fuel c = Some (cmd, c') -> err c' = Some e) /\
  (forall cmds r c', parseLoop fuel c cmds = Some (r, c') -> err c' = Some e).
Proof.
  intros Herr. repeat split.
  - intros x c' H. destruct (expr_good _ _ _ _ H) as [(_ & _ & E & _) _]. auto.
  - intros cmd c' H. destruct (metaCommand_good _ _ _ _ H) as [(_ & _ & E & _) _]. auto.
  - intros cmd c' H. destruct (command_kept _ _ _ _ H) as [(_ & _ & E & _) _]. auto.
  - intros cmds r c' H. destruct (parseLoop_good _ _ _ _ _ H) as [(_ & _ & E & _) _]. auto.
Qed.

(** X14. [command] reads a query with the scanner set to skip no white space
    and sets it back when it returns: after a command, and after the
    whole loop of [Parse], the scanner has the white space mode (and the
    file name) it had. *)
Theorem whitespace_mode_is_restored (fuel : nat) (c c' : context) :
  (forall cmd, command fuel c = Some (cmd, c') ->
     scanner.Whitespace (s c') = scanner.Whitespace (s c) /\
     scanner.Filename (s c') = scanner.Filename (s c)) /\
  (forall cmds r, parseLoop fuel c cmds = Some (r, c') ->
     scanner.Whitespace (s c') = scanner.Whitespace (s c) /\
     scanner.Filename (s c') = scanner.Filename (s c)).
Proof.
  split.
  - intros cmd H. destruct (command_kept _ _ _ _ H) as [(F & W & _) _]. auto.
  - intros cmds r H. destruct (parseLoop_good _ _ _ _ _ H) as [(F & W & _) _]. auto.
Qed.

(** X15. A workload that [Parse] returns without an error has the scale it
    was given and is not read-only, and its commands are well formed:
    no [nil] command, no empty expression inside an expression, every
    integer literal within [int64]. *)
Theorem Parse_success_is_well_formed (fuel : nat) (filename script : string)
    (scale seed seed' : Z) (w : Workload) :
  Parse fuel filename script scale seed = Some (inl (w, seed')) ->
  seed' = seed /\ wScale w = scale /\ wReadonly w = false /\
  forallb parsedCommand (wCommands w) = true.
Proof.
  unfold Parse.
  destruct (parseLoop fuel (initialContext filename script) []) as [[cmds c] |] eqn:E;
    simpl; [| discriminate].
  destruct (err c) as [msg |] eqn:Herr; [discriminate |].
  intros [= <- <-]. repeat split.
  destruct (parseLoop_good _ _ _ _ _ E) as [_ Hall]. apply Hall; [reflexivity | exact Herr].
Qed.

End ParserInvariants.

Lemma Peek_then_Next_witness :
  let c := @initialContext SimpleScanner "f" "RETURN 1;" in
  let c1 := snd (context_Peek c) in
  context_Peek c1 = (scanner.Ident, c1) /\
  exists txt c2 c2',
    context_Next c1 = (scanner.Ident, txt, c2) /\ context_Next c = (scanner.Ident, txt, c2') /\
    s c2 = s c2' /\ peek c2 = 0 /\ peek c2' = 0 /\
    done c2 = done c2' /\ err c2 = err c2'.
Proof.
  intros c c1.
  apply (@Peek_then_Next SimpleScanner c c1 scanner.Ident); [reflexivity | discriminate].
Defined.

Lemma first_error_is_kept_witness :
  let c := context_fail "first" (@initialContext SimpleScanner "f" "\bad 1") in
  (forall x c', expr 3 c = Some (x, c') -> err c' = Some "first (at f:1:1)") /\
  (forall cmd c', metaCommand 3 c = Some (cmd, c') -> err c' = Some "first (at f:1:1)") /\
  (forall cmd c', command 3 c = Some (cmd, c') -> err c' = Some "first (at f:1:1)") /\
  (forall cmds r c', parseLoop 3 c cmds = Some (r, c') -> err c' = Some "first (at f:1:1)").
Proof.
  intros c. apply (@first_error_is_kept SimpleScanner 3 c "first (at f:1:1)"). reflexivity.
Defined.

Lemma Parse_success_is_well_formed_witness :
  let script := "\set x random(1, 10) * 3" +:+ String newline "RETURN  :x;" in
  let w := mkWorkload false 5
             [SetCommand "x" (callExpr "*" [callExpr "random" [intExpr 1; intExpr 10]; intExpr 3]);
              QueryCommand "RETURN  :x"] in
  Parse 30 "f" script 5 1337 = Some (inl (w, 1337)) /\
  1337 = 1337 /\ wScale w = 5 /\ wReadonly w = false /\
  forallb parsedCommand (wCommands w) = true.
Proof.
  intros script w. split; [reflexivity |].
  apply (@Parse_success_is_well_formed SimpleScanner 30 "f" script 5 1337 1337 w).
  reflexivity.
Defined.

(** ** From the script to the unit of work *)

Lemma wellFormed_literalsInRange e : wellFormed e = true -> literalsInRange e = true.
Proof.
  induction e as [| v | name args IH | v] using Expression_ind; cbn [wellFormed literalsInRange];
    auto.
  intros H. rewrite forallb_forall in *. rewrite List.Forall_forall in IH.
  intros a Hin. apply (IH a Hin), H, Hin.
Qed.

Lemma parsedCommand_commandInRange cmds :
  forallb parsedCommand cmds = true -> forallb commandInRange cmds = true.
Proof.
  rewrite !forallb_forall. intros H cmd Hin. specialize (H cmd Hin).
  destruct cmd as [q | name e |]; cbn [parsedCommand commandInRange] in *;
    [reflexivity | apply wellFormed_literalsInRange, H | reflexivity].
Qed.

Lemma runCommands_panics `{RL : rand.RandLib} cmds :
  forall ctx uow (m : Machine) p uow' m',
    forallb parsedCommand cmds = true ->
    runCommands cmds ctx uow m = (Panic p, uow', m') ->
    p = "invalid argument to Int63n".
Proof.
  induction cmds as [| cmd rest IH]; intros ctx uow m p uow' m' Hall Hrun; simpl in Hrun.
  - discriminate.
  - cbn [forallb] in Hall. apply andb_true_iff in Hall as [Hcmd Hrest].
    destruct cmd as [q | name e |]; simpl in Hrun.
    + apply (IH _ _ _ _ _ _ Hrest Hrun).
    + destruct (Expression_Eval e ctx m) as [[v | msg | msg] m1] eqn:Hev.
      * apply (IH _ _ _ _ _ _ Hrest Hrun).
      * discriminate.
      * injection Hrun as <- <- <-. apply (panicsOnly_Eval e ctx _ _ _ Hev).
    + discriminate.
Qed.

(** X16. Parsing, then running: for every script that [Parse] accepts, with
    a scale within [int64], every client made from the workload builds
    units of work whose parameters are all integers within [int64], and
    if [Next] panics it is in [Int63n], called by [random] with a bound
    that is not positive: no command is [nil], no argument is missing. *)
Theorem parsed_workload_runs_within_int64 `{SL : scanner.ScannerLib} `{RL : rand.RandLib}
    (fuel : nat) (filename script : string) (scale seed seed' : Z) (w : Workload)
    (r : rand.Source) (m m' : Machine) (res : result unit) (uow : UnitOfWork) :
  Parse fuel filename script scale seed = Some (inl (w, seed')) ->
  inInt64 scale ->
  ClientWorkload_Next (fst (fst (NewClient w r))) m = (res, uow, m') ->
  Forall (fun st => int64Vars (deref m' (Params st))) (Statements uow) /\
  (forall p, res = Panic p -> p = "invalid argument to Int63n").
Proof.
  unfold Parse.
  destruct (parseLoop fuel (initialContext filename script) []) as [[cmds c] |] eqn:E;
    simpl; [| discriminate].
  destruct (err c) as [msg |] eqn:Herr; [discriminate |].
  intros [= <- <-] Hscale.
  destruct (parseLoop_good _ _ _ _ _ E) as [_ Hall].
  specialize (Hall (fun _ => eq_refl) Herr).
  unfold NewClient. destruct (rand.Int63 r) as [sd r']. cbn [fst wCommands wScale wReadonly].
  rewrite Next_unfold. cbn [cCommands cReadonly].
  set (cl := mkClientWorkload false scale cmds).
  intros Hrun. destruct (newContext_separated cl m) as [Hsep0 Hvars]. split.
  - refine (runCommands_int64 _ _ _ _ _ _ _ Hsep0 (parsedCommand_commandInRange _ Hall) _ _ Hrun).
    + rewrite Hvars. intros k v Hk. apply lookup_singleton_Some in Hk as [_ <-].
      exists scale. auto.
    + constructor.
  - intros p ->. apply (runCommands_panics _ _ _ _ _ _ _ Hall Hrun).
Qed.

Lemma parsed_workload_runs_within_int64_witness :
  let script := "\set x random(1, 10) * 3" +:+ String newline "RETURN  :x;" in
  let w := mkWorkload false 5
             [SetCommand "x" (callExpr "*" [callExpr "random" [intExpr 1; intExpr 10]; intExpr 3]);
              QueryCommand "RETURN  :x"] in
  let out := @ClientWorkload_Next LcgRand (fst (fst (@NewClient LcgRand w 7))) machine0 in
  inInt64 5 /\
  Forall (fun st => int64Vars (deref (snd out) (Params st))) (Statements (snd (fst out))) /\
  (forall p, fst (fst out) = Panic p -> p = "invalid argument to Int63n").
Proof.
  intros script w out.
  assert (Hscale : inInt64 5) by (unfold inInt64, minInt64, maxInt64; lia).
  split; [exact Hscale |].
  apply (@parsed_workload_runs_within_int64 SimpleScanner LcgRand 30 "f" script 5 1337 1337 w
           7 machine0 (snd out) (fst (fst out)) (snd (fst out)));
    [reflexivity | exact Hscale | reflexivity].
Defined.

(** ** Integer literals *)

Lemma Atoi_formatNat_big n :
  maxInt64 < Z.of_N n ->
  Atoi (formatNat n) = inr (atoiError (formatNat n) "value out of range").
Proof.
  intros Hn. unfold Atoi, formatNat.
  assert (Hnil : N.to_uint n <> Decimal.Nil).
  { destruct n as [| p]; [discriminate |]. simpl.
    intros H. apply (f_equal Pos.of_uint) in H.
    rewrite DecimalPos.Unsigned.of_to in H. discriminate. }
  assert (Hsign :
    match NilZero.string_of_uint (N.to_uint n) with
    | String "-" r => (true, r)
    | String "+" r => (false, r)
    | _ => (false, NilZero.string_of_uint (N.to_uint n))
    end = (false, NilZero.string_of_uint (N.to_uint n))).
  { destruct (N.to_uint n); try congruence; reflexivity. }
  rewrite Hsign, (NilZero.usu _ Hnil), DecimalN.Unsigned.of_to.
  destruct (Z.leb_spec (Z.of_N n) maxInt64) as [Hle | _]; [lia |].
  rewrite andb_false_r. reflexivity.
Qed.

(** X17. An integer literal greater than [2^63 - 1] is a parse error, the
    range error of [strconv.Atoi] with the position, whether a minus
    sign comes before it or not: the literals go from [-(2^63 - 1)] to
    [2^63 - 1], and the least [int64], [-2^63], cannot be written. *)
Theorem literals_beyond_int64_are_rejected `{SL : scanner.ScannerLib}
    (f : context -> option (Expression * context)) (fuel : nat)
    (c : context) (neg : bool) (n : N) (rest : list (Z * string))
    (src' : scanner.source) :
  err c = None ->
  pending c ((if neg then [(rune "-", "-")] else []) ++ (scanner.Int, formatNat n) :: rest)
    src' ->
  maxInt64 < Z.of_N n ->
  exists c',
    factor f fuel c = Some (nullExpr, c') /\ done c' = true /\
    err c' = Some (atoiError (formatNat n) "value out of range" +:+
                   " (at " +:+ scanner.PosString (s c') +:+ ")") /\
    pending c' rest src'.
Proof.
  intros Herr Hp Hn.
  assert (Hfail : forall c1 : context,
            err c1 = None -> peek c1 = 0 -> pending c1 rest src' ->
            let c' := context_fail (atoiError (formatNat n) "value out of range") c1 in
            done c' = true /\
            err c' = Some (atoiError (formatNat n) "value out of range" +:+
                           " (at " +:+ scanner.PosString (s c') +:+ ")") /\
            pending c' rest src').
  { intros c1 He1 Hpk Hp1. unfold context_fail. rewrite He1. cbn.
    split; [reflexivity |]. split; [reflexivity |].
    unfold pending in *. cbn [peek s peekText]. exact Hp1. }
  destruct neg; cbn [app] in Hp.
  - destruct (Next_pending _ _ _ _ _ Hp ltac:(discriminate) ltac:(discriminate))
      as (c1 & E1 & _ & Hp1 & Hs1).
    destruct (Next_pending _ _ _ _ _ Hp1 ltac:(discriminate) ltac:(discriminate))
      as (c2 & E2 & Hpeek2 & Hp2 & Hs2).
    eexists. unfold factor. rewrite E1.
    change (rune "-" =? scanner.Ident) with false.
    change (rune "-" =? scanner.Int) with false.
    rewrite Z.eqb_refl, E2, Z.eqb_refl, (Atoi_formatNat_big n Hn).
    split; [reflexivity |]. apply Hfail; [| exact Hpeek2 | exact Hp2].
    destruct Hs1 as (_ & _ & _ & He1), Hs2 as (_ & _ & _ & He2). congruence.
  - destruct (Next_pending _ _ _ _ _ Hp ltac:(discriminate) ltac:(discriminate))
      as (c1 & E1 & Hpeek1 & Hp1 & Hs1).
    eexists. unfold factor. rewrite E1.
    change (scanner.Int =? scanner.Ident) with false.
    rewrite Z.eqb_refl, (Atoi_formatNat_big n Hn).
    split; [reflexivity |]. apply Hfail; [| exact Hpeek1 | exact Hp1].
    destruct Hs1 as (_ & _ & _ & He1). congruence.
Qed.

Lemma literals_beyond_int64_are_rejected_witness :
  let c := @initialContext SimpleScanner "f" "-9223372036854775808" in
  err c = None /\
  maxInt64 < Z.of_N 9223372036854775808 /\
  exists c',
    factor (expr 1) 1 c = Some (nullExpr, c') /\ done c' = true /\
    err c' = Some (atoiError (formatNat 9223372036854775808) "value out of range" +:+
                   " (at " +:+ scanner.PosString (s c') +:+ ")") /\
    pending c' [] (simple.mkSource EmptyString 1 21).
Proof.
  intros c. split; [reflexivity |]. split; [reflexivity |].
  apply (@literals_beyond_int64_are_rejected SimpleScanner (expr 1) 1 c true
           9223372036854775808 [] (simple.mkSource EmptyString 1 21)).
  - reflexivity.
  - unfold pending. simpl.
    repeat (eapply reads_cons; [cbv; reflexivity |]). apply reads_nil.
  - reflexivity.
Defined.

(** ** Scripts of [\set] lines *)

Section SetLines.
Context `{SL : scanner.ScannerLib}.

Lemma metaCommand_accepts n name e c f fx rest src' :
  isExpr e -> (need e <= n)%nat -> done c = false ->
  f <> rune "*" -> f <> 0 ->
  pending c ((rune "\", "\") :: (scanner.Ident, "set") :: (scanner.Ident, name) ::
             tokens e ++ (f, fx) :: rest) src' ->
  exists c', metaCommand n c = Some (SetCommand name e, c') /\
             pending c' ((f, fx) :: rest) src' /\ sameParser c c'.
Proof.
  intros He Hn Hd Hstar Hf0 Hp.
  destruct (expect_pending _ _ _ _ _ Hp ltac:(discriminate) ltac:(discriminate))
    as (_ & Hp1 & Hs1).
  destruct (ident_pending _ _ _ _ Hp1) as (c2 & E2 & _ & Hp2 & Hs2).
  destruct (ident_pending _ _ _ _ Hp2) as (c3 & E3 & _ & Hp3 & Hs3).
  assert (Hd3 : done c3 = false).
  { destruct Hs1 as (_ & _ & D1 & _), Hs2 as (_ & _ & D2 & _), Hs3 as (_ & _ & D3 & _).
    congruence. }
  destruct (proj2 (grammar_accepted e) He n Hn c3 f fx rest src' Hd3 Hstar Hf0 Hp3)
    as (c4 & E4 & Hp4 & Hs4).
  exists c4. unfold metaCommand. rewrite E2. cbn [String.eqb Ascii.eqb Bool.eqb].
  rewrite E3, E4. cbn [mbind option_bind].
  split; [reflexivity |]. split; [exact Hp4 |].
  eapply sameParser_trans; [exact Hs1 |].
  eapply sameParser_trans; [exact Hs2 |].
  eapply sameParser_trans; eassumption.
Qed.

Lemma parseLoop_set_lines lines : forall fuel c cmds src',
  Forall (fun line => isExpr (snd line)) lines ->
  (2 * List.length lines + list_max (map (fun line => need (snd line)) lines) < fuel)%nat ->
  done c = false -> err c = None ->
  pending c (flat_map setLine lines ++ [(scanner.EOF, EmptyString)]) src' ->
  exists c',
    parseLoop fuel c cmds =
      Some (cmds ++ map (fun line => SetCommand (fst line) (snd line)) lines, c') /\
    err c' = None.
Proof.
  induction lines as [| [name e] lines IH]; intros fuel c cmds src' Hall Hfuel Hd Herr Hp.
  - cbn [flat_map app] in Hp.
    destruct (Peek_pending _ _ _ _ _ Hp ltac:(discriminate))
      as (c1 & Ep & _ & _ & _ & (_ & _ & _ & He1)).
    destruct fuel as [| n]; [simpl in Hfuel; lia |].
    exists c1. cbn [parseLoop]. rewrite Hd, Ep, Z.eqb_refl.
    cbn [map]. rewrite app_nil_r. split; [reflexivity | congruence].
  - apply Forall_cons in Hall as [He Hall]. cbn [snd fst] in He.
    cbn [List.length map list_max fold_right snd] in Hfuel.
    change (fold_right Nat.max 0%nat (map (fun line => need (snd line)) lines))
      with (list_max (map (fun line => need (snd line)) lines)) in Hfuel.
    destruct fuel as [| [| n]]; [lia | lia |].
    cbn [flat_map] in Hp. unfold setLine at 1 in Hp. cbn [fst snd] in Hp.
    rewrite <- !app_assoc in Hp. cbn [app] in Hp.
    destruct (Peek_pending _ _ _ _ _ Hp ltac:(discriminate))
      as (c1 & Ep & _ & _ & Hp1 & Hs1).
    assert (Hd1 : done c1 = false) by (destruct Hs1 as (_ & _ & -> & _); exact Hd).
    destruct (metaCommand_accepts (S n) name e c1 (rune newline) (String newline EmptyString)
                _ src' He ltac:(lia) Hd1 ltac:(discriminate) ltac:(discriminate) Hp1)
      as (c2 & Em & Hp2 & Hs2).
    destruct (Peek_pending _ _ _ _ _ Hp2 ltac:(discriminate))
      as (c3 & Ep3 & _ & _ & Hp3 & Hs3).
    destruct (Next_pending _ _ _ _ _ Hp3 ltac:(discriminate) ltac:(discriminate))
      as (c4 & En4 & _ & Hp4 & Hs4).
    assert (Hc4 : done c4 = false /\ err c4 = None).
    { destruct Hs1 as (_ & _ & D1 & E1), Hs2 as (_ & _ & D2 & E2),
        Hs3 as (_ & _ & D3 & E3), Hs4 as (_ & _ & D4 & E4).
      split; congruence. }
    assert (Hd2 : done c2 = false).
    { destruct Hs2 as (_ & _ & -> & _). exact Hd1. }
    destruct (IH n c4 (cmds ++ [SetCommand name e]) src' Hall ltac:(lia)
                (proj1 Hc4) (proj2 Hc4) Hp4) as (c' & Eloop & Herr').
    exists c'. split; [| exact Herr'].
    cbn [parseLoop]. rewrite Hd, Ep.
    change (rune "\" =? scanner.EOF) with false. rewrite Z.eqb_refl, Em.
    cbn [mbind option_bind]. rewrite Hd2, Ep3.
    change (rune newline =? scanner.EOF) with false.
    change (rune newline =? rune "\") with false.
    rewrite Z.eqb_refl, En4, Eloop. cbn [map fst snd].
    rewrite <- app_assoc. reflexivity.
Qed.

(** X18. Writing, then parsing: when the text of a script is read, token by
    token, as lines [\set name e] whose expressions are of the grammar,
    each ended by a newline, [Parse] returns the workload of exactly
    these [\set] commands, in their order, with the scale it was given. *)
Theorem Parse_reads_back_set_lines (filename script : string) (scale seed : Z)
    (lines : list (string * Expression)) (src' : scanner.source) :
  Forall (fun line => isExpr (snd line)) lines ->
  reads (Z.lxor scanner.GoWhitespace (Z.shiftl 1 (rune newline))) (scanner.Init script)
    (flat_map setLine lines ++ [(scanner.EOF, EmptyString)]) src' ->
  exists fuel,
    Parse fuel filename script scale seed =
      Some (inl (mkWorkload false scale
                   (map (fun line => SetCommand (fst line) (snd line)) lines), seed)).
Proof.
  intros Hall Hreads.
  destruct (parseLoop_set_lines lines
              (S (2 * List.length lines + list_max (map (fun line => need (snd line)) lines)))
              (initialContext filename script) [] src' Hall ltac:(lia) eq_refl eq_refl Hreads)
    as (c' & Eloop & Herr).
  eexists. unfold Parse. rewrite Eloop. cbn [mbind option_bind]. rewrite Herr. reflexivity.
Qed.

End SetLines.

Lemma Parse_reads_back_set_lines_witness :
  let script := "\set x 2 * 3" +:+ String newline ("\set y random(-1, :x)" +:+
                  String newline EmptyString) in
  exists fuel,
    Parse fuel "f" script 1 1337 =
      Some (inl (mkWorkload false 1
                   [SetCommand "x" (callExpr "*" [intExpr 2; intExpr 3]);
                    SetCommand "y" (callExpr "random" [intExpr (-1); varExpr "x"])],
                 1337)).
Proof.
  intros script.
  apply (@Parse_reads_back_set_lines SimpleScanner "f" script 1 1337
           [("x", callExpr "*" [intExpr 2; intExpr 3]);
            ("y", callExpr "random" [intExpr (-1); varExpr "x"])]
           (simple.mkSource EmptyString 3 1)).
  - repeat constructor; unfold maxInt64; try lia; discriminate.
  - subst script. simpl.
    repeat (eapply reads_cons; [cbv; reflexivity |]). apply reads_nil.
Defined.

(** ** The parser returns from expressions *)

(** X19. Over a finite text [expr] and [metaCommand] always return: with
    enough fuel they give a result from any context, whatever tokens
    come, an unclosed call or the end of the text included. The loop of
    [command] is the one place where the parser can go on for ever. *)
Theorem expressions_and_meta_commands_return `{SL : scanner.ScannerLib} (c : context) :
  scanner.FiniteText ->
  (exists n r, expr n c = Some r) /\ (exists n r, metaCommand n c = Some r).
Proof.
  intros [remaining Hremaining]. split.
  - apply (expr_terminates remaining Hremaining (pendingSize remaining c) c). lia.
  - apply (metaCommand_terminates remaining Hremaining c).
Qed.

Lemma expressions_and_meta_commands_return_witness :
  (exists n r, expr n (@initialContext SimpleScanner "f" "random(1, ") = Some r) /\
  (exists n r, metaCommand n (@initialContext SimpleScanner "f" "random(1, ") = Some r).
Proof.
  apply (@expressions_and_meta_commands_return SimpleScanner
           (@initialContext SimpleScanner "f" "random(1, ")).
  exact simple_finite_text.
Defined.

(** ** The text of a query *)

Lemma string_append_assoc (a b c : string) : (a +:+ b) +:+ c = a +:+ (b +:+ c).
Proof.
  induction a as [| ch a IH]; [reflexivity |]. exact (f_equal (String ch) IH).
Qed.

Lemma string_append_nil_r (a : string) : a +:+ EmptyString = a.
Proof.
  induction a as [| ch a IH]; [reflexivity |]. exact (f_equal (String ch) IH).
Qed.

Lemma string_length_append (a b : string) :
  String.length (a +:+ b) = (String.length a + String.length b)%nat.
Proof.
  induction a as [| ch a IH]; [reflexivity |]. exact (f_equal S IH).
Qed.

Lemma plainText_append a b : plainText (a +:+ b) = true -> plainText b = true.
Proof.
  induction a as [| ch a IH]; simpl; [trivial |].
  intros H. apply andb_true_iff in H as [_ H]. apply IH, H.
Qed.

Lemma isWhitespace_0 ch : simple.isWhitespace 0 ch = false.
Proof. unfold simple.isWhitespace. rewrite Z.testbit_0_l. apply andb_false_r. Qed.

Lemma isWhitespace_letter ws ch : simple.isLetter ch = true -> simple.isWhitespace ws ch = false.
Proof.
  unfold simple.isLetter, simple.isWhitespace. intros H.
  destruct (Z.ltb_spec (codeOf ch) 64) as [Hlt | _]; [| reflexivity].
  apply orb_true_iff in H as [H | H]; apply andb_true_iff in H as [H _];
    apply Z.leb_le in H; lia.
Qed.

(** A run of runes stops before a rune that is not of its kind. *)
Lemma span_append p a ch t :
  p ch = false ->
  exists a1 a2, a = a1 +:+ a2 /\ simple.span p (a +:+ String ch t) = (a1, a2 +:+ String ch t).
Proof.
  intros Hch. induction a as [| x a IH]; simpl.
  - exists EmptyString, EmptyString. rewrite Hch. auto.
  - destruct (p x).
    + destruct IH as (a1 & a2 & -> & ->). exists (String x a1), a2. auto.
    + exists EmptyString, (String x a). auto.
Qed.

(** One token of a plain text before a [;]: it is not the [;], its text
    is the start of the text, and the rest of the text is left. *)
Lemma Scan_plain ws ch r tail src0 :
  simple.isWhitespace ws ch = false ->
  plainText (String ch r) = true ->
  simple.rest src0 = String ch r +:+ String ";" tail ->
  exists tok txt src1 body',
    simple.Scan ws src0 = (tok, txt, src1) /\
    simple.rest src1 = body' +:+ String ";" tail /\
    tok <> rune ";" /\ tok <> scanner.EOF /\
    (simple.isLetter ch = true -> tok = scanner.Ident) /\
    String ch r = txt +:+ body' /\
    (String.length body' <= String.length r)%nat /\
    plainText body' = true.
Proof.
  intros Hws Hplain Hrest. destruct src0 as [rst l col]. cbn [simple.rest] in Hrest. subst rst.
  cbn [plainText] in Hplain. apply andb_true_iff in Hplain as [Hch Hr].
  unfold simple.Scan. cbn [simple.rest simple.line simple.column].
  change (String ch r +:+ String ";" tail) with (String ch (r +:+ String ";" tail)).
  cbn [simple.skipWhitespace]. rewrite Hws. cbn [simple.rest simple.line simple.column].
  destruct (simple.isIdentRune ch true) eqn:Hid.
  { destruct (span_append (fun x => simple.isIdentRune x false) r ";" tail eq_refl)
      as (a1 & a2 & -> & ->).
    eexists scanner.Ident, (String ch a1), _, a2. split; [reflexivity |].
    split; [reflexivity |]. split; [discriminate |]. split; [discriminate |].
    split; [reflexivity |]. split; [reflexivity |].
    split; [rewrite string_length_append; lia | apply (plainText_append _ _ Hr)]. }
  assert (Hletter : simple.isLetter ch = true -> False).
  { intros H. unfold simple.isIdentRune in Hid. rewrite H, orb_true_r in Hid. discriminate. }
  destruct (simple.isDecimal ch) eqn:Hdec.
  { destruct (span_append simple.isDecimal r ";" tail eq_refl) as (a1 & a2 & -> & ->).
    eexists scanner.Int, (String ch a1), _, a2. split; [reflexivity |].
    split; [reflexivity |]. split; [discriminate |]. split; [discriminate |].
    split; [intros H; destruct (Hletter H) |]. split; [reflexivity |].
    split; [rewrite string_length_append; lia | apply (plainText_append _ _ Hr)]. }
  eexists (codeOf ch), (String ch EmptyString), _, r. split; [reflexivity |].
  split; [unfold simple.advance; destruct (codeOf ch =? 10); reflexivity |].
  split.
  { unfold plainRune in Hch. apply andb_true_iff in Hch as [_ Hch].
    apply negb_true_iff in Hch. repeat (apply orb_false_iff in Hch as [Hch _]).
    apply Z.eqb_neq in Hch. exact Hch. }
  split; [unfold codeOf, scanner.EOF; lia |].
  split; [intros H; destruct (Hletter H) |]. split; [reflexivity |].
  split; [lia | exact Hr].
Qed.

Lemma Scan_semicolon tail src0 :
  simple.rest src0 = String ";" tail ->
  exists src1, simple.Scan 0 src0 = (rune ";", ";", src1) /\ simple.rest src1 = tail.
Proof.
  intros Hrest. destruct src0 as [rst l col]. cbn [simple.rest] in Hrest. subst rst.
  eexists. split; reflexivity.
Qed.

Lemma Scan_end ws src0 :
  simple.rest src0 = EmptyString ->
  simple.Scan ws src0 = (scanner.EOF, EmptyString, src0).
Proof.
  intros Hrest. destruct src0 as [rst l col]. cbn [simple.rest] in Hrest. subst rst.
  reflexivity.
Qed.

Lemma Next_scans (c : @context SimpleScanner) tok txt src1 :
  peek c = 0 ->
  simple.Scan (scanner.Whitespace (s c)) (scanner.src (s c)) = (tok, txt, src1) ->
  context_Next c =
    (tok, txt,
     mkContext (withSource (s c) src1) 0 (peekText c)
       (if tok =? scanner.EOF then true else done c) (err c)).
Proof.
  intros Hpeek Hscan. unfold context_Next. rewrite Hpeek. cbn [Z.eqb negb].
  unfold scan.
  change (scanner.Scan (scanner.Whitespace (s c)) (scanner.src (s c)))
    with (simple.Scan (scanner.Whitespace (s c)) (scanner.src (s c))).
  rewrite Hscan. reflexivity.
Qed.

Lemma Peek_scans (c : @context SimpleScanner) tok txt src1 :
  peek c = 0 ->
  simple.Scan (scanner.Whitespace (s c)) (scanner.src (s c)) = (tok, txt, src1) ->
  context_Peek c = (tok, mkContext (withSource (s c) src1) tok txt (done c) (err c)).
Proof.
  intros Hpeek Hscan. unfold context_Peek. rewrite Hpeek. cbn [Z.eqb].
  unfold scan.
  change (scanner.Scan (scanner.Whitespace (s c)) (scanner.src (s c)))
    with (simple.Scan (scanner.Whitespace (s c)) (scanner.src (s c))).
  rewrite Hscan. reflexivity.
Qed.

(** The loop of [command] on a plain text: with the scanner skipping
    nothing, the texts of the tokens before the [;] are the text itself. *)
Lemma commandLoop_raw n : forall body b (c : @context SimpleScanner) tail,
  (String.length body <= n)%nat -> peek c = 0 -> scanner.Whitespace (s c) = 0 ->
  simple.rest (scanner.src (s c)) = body +:+ String ";" tail ->
  plainText body = true ->
  exists c',
    commandLoop (S n) b c = Some (b +:+ body, c') /\
    simple.rest (scanner.src (s c')) = tail /\ peek c' = 0 /\
    scanner.Whitespace (s c') = 0 /\
    scanner.Filename (s c') = scanner.Filename (s c) /\
    done c' = done c /\ err c' = err c.
Proof.
  assert (Hsemi : forall k b (c : @context SimpleScanner) tail,
            peek c = 0 -> scanner.Whitespace (s c) = 0 ->
            simple.rest (scanner.src (s c)) = String ";" tail ->
            exists c',
              commandLoop (S k) b c = Some (b +:+ EmptyString, c') /\
              simple.rest (scanner.src (s c')) = tail /\ peek c' = 0 /\
              scanner.Whitespace (s c') = 0 /\
              scanner.Filename (s c') = scanner.Filename (s c) /\
              done c' = done c /\ err c' = err c).
  { intros k b c tail Hpeek Hws Hrest.
    destruct (Scan_semicolon tail _ Hrest) as (src1 & Hscan & Hrest1).
    rewrite <- Hws in Hscan. eexists. cbn [commandLoop].
    rewrite (Next_scans c _ _ _ Hpeek Hscan), Z.eqb_refl, string_append_nil_r.
    split; [reflexivity |]. cbn. repeat split; auto. }
  induction n as [| n IH]; intros body b c tail Hlen Hpeek Hws Hrest Hplain;
    destruct body as [| ch r]; try (simpl in Hlen; lia);
    try (apply Hsemi; assumption).
  destruct (Scan_plain 0 ch r tail _ (isWhitespace_0 ch) Hplain Hrest)
    as (tok & txt & src1 & body' & Hscan & Hrest1 & Hnot & Heof & _ & Hbody & Hlen' & Hplain').
  rewrite <- Hws in Hscan.
  destruct (IH body' (b +:+ txt)
              (mkContext (withSource (s c) src1) 0 (peekText c) (done c) (err c)) tail)
    as (c' & Eloop & Hr' & Hp' & Hw' & Hf' & Hd' & He'); try assumption.
  { simpl in Hlen. lia. }
  { reflexivity. }
  exists c'.
  change (commandLoop (S (S n)) b c)
    with (let '(tok, content, c1) := context_Next c in
          if tok =? rune ";" then Some (b, c1) else commandLoop (S n) (b +:+ content) c1).
  rewrite (Next_scans c _ _ _ Hpeek Hscan).
  apply Z.eqb_neq in Hnot, Heof. rewrite Hnot, Heof, Eloop.
  rewrite string_append_assoc, <- Hbody. repeat split; assumption.
Qed.

Lemma command_plain (c : @context SimpleScanner) (body tail : string) (n : nat) :
  plainText body = true ->
  simple.rest (scanner.src (s c)) = body +:+ String ";" tail ->
  peek c <> rune ";" ->
  (String.length body <= n)%nat ->
  exists c',
    command (S (S n)) c =
      Some (QueryCommand ((if peek c =? 0 then EmptyString else peekText c) +:+ body), c') /\
    simple.rest (scanner.src (s c')) = tail /\ peek c' = 0 /\
    scanner.Whitespace (s c') = scanner.Whitespace (s c) /\
    scanner.Filename (s c') = scanner.Filename (s c) /\
    done c' = (if peek c =? scanner.EOF then true else done c) /\ err c' = err c.
Proof.
  intros Hplain Hrest Hsemi Hlen. unfold command.
  destruct (peek c =? 0) eqn:Hpeek.
  - apply Z.eqb_eq in Hpeek.
    destruct (commandLoop_raw (S n) body EmptyString (setWhitespace 0 c) tail)
      as (c' & Eloop & Hr' & Hp' & Hw' & Hf' & Hd' & He'); auto.
    rewrite Eloop. cbn [mbind option_bind]. eexists. split; [reflexivity |].
    rewrite Hpeek. cbn. repeat split; assumption.
  - change (commandLoop (S (S n)) EmptyString (setWhitespace 0 c))
      with (let '(tok, content, c1) := context_Next (setWhitespace 0 c) in
            if tok =? rune ";" then Some (EmptyString, c1)
            else commandLoop (S n) (EmptyString +:+ content) c1).
    unfold context_Next, setWhitespace. cbn [peek peekText s done err].
    rewrite Hpeek. cbn [negb].
    apply Z.eqb_neq in Hsemi. rewrite Hsemi.
    destruct (commandLoop_raw n body (EmptyString +:+ peekText c)
                (mkContext (withWhitespace (s c) 0) 0 (peekText c)
                   (if peek c =? scanner.EOF then true else done c) (err c)) tail)
      as (c' & Eloop & Hr' & Hp' & Hw' & Hf' & Hd' & He'); auto.
    rewrite Eloop. cbn [mbind option_bind]. eexists. split; [reflexivity |].
    cbn. repeat split; assumption.
Qed.

(** X20. [command] keeps the text of a query as it is written: from a plain
    text up to the next [;] it returns the query command of that text,
    white space and newlines included, after the text of the token that
    [Parse] had looked at, if any; the [;] is read and left out, and
    the scanner is back in the white space mode it was in. *)
Theorem command_keeps_the_text (c : @context SimpleScanner) (body tail : string) :
  plainText body = true ->
  simple.rest (scanner.src (s c)) = body +:+ String ";" tail ->
  peek c <> rune ";" ->
  exists c',
    command (S (S (String.length body))) c =
      Some (QueryCommand ((if peek c =? 0 then EmptyString else peekText c) +:+ body), c') /\
    simple.rest (scanner.src (s c')) = tail /\ peek c' = 0 /\
    scanner.Whitespace (s c') = scanner.Whitespace (s c) /\ err c' = err c.
Proof.
  intros Hplain Hrest Hsemi.
  destruct (command_plain c body tail (String.length body) Hplain Hrest Hsemi (Nat.le_refl _))
    as (c' & E & Hr & Hp & Hw & _ & _ & He).
  exists c'. auto.
Qed.

Lemma command_keeps_the_text_witness :
  let c := @initialContext SimpleScanner "f"
             ("  MATCH (n)" +:+ String newline ("RETURN  n.x ;" +:+ String newline "next")) in
  let body := "  MATCH (n)" +:+ String newline "RETURN  n.x " in
  plainText body = true /\
  exists c',
    command (S (S (String.length body))) c = Some (QueryCommand body, c') /\
    simple.rest (scanner.src (s c')) = String newline "next" /\ peek c' = 0 /\
    scanner.Whitespace (s c') = scanner.Whitespace (s c) /\ err c' = err c.
Proof.
  intros c body. split; [reflexivity |].
  apply (command_keeps_the_text c body (String newline "next"));
    [reflexivity | reflexivity | discriminate].
Defined.

(** X21. A script that is one query, starting with a letter and plain up to
    its [;]: [Parse] returns the workload of that one query command, and
    the text of the query is the text of the script without the [;]. *)
Theorem Parse_keeps_the_text_of_a_query (filename : string) (ch : ascii) (r : string)
    (scale seed : Z) :
  simple.isLetter ch = true ->
  plainText (String ch r) = true ->
  Parse (4 + String.length r) filename (String ch r +:+ ";") scale seed =
    Some (inl (mkWorkload false scale [QueryCommand (String ch r)], seed)).
Proof.
  intros Hletter Hplain. unfold Parse.
  set (c0 := initialContext filename (String ch r +:+ ";")).
  destruct (Scan_plain (scanner.Whitespace (s c0)) ch r EmptyString (scanner.src (s c0))
              (isWhitespace_letter _ ch Hletter) Hplain eq_refl)
    as (tok & txt & src1 & body' & Hscan & Hrest1 & _ & _ & Hident & Hbody & Hlen' & Hplain').
  rewrite (Hident Hletter) in Hscan. clear Hident tok.
  set (c1 := mkContext (withSource (s c0) src1) scanner.Ident txt (done c0) (err c0)).
  destruct (command_plain c1 body' EmptyString (S (String.length r)) Hplain' Hrest1
              ltac:(discriminate) ltac:(lia))
    as (c2 & Ecmd & Hr2 & Hp2 & Hw2 & _ & Hd2 & He2).
  cbn [peek c1 Z.eqb peekText] in Ecmd. change (scanner.Ident =? 0) with false in Ecmd.
  cbv iota in Ecmd. rewrite <- Hbody in Ecmd.
  change (4 + String.length r)%nat with (S (S (S (S (String.length r))))).
  cbn [parseLoop]. change (done c0) with false. cbn iota.
  rewrite (Peek_scans c0 _ _ _ eq_refl Hscan). fold c1.
  change (scanner.Ident =? scanner.EOF) with false.
  change (scanner.Ident =? rune "\") with false.
  change (scanner.Ident =? rune newline) with false. cbn iota.
  rewrite Ecmd. cbn [mbind option_bind app].
  change (scanner.Ident =? scanner.EOF) with false in Hd2. cbn [done c1] in Hd2.
  change (done c0) with false in Hd2. rewrite Hd2.
  rewrite (Peek_scans c2 _ _ _ Hp2 (Scan_end _ _ Hr2)), Z.eqb_refl.
  cbn [mbind option_bind err]. rewrite He2. reflexivity.
Qed.

Lemma Parse_keeps_the_text_of_a_query_witness :
  Parse 20 "f" ("MATCH (n) RETURN n" +:+ ";") 1 1337 =
    Some (inl (mkWorkload false 1 [QueryCommand "MATCH (n) RETURN n"], 1337)).
Proof.
  apply (Parse_keeps_the_text_of_a_query "f" "M" "ATCH (n) RETURN n" 1 1337); reflexivity.
Defined.

(** ** Blank scripts *)

Lemma skipWhitespace_blank txt : forall l c,
  blankText txt = true ->
  let s1 := simple.skipWhitespace (Z.lxor scanner.GoWhitespace (Z.shiftl 1 (rune newline)))
              txt l c in
  simple.rest s1 = EmptyString \/
  exists r', simple.rest s1 = String newline r' /\ blankText r' = true /\
             (String.length r' < String.length txt)%nat.
Proof.
  induction txt as [| ch r IH]; intros l c Hblank; [left; reflexivity |].
  cbn [blankText] in Hblank. apply andb_true_iff in Hblank as [Hch Hr].
  destruct ch as [[] [] [] [] [] [] [] []]; try discriminate Hch;
    cbn -[String.length blankText simple.skipWhitespace Z.lxor] in *.
  - destruct (IH l (c + 1)%N Hr) as [H | (r' & H1 & H2 & H3)]; [left; exact H |].
    right. exists r'. cbn [String.length]. split; [exact H1 | split; [exact H2 | lia]].
  - destruct (IH l (c + 1)%N Hr) as [H | (r' & H1 & H2 & H3)]; [left; exact H |].
    right. exists r'. cbn [String.length]. split; [exact H1 | split; [exact H2 | lia]].
  - right. exists r. cbn [String.length]. split; [reflexivity | split; [exact Hr | lia]].
  - destruct (IH l (c + 1)%N Hr) as [H | (r' & H1 & H2 & H3)]; [left; exact H |].
    right. exists r'. cbn [String.length]. split; [exact H1 | split; [exact H2 | lia]].
Qed.

Lemma parseLoop_blank n : forall (c : @context SimpleScanner) cmds,
  (String.length (simple.rest (scanner.src (s c))) < n)%nat ->
  peek c = 0 -> done c = false ->
  scanner.Whitespace (s c) = Z.lxor scanner.GoWhitespace (Z.shiftl 1 (rune newline)) ->
  blankText (simple.rest (scanner.src (s c))) = true ->
  exists c', parseLoop n c cmds = Some (cmds, c') /\ err c' = err c.
Proof.
  induction n as [| n IH]; intros c cmds Hlen Hpeek Hd Hws Hblank; [lia |].
  pose proof (skipWhitespace_blank _ (simple.line (scanner.src (s c)))
                (simple.column (scanner.src (s c))) Hblank) as Hskip.
  cbv zeta in Hskip. rewrite <- Hws in Hskip.
  destruct (simple.skipWhitespace _ (simple.rest (scanner.src (s c))) _ _)
    as [rst l1 c1] eqn:Es.
  cbn [simple.rest] in Hskip.
  destruct Hskip as [-> | (r' & -> & Hr' & Hlen')].
  - assert (Hscan : simple.Scan (scanner.Whitespace (s c)) (scanner.src (s c)) =
                    (scanner.EOF, EmptyString, simple.mkSource EmptyString l1 c1)).
    { unfold simple.Scan. rewrite Es. reflexivity. }
    eexists. cbn [parseLoop]. rewrite Hd, (Peek_scans c _ _ _ Hpeek Hscan), Z.eqb_refl.
    split; reflexivity.
  - assert (Hscan : simple.Scan (scanner.Whitespace (s c)) (scanner.src (s c)) =
                    (rune newline, String newline EmptyString,
                     simple.mkSource r' (l1 + 1) 1)).
    { unfold simple.Scan. rewrite Es. reflexivity. }
    destruct (IH (mkContext
                    (withSource (s c) (simple.mkSource r' (l1 + 1) 1)) 0
                    (String newline EmptyString) (done c) (err c)) cmds)
      as (c' & Eloop & Herr); cbn; auto; try lia.
    exists c'. split; [| exact Herr].
    cbn [parseLoop]. rewrite Hd, (Peek_scans c _ _ _ Hpeek Hscan).
    change (rune newline =? scanner.EOF) with false.
    change (rune newline =? rune "\") with false.
    rewrite Z.eqb_refl. cbv iota.
    unfold context_Next. cbn [peek peekText s done err].
    change (negb (rune newline =? 0)) with true. cbv iota.
    change (rune newline =? scanner.EOF) with false. cbv iota.
    exact Eloop.
Qed.

(** X22. A script of white space only, the empty script included, is the
    workload with no command, without an error. *)
Theorem Parse_of_a_blank_script (filename script : string) (scale seed : Z) :
  blankText script = true ->
  Parse (S (String.length script)) filename script scale seed =
    Some (inl (mkWorkload false scale [], seed)).
Proof.
  intros Hblank. unfold Parse.
  destruct (parseLoop_blank (S (String.length script)) (initialContext filename script) [])
    as (c' & Eloop & Herr);
    [cbn; lia | reflexivity | reflexivity | reflexivity | exact Hblank |].
  rewrite Eloop. cbn [mbind option_bind]. cbn in Herr. rewrite Herr. reflexivity.
Qed.

Lemma Parse_of_a_blank_script_witness :
  let script := String newline ("  " +:+ String newline (String newline " ")) in
  blankText script = true /\
  Parse (S (String.length script)) "f" script 1 1337 =
    Some (inl (mkWorkload false 1 [], 1337)).
Proof.
  intros script. split; [reflexivity |].
  apply (Parse_of_a_blank_script "f" script 1 1337). reflexivity.
Defined.

(** ** The signal handler, further *)

Module signals_more.
Import signals.

Lemma step_shutdownSeen st ev :
  invariant st -> shutdownSeen st -> shutdownSeen (step st ev).
Proof.
  intros [He Hc] [Hnil Hret]. unfold step. rewrite He.
  destruct ev as [sig | | | |].
  - destruct (_ <? _)%nat; split; auto.
  - unfold stopFunc. destruct (stopChVar st) eqn:Hv; split; simpl; auto.
  - destruct (handler st) eqn:Hh; split; simpl; auto; intros; try congruence; auto.
  - destruct (handler st) eqn:Hh;
      try (split; simpl; auto; intros; try congruence; auto; fail).
    destruct (sigCh st) as [| sig queue];
      [split; simpl; auto; intros; try congruence; auto |].
    rewrite Hc by discriminate. unfold stopFunc. simpl.
    destruct (stopChVar st) eqn:Hv; split; simpl; auto.
  - destruct (handler st) as [| [] |] eqn:Hh;
      try (split; simpl; auto; intros; try congruence; auto; fail).
    destruct (closed st) eqn:Hcl; split; simpl; auto; intros; try congruence; auto.
    rewrite Hcl. auto.
Qed.

Lemma step_closed st ev : closed st = true -> closed (step st ev) = true.
Proof.
  intros Hcl. unfold step. destruct (exited st); [exact Hcl |].
  destruct ev as [sig | | | |].
  - destruct (_ <? _)%nat; exact Hcl.
  - unfold stopFunc. destruct (stopChVar st); [reflexivity | exact Hcl].
  - destruct (handler st); exact Hcl.
  - destruct (handler st); try exact Hcl.
    destruct (sigCh st) as [| sig queue]; [exact Hcl |].
    destruct (signalCount st) as [| [| k]]; simpl; try exact Hcl.
    unfold stopFunc. simpl. destruct (stopChVar st); [reflexivity | exact Hcl].
  - destruct (handler st) as [| [] |]; try exact Hcl.
    rewrite Hcl. reflexivity.
Qed.

Lemma run_closed evs : forall st, closed st = true -> closed (run evs st) = true.
Proof.
  unfold run. induction evs as [| ev evs IH]; intros st Hcl; simpl; [exact Hcl |].
  apply IH, step_closed, Hcl.
Qed.

Lemma run_shutdownSeen evs : forall st,
  invariant st -> shutdownSeen st ->
  shutdownSeen (run evs st) /\ (In CallStop evs -> closed (run evs st) = true).
Proof.
  unfold run. induction evs as [| ev evs IH]; intros st Hinv Hseen; simpl.
  - split; [exact Hseen | intros []].
  - pose proof (signals_facts.step_invariant st ev Hinv) as Hinv1.
    pose proof (step_shutdownSeen st ev Hinv Hseen) as Hseen1.
    destruct (IH _ Hinv1 Hseen1) as [Hseen' Hcall]. split; [exact Hseen' |].
    intros [-> | Hin]; [| apply Hcall, Hin].
    apply (run_closed evs). unfold step. destruct Hinv as [-> _].
    unfold stopFunc. destruct Hseen as [Hnil _].
    destruct (stopChVar st) eqn:Hv; [reflexivity | apply Hnil; reflexivity].
Qed.

Lemma run_app evs1 evs2 st : run (evs1 ++ evs2) st = run evs2 (run evs1 st).
Proof. unfold run. apply fold_left_app. Qed.

Lemma run_beforeSelect evs : forall st,
  handler st = Spawned -> sigCh st = [] -> exited st = None ->
  forallb beforeSelect evs = true ->
  handler (run evs st) = Spawned /\ sigCh (run evs st) = [] /\ exited (run evs st) = None /\
  (stopChVar st = false \/ In CallStop evs -> stopChVar (run evs st) = false).
Proof.
  unfold run. induction evs as [| ev evs IH]; intros st Hh Hq He Hall; simpl.
  - repeat split; auto. intros [H | []]. exact H.
  - cbn [forallb] in Hall. apply andb_true_iff in Hall as [Hev Hall].
    assert (Hstep : handler (step st ev) = Spawned /\ sigCh (step st ev) = [] /\
                    exited (step st ev) = None /\
                    (stopChVar st = false \/ ev = CallStop -> stopChVar (step st ev) = false)).
    { unfold step. rewrite He.
      destruct ev as [sig | | | |]; try discriminate Hev.
      - unfold stopFunc. destruct (stopChVar st) eqn:Hv; simpl; repeat split; auto.
      - rewrite Hh. repeat split; auto. intros [H | H]; [exact H | discriminate].
      - rewrite Hh. repeat split; auto. intros [H | H]; [exact H | discriminate]. }
    destruct Hstep as (Hh1 & Hq1 & He1 & Hv1).
    destruct (IH _ Hh1 Hq1 He1 Hall) as (Hh' & Hq' & He' & Hv').
    repeat split; auto. intros [H | [H | H]]; apply Hv'; auto.
Qed.

Lemma run_waiting evs : forall st,
  handler st = Selecting false -> sigCh st = [] ->
  forallb noSignal evs = true ->
  handler (run evs st) = Selecting false.
Proof.
  unfold run. induction evs as [| ev evs IH]; intros st Hh Hq Hall; simpl; [exact Hh |].
  cbn [forallb] in Hall. apply andb_true_iff in Hall as [Hev Hall].
  assert (Hstep : handler (step st ev) = Selecting false /\ sigCh (step st ev) = []).
  { unfold step. destruct (exited st); [auto |].
    destruct ev as [sig | | | |]; try discriminate Hev.
    - unfold stopFunc. destruct (stopChVar st); simpl; auto.
    - rewrite Hh. auto.
    - rewrite Hh, Hq. auto.
    - rewrite Hh. auto. }
  destruct Hstep as [Hh1 Hq1]. apply (IH _ Hh1 Hq1 Hall).
Qed.

End signals_more.

(** X23. Whatever happens, in whatever order, each call of the stop function
    taken as one step: once the handler goroutine has returned, and once
    the stop function has been called, the channel that
    [SetupSignalHandler] returned is closed, and a closed channel stays
    closed. A first signal that the handler receives is therefore always
    seen by those who listen to the channel. *)
Theorem shutdown_closes_the_stop_channel (evs : list signals.Event) :
  let st := signals.run evs signals.SetupSignalHandler in
  (signals.handler st = signals.Returned -> signals.closed st = true) /\
  (In signals.CallStop evs -> signals.closed st = true) /\
  (signals.closed st = true ->
   forall more, signals.closed (signals.run more st) = true).
Proof.
  intros st.
  destruct (signals_more.run_shutdownSeen evs signals.SetupSignalHandler)
    as [[_ Hret] Hcall].
  { split; [reflexivity | reflexivity]. }
  { split; discriminate. }
  split; [exact Hret |]. split; [exact Hcall |].
  intros Hcl more. apply signals_more.run_closed, Hcl.
Qed.

(** X24. When the stop function has run before the handler goroutine comes
    to its [select], the goroutine waits on a [nil] channel: as long as
    no signal is delivered it never returns, whatever is called. *)
Theorem stop_before_select_leaves_the_handler_waiting
    (before after : list signals.Event) :
  In signals.CallStop before ->
  forallb signals.beforeSelect before = true ->
  forallb signals.noSignal after = true ->
  signals.handler
    (signals.run (before ++ signals.EnterSelect :: after) signals.SetupSignalHandler)
  = signals.Selecting false.
Proof.
  intros Hcall Hbefore Hafter.
  rewrite signals_more.run_app.
  destruct (signals_more.run_beforeSelect before signals.SetupSignalHandler
              eq_refl eq_refl eq_refl Hbefore) as (Hh & Hq & He & Hv).
  specialize (Hv (or_intror Hcall)).
  change (signals.run (signals.EnterSelect :: after)
            (signals.run before signals.SetupSignalHandler))
    with (signals.run after
            (signals.step (signals.run before signals.SetupSignalHandler)
               signals.EnterSelect)).
  apply signals_more.run_waiting; [| | exact Hafter];
    unfold signals.step; rewrite He, Hh; simpl; [rewrite Hv; reflexivity | exact Hq].
Qed.

Lemma stop_before_select_leaves_the_handler_waiting_witness :
  signals.handler
    (signals.run ([signals.CallStop] ++ signals.EnterSelect ::
                    [signals.CallStop; signals.ReceiveStop; signals.ReceiveSignal])
       signals.SetupSignalHandler)
  = signals.Selecting false.
Proof.
  apply (stop_before_select_leaves_the_handler_waiting [signals.CallStop]
           [signals.CallStop; signals.ReceiveStop; signals.ReceiveSignal]);
    [left; reflexivity | reflexivity | reflexivity].
Defined.

(** ** The workload flags of [main] *)

Lemma Split_noAt path : noAt path = true -> Split path "@" = [path].
Proof.
  induction path as [| ch r IH]; [reflexivity |]. cbn [noAt Split]. intros H.
  apply andb_true_iff in H as [Hch Hr]. apply negb_true_iff in Hch.
  rewrite Hch, (IH Hr). reflexivity.
Qed.

Lemma Split_at path r :
  noAt path = true -> Split (path +:+ String "@" r) "@" = path :: Split r "@".
Proof.
  induction path as [| ch p IH]; [reflexivity |]. cbn [noAt]. intros H.
  apply andb_true_iff in H as [Hch Hp]. apply negb_true_iff in Hch.
  change (String ch p +:+ String "@" r) with (String ch (p +:+ String "@" r)).
  cbn [Split]. rewrite Hch, (IH Hp). reflexivity.
Qed.

Lemma noAt_string_of_uint d : noAt (NilZero.string_of_uint d) = true.
Proof.
  assert (H : forall u, noAt (NilEmpty.string_of_uint u) = true)
    by (induction u; simpl; auto).
  destruct d; [reflexivity | ..]; apply H.
Qed.

Lemma noAt_formatInt z : noAt (formatInt z) = true.
Proof.
  unfold formatInt, formatNat. destruct (z <? 0); [cbn [noAt] |]; apply noAt_string_of_uint.
Qed.

Lemma Atoi_formatInt z : inInt64 z -> Atoi (formatInt z) = inl z.
Proof.
  intros [Hlo Hhi]. unfold formatInt. destruct (Z.ltb_spec z 0) as [Hneg | Hpos].
  - unfold Atoi, formatNat.
    assert (Hnil : N.to_uint (Z.to_N (- z)) <> Decimal.Nil).
    { destruct (Z.to_N (- z)) as [| p] eqn:Hn; [lia |]. simpl.
      intros H. apply (f_equal Pos.of_uint) in H.
      rewrite DecimalPos.Unsigned.of_to in H. discriminate. }
    cbv iota beta. rewrite (NilZero.usu _ Hnil), DecimalN.Unsigned.of_to.
    rewrite Z2N.id by lia. replace (- - z) with z by lia.
    destruct (Z.leb_spec minInt64 z) as [_ | Hlt]; [| lia].
    destruct (Z.leb_spec z maxInt64) as [_ | Hgt]; [reflexivity | lia].
  - rewrite Atoi_formatNat by (rewrite Z2N.id by lia; exact Hhi).
    rewrite Z2N.id by lia. reflexivity.
Qed.

(** X25. The value of a flag [--workload] is split at its [@]: without one
    the weight is 1; with one, the text after it is read as an [int],
    whatever its sign, and passed on as a [uint], so that a negative
    weight wraps around; what follows a second [@] is ignored. *)
Theorem workload_flag_weight (path junk : string) (z : Z) :
  noAt path = true -> inInt64 z ->
  workloadFlag path = inl (path, 1) /\
  workloadFlag (path +:+ "@" +:+ formatInt z) = inl (path, z mod 2 ^ 64) /\
  workloadFlag (path +:+ "@" +:+ formatInt z +:+ "@" +:+ junk) = inl (path, z mod 2 ^ 64).
Proof.
  intros Hpath Hz. unfold workloadFlag. split; [| split].
  - rewrite (Split_noAt _ Hpath). reflexivity.
  - change (path +:+ "@" +:+ formatInt z) with (path +:+ String "@" (formatInt z)).
    rewrite (Split_at _ _ Hpath), (Split_noAt _ (noAt_formatInt z)).
    cbn [List.length Nat.ltb Nat.leb nth]. rewrite (Atoi_formatInt z Hz). reflexivity.
  - change (path +:+ "@" +:+ formatInt z +:+ "@" +:+ junk)
      with (path +:+ String "@" (formatInt z +:+ String "@" junk)).
    rewrite (Split_at _ _ Hpath), (Split_at _ _ (noAt_formatInt z)).
    cbn [List.length Nat.ltb Nat.leb nth]. rewrite (Atoi_formatInt z Hz). reflexivity.
Qed.

Lemma workload_flag_weight_witness :
  workloadFlag "builtin:tpcb-like" = inl ("builtin:tpcb-like", 1) /\
  workloadFlag "builtin:tpcb-like@-1" = inl ("builtin:tpcb-like", 18446744073709551615) /\
  workloadFlag "builtin:tpcb-like@-1@2" = inl ("builtin:tpcb-like", 18446744073709551615).
Proof.
  apply (workload_flag_weight "builtin:tpcb-like" "2" (-1)); [reflexivity |].
  unfold inInt64, minInt64, maxInt64. lia.
Defined.

(** X26. [initWorkload] looks for the two built-in names as they are: it
    makes the call that fills the database as soon as one of the values
    of the flag is [builtin:tpcb-like] or [builtin:match-only], with the
    scale and the database it was given, and it makes none when every
    value comes with a weight, built-in or not. *)
Theorem initWorkload_looks_for_the_plain_names (paths : list string) (dbName : string)
    (scale : Z) :
  (In "builtin:tpcb-like" paths \/ In "builtin:match-only" paths ->
   initWorkload paths dbName scale = Some (InitTPCBLike scale dbName)) /\
  (Forall (fun path => noAt path = false) paths ->
   initWorkload paths dbName scale = None).
Proof.
  split.
  - induction paths as [| path rest IH]; [intros [[] | []] |].
    intros Hin. cbn [initWorkload].
    destruct (String.eqb_spec path "builtin:tpcb-like") as [-> | H1]; [reflexivity |].
    destruct (String.eqb_spec path "builtin:match-only") as [-> | H2]; [reflexivity |].
    apply IH. destruct Hin as [[H | H] | [H | H]]; auto; congruence.
  - induction 1 as [| path rest Hpath _ IH]; [reflexivity |]. cbn [initWorkload].
    destruct (String.eqb_spec path "builtin:tpcb-like") as [-> | H1]; [discriminate Hpath |].
    destruct (String.eqb_spec path "builtin:match-only") as [-> | H2]; [discriminate Hpath |].
    exact IH.
Qed.
